(** * Crawl: a shallow embedding of the HTTP client core

    The definitions below follow the C++ sources of the repository
    (src/http_client.cpp, src/dns_cache.cpp, rate_limiter.cpp, the command
    line driver) function by function.  Stateful code is written with
    explicit state passing; system calls whose result the program cannot
    predict (the clock, [recv], [send], [getaddrinfo], ...) are inputs of
    the model. *)

From Stdlib Require Import ZArith Ascii String List Bool Lia.
From Stdlib Require Import DecimalString DecimalZ DecimalPos DecimalN DecimalFacts.
From Stdlib Require Import QArith_base.
From stdpp Require Import base option list gmap strings fin_maps.

Local Open Scope string_scope.
Local Open Scope Z_scope.

(** ** Exceptions

    [std::stoi] reports failure by throwing; nothing in the client catches.
    A computation that may throw returns an [outcome]. *)

Inductive exn : Type :=
| invalid_argument
| out_of_range.

Inductive outcome (A : Type) : Type :=
| Ret (a : A)
| Throw (e : exn).
Arguments Ret {A} a.
Arguments Throw {A} e.

Definition obind {A B : Type} (m : outcome A) (k : A -> outcome B) : outcome B :=
  match m with
  | Ret a => k a
  | Throw e => Throw e
  end.

Notation "'let!' x ':=' m 'in' k" := (obind m (fun x => k))
  (at level 10, x name, m at level 100, k at level 200).

(** ** The part of [std::string] the client uses

    A [std::string] is a [string]; a position returned by [find] is an
    [option nat], [None] standing for [std::string::npos]. *)

Module Str.

Fixpoint drop (n : nat) (s : string) : string :=
  match n, s with
  | O, _ => s
  | S n', String _ s' => drop n' s'
  | S _, EmptyString => EmptyString
  end.

Fixpoint take (n : nat) (s : string) : string :=
  match n, s with
  | O, _ => EmptyString
  | S n', String c s' => String c (take n' s')
  | S _, EmptyString => EmptyString
  end.

(** [s.substr(pos, len)], for [pos <= s.size()] (the only use the client
    makes of it; beyond that bound the C++ function throws). *)
Definition substr (s : string) (pos len : nat) : string := take len (drop pos s).

(** [s.substr(pos)], for [pos <= s.size()]. *)
Definition substr_from (s : string) (pos : nat) : string := drop pos s.

(** [s] starts with [p]. *)
Fixpoint starts_with (p s : string) : bool :=
  match p, s with
  | EmptyString, _ => true
  | String a p', String b s' => if Ascii.eqb a b then starts_with p' s' else false
  | String _ _, EmptyString => false
  end.

(** First occurrence of [p] in [s], counted from the start of [s]. *)
Fixpoint find_at (p s : string) : option nat :=
  if starts_with p s then Some O
  else match s with
       | EmptyString => None
       | String _ s' => option_map S (find_at p s')
       end.

(** [s.find(p, pos)]. *)
Definition find (s p : string) (pos : nat) : option nat :=
  if (pos <=? String.length s)%nat
  then option_map (fun i => (pos + i)%nat) (find_at p (drop pos s))
  else None.

(** [s.find(c, pos)] for a character [c]. *)
Definition find_char (s : string) (c : ascii) (pos : nat) : option nat :=
  find s (String c EmptyString) pos.

(** [std::min] on two positions: [npos] is the largest [size_t]. *)
Definition min_pos (a b : option nat) : option nat :=
  match a, b with
  | Some x, Some y => Some (Nat.min x y)
  | Some x, None => Some x
  | None, Some y => Some y
  | None, None => None
  end.

(** [::tolower] in the "C" locale. *)
Definition tolower (c : ascii) : ascii :=
  let n := nat_of_ascii c in
  if ((65 <=? n) && (n <=? 90))%nat then ascii_of_nat (n + 32) else c.

Fixpoint map (f : ascii -> ascii) (s : string) : string :=
  match s with
  | EmptyString => EmptyString
  | String c s' => String (f c) (map f s')
  end.

Fixpoint mem (c : ascii) (s : string) : bool :=
  match s with
  | EmptyString => false
  | String d s' => if Ascii.eqb c d then true else mem c s'
  end.

End Str.

(** ** [std::stoi] and [std::to_string] *)

Definition INT_MAX : Z := 2147483647.
Definition INT_MIN : Z := -2147483648.

Definition isspace (c : ascii) : bool :=
  let n := nat_of_ascii c in
  ((n =? 32) || ((9 <=? n) && (n <=? 13)))%nat.

Definition digit_of (c : ascii) : option Z :=
  let n := nat_of_ascii c in
  if ((48 <=? n) && (n <=? 57))%nat then Some (Z.of_nat (n - 48)) else None.

Fixpoint skip_spaces (s : string) : string :=
  match s with
  | String c s' => if isspace c then skip_spaces s' else s
  | EmptyString => s
  end.

(** The digit loop of [strtol], base 10: stops at the first non-digit. *)
Fixpoint stol_digits (s : string) (acc : Z) : Z :=
  match s with
  | String c s' =>
      match digit_of c with
      | Some d => stol_digits s' (acc * 10 + d)
      | None => acc
      end
  | EmptyString => acc
  end.

(** [std::stoi(s)]: leading white space, an optional sign, then at least one
    digit; [invalid_argument] when there is no digit, [out_of_range] when the
    value does not fit an [int]. Characters after the digits are ignored. *)
Definition stoi (s : string) : outcome Z :=
  let s1 := skip_spaces s in
  let '(neg, s2) :=
    match s1 with
    | String "-" r => (true, r)
    | String "+" r => (false, r)
    | _ => (false, s1)
    end in
  match s2 with
  | String c _ =>
      match digit_of c with
      | Some _ =>
          let v := stol_digits s2 0 in
          let v := if neg then - v else v in
          if (INT_MIN <=? v) && (v <=? INT_MAX) then Ret v else Throw out_of_range
      | None => Throw invalid_argument
      end
  | EmptyString => Throw invalid_argument
  end.

(** [std::to_string] on an integer: decimal digits, ["-"] first when
    negative. *)
Definition int_to_string (n : Z) : string := NilZero.string_of_int (Z.to_int n).

(** ** URL (http_client.hpp, http_client.cpp) *)

Module URL.

Record t : Type := mk {
  scheme : string;
  host : string;
  port : Z;
  path : string;
  query : string
}.

(** [URL::parse]. *)
Definition parse (url : string) : outcome (option t) :=
  match Str.find url "://" 0 with
  | None => Ret None
  | Some scheme_end =>
      let scheme := Str.map Str.tolower (Str.substr url 0 scheme_end) in
      let pos := (scheme_end + 3)%nat in
      let path_start := Str.find_char url "/" pos in
      let query_start := Str.find_char url "?" pos in
      let host_end :=
        match Str.min_pos path_start query_start with
        | None => String.length url
        | Some e => e
        end in
      let host_port := Str.substr url pos (host_end - pos) in
      let! hp := match Str.find_char host_port ":" 0 with
                 | Some port_delim =>
                     let! p := stoi (Str.substr_from host_port (port_delim + 1)) in
                     Ret (Str.substr host_port 0 port_delim, p)
                 | None =>
                     Ret (host_port, if String.eqb scheme "https" then 443 else 80)
                 end in
      let pq :=
        match path_start with
        | Some ps =>
            match query_start with
            | Some qs =>
                if (ps <? qs)%nat
                then (Str.substr url ps (qs - ps), Str.substr_from url (qs + 1))
                else (Str.substr_from url ps, "")
            | None => (Str.substr_from url ps, "")
            end
        | None =>
            ("/", match query_start with
                  | Some qs => Str.substr_from url (qs + 1)
                  | None => ""
                  end)
        end in
      Ret (Some {| scheme := scheme; host := fst hp; port := snd hp;
                   path := fst pq; query := snd pq |})
  end.

(** [URL::to_string]. *)
Definition to_string (u : t) : string :=
  let result := scheme u +:+ "://" +:+ host u in
  let result :=
    if (String.eqb (scheme u) "http" && negb (port u =? 80))
       || (String.eqb (scheme u) "https" && negb (port u =? 443))
    then result +:+ ":" +:+ int_to_string (port u)
    else result in
  let result := result +:+ path u in
  if String.eqb (query u) "" then result else result +:+ "?" +:+ query u.

End URL.

(** ** Rate limiter (rate_limiter.hpp, rate_limiter.cpp)

    The rate is a [double]. The limiter uses three operations on it: the
    tests [rate_ <= 0] and [rate_ > 0], the cast [static_cast<size_t>(r)]
    and the interval [static_cast<long long>(1'000'000'000.0 / r)]. They are
    the methods of the class [Double]; [size_t] values are in [N], time
    points and durations are nanosecond counts in [Z]. *)

Class Double (double : Type) : Type := {
  le_zero : double -> bool;
  gt_zero : double -> bool;
  to_size_t : double -> N;
  nanos_per_request : double -> Z
}.

Module RateLimiter.
Section Limiter.
Context {double : Type} `{Double double}.

(** [interval_] has no initialiser: it is indeterminate ([None]) until a
    positive rate is set. *)
Record t : Type := mk {
  rate_ : double;
  burst_ : N;
  interval_ : option Z;
  tokens_ : list Z;
  last_refill_ : Z
}.

(** [RateLimiter::RateLimiter]; [now] is the clock reading. *)
Definition make (requests_per_second : double) (burst : N) (now : Z) : t :=
  {| rate_ := requests_per_second;
     burst_ := if (burst =? 0)%N then to_size_t requests_per_second else burst;
     interval_ := if gt_zero requests_per_second
                  then Some (nanos_per_request requests_per_second) else None;
     tokens_ := [];
     last_refill_ := now |}.

(** The [while] loop of [refill]: [n] is the value of [tokens_to_add]. *)
Fixpoint refill_loop (burst : N) (now : Z) (n : nat) (tokens : list Z) : list Z :=
  match n with
  | O => tokens
  | S n' =>
      if (N.of_nat (length tokens) <? burst)%N
      then refill_loop burst now n' (tokens ++ [now])%list
      else tokens
  end.

(** [RateLimiter::refill]. The division is undefined in C++ when
    [interval_] is zero or was never set; the model returns [None] there. *)
Definition refill (now : Z) (l : t) : option t :=
  if le_zero (rate_ l) then Some l
  else
    match interval_ l with
    | None => None
    | Some interval =>
        if interval =? 0 then None
        else
          let elapsed := now - last_refill_ l in
          let tokens_to_add := Z.quot elapsed interval in
          if 0 <? tokens_to_add
          then Some {| rate_ := rate_ l; burst_ := burst_ l; interval_ := interval_ l;
                       tokens_ := refill_loop (burst_ l) now (Z.to_nat tokens_to_add)
                                    (tokens_ l);
                       last_refill_ := now |}
          else Some l
    end.

Definition pop_front (l : t) : t :=
  {| rate_ := rate_ l; burst_ := burst_ l; interval_ := interval_ l;
     tokens_ := tail (tokens_ l); last_refill_ := last_refill_ l |}.

(** [RateLimiter::try_acquire]. *)
Definition try_acquire (now : Z) (l : t) : option (bool * t) :=
  if le_zero (rate_ l) then Some (true, l)
  else
    match refill now l with
    | None => None
    | Some l' =>
        match tokens_ l' with
        | [] => Some (false, l')
        | _ :: _ => Some (true, pop_front l')
        end
    end.

(** [RateLimiter::acquire]. Every turn of its loop reads the clock once;
    [clock] lists the readings. The result is [true] when a token was taken
    and [false] when the readings ran out with the caller still waiting. *)
Fixpoint acquire_loop (clock : list Z) (l : t) : option (bool * t) :=
  match clock with
  | [] => Some (false, l)
  | now :: clock' =>
      match refill now l with
      | None => None
      | Some l' =>
          match tokens_ l' with
          | [] => acquire_loop clock' l'
          | _ :: _ => Some (true, pop_front l')
          end
      end
  end.

Definition acquire (clock : list Z) (l : t) : option (bool * t) :=
  if le_zero (rate_ l) then Some (true, l) else acquire_loop clock l.

(** [RateLimiter::set_rate]. *)
Definition set_rate (requests_per_second : double) (burst : N) (now : Z) (l : t) : t :=
  {| rate_ := requests_per_second;
     burst_ := if (burst =? 0)%N then to_size_t requests_per_second else burst;
     interval_ := if gt_zero requests_per_second
                  then Some (nanos_per_request requests_per_second)
                  else interval_ l;
     tokens_ := [];
     last_refill_ := now |}.

(** The operations a client of the limiter (or the limiter itself) runs. *)
Inductive op : Type :=
| Refill (now : Z)
| Acquire (clock : list Z)
| TryAcquire (now : Z)
| SetRate (requests_per_second : double) (burst : N) (now : Z).

Definition step (o : op) (l : t) : option t :=
  match o with
  | Refill now => refill now l
  | Acquire clock => option_map snd (acquire clock l)
  | TryAcquire now => option_map snd (try_acquire now l)
  | SetRate r b now => Some (set_rate r b now l)
  end.

Fixpoint run (ops : list op) (l : t) : option t :=
  match ops with
  | [] => Some l
  | o :: ops' =>
      match step o l with
      | None => None
      | Some l' => run ops' l'
      end
  end.

(** The invariant of the token bucket. *)
Definition within_burst (l : t) : Prop :=
  (N.of_nat (length (tokens_ l)) <= burst_ l)%N.

(** The division of [refill] is defined: the limiter is unlimited, or its
    interval is set and is not zero. *)
Definition usable (l : t) : Prop :=
  le_zero (rate_ l) = true \/ exists i, interval_ l = Some i /\ i <> 0.

End Limiter.
Arguments t double : clear implicits.
Arguments op double : clear implicits.
End RateLimiter.

(** Rates that are whole numbers of requests per second: on them the
    floating-point operations are exact. *)
#[export] Instance whole_rate : Double Z := {|
  le_zero r := r <=? 0;
  gt_zero r := 0 <? r;
  to_size_t r := Z.to_N r;
  nanos_per_request r := Z.quot 1000000000 r
|}.

(** ** DNS cache (dns_cache.hpp, dns_cache.cpp) *)

Definition SIZE_MAX : Z := 18446744073709551615.

(** [x++] on a [size_t] or [uint64_t] counter. *)
Definition incr64 (x : Z) : Z := (x + 1) mod (SIZE_MAX + 1).

Definition sockaddr_storage : Type := list Byte.byte.

Definition NANOS_PER_SECOND : Z := 1000000000.

(** [duration_cast<seconds>] of a [steady_clock] difference. *)
Definition to_seconds (nanos : Z) : Z := Z.quot nanos NANOS_PER_SECOND.

Module DNSCache.

Record CachedAddress : Type := mkCached {
  addresses : list sockaddr_storage;
  cached_at : Z;
  ttl : Z
}.

Record t : Type := mk {
  cache_ : gmap string CachedAddress;
  default_ttl_ : Z;
  hits_ : Z;
  misses_ : Z
}.

(** [DNSCache::DNSCache]. *)
Definition make (default_ttl : Z) : t :=
  {| cache_ := ∅; default_ttl_ := default_ttl; hits_ := 0; misses_ := 0 |}.

(** [DNSCache::make_key]. *)
Definition make_key (host : string) (port : Z) : string :=
  host +:+ ":" +:+ int_to_string port.

(** What one call of [resolve] reads from the system: the clock at the
    lookup, the list [do_resolve] returns, the clock at the insertion. *)
Record sys : Type := mkSys {
  now_lookup : Z;
  resolved : list sockaddr_storage;
  now_store : Z
}.

(** The entry of [key] is fresh at [now]. *)
Definition fresh (now : Z) (e : CachedAddress) : bool :=
  to_seconds (now - cached_at e) <? ttl e.

(** [DNSCache::resolve]. *)
Definition resolve (host : string) (port : Z) (env : sys) (c : t)
  : list sockaddr_storage * t :=
  let key := make_key host port in
  match cache_ c !! key with
  | Some e =>
      if fresh (now_lookup env) e
      then (addresses e,
            {| cache_ := cache_ c; default_ttl_ := default_ttl_ c;
               hits_ := incr64 (hits_ c); misses_ := misses_ c |})
      else
        let cache1 := delete key (cache_ c) in
        let misses1 := incr64 (misses_ c) in
        let cache2 :=
          match resolved env with
          | [] => cache1
          | _ :: _ => <[key := mkCached (resolved env) (now_store env) (default_ttl_ c)]> cache1
          end in
        (resolved env,
         {| cache_ := cache2; default_ttl_ := default_ttl_ c;
            hits_ := hits_ c; misses_ := misses1 |})
  | None =>
      let misses1 := incr64 (misses_ c) in
      let cache2 :=
        match resolved env with
        | [] => cache_ c
        | _ :: _ => <[key := mkCached (resolved env) (now_store env) (default_ttl_ c)]> (cache_ c)
        end in
      (resolved env,
       {| cache_ := cache2; default_ttl_ := default_ttl_ c;
          hits_ := hits_ c; misses_ := misses1 |})
  end.

(** [DNSCache::cleanup]. *)
Definition cleanup (now : Z) (c : t) : t :=
  {| cache_ := filter (fun kv => fresh now (snd kv) = true) (cache_ c);
     default_ttl_ := default_ttl_ c; hits_ := hits_ c; misses_ := misses_ c |}.

(** [DNSCache::clear]. *)
Definition clear (c : t) : t :=
  {| cache_ := ∅; default_ttl_ := default_ttl_ c;
     hits_ := hits_ c; misses_ := misses_ c |}.

End DNSCache.

(** ** Statistics (stats.hpp, stats.cpp)

    The counters the executor updates; the millisecond sums and the latency
    minimum and maximum, which depend on measured durations only, are left
    out. *)

Module Statistics.

Record t : Type := mk {
  total_requests_ : Z;
  total_errors_ : Z;
  total_bytes_received_ : Z;
  connections_created_ : Z;
  connections_reused_ : Z;
  dns_lookups_ : Z;
  dns_cache_hits_ : Z;
  tcp_handshake_count_ : Z;
  error_counts_ : gmap string Z
}.

Definition make : t := mk 0 0 0 0 0 0 0 0 ∅.

(** [error_counts_[k]]: a key that is absent reads as zero. *)
Definition error_count (s : t) (k : string) : Z := default 0 (error_counts_ s !! k).

Definition record_request (bytes_received : Z) (s : t) : t :=
  mk (incr64 (total_requests_ s)) (total_errors_ s)
     ((total_bytes_received_ s + bytes_received) mod (SIZE_MAX + 1))
     (connections_created_ s) (connections_reused_ s) (dns_lookups_ s)
     (dns_cache_hits_ s) (tcp_handshake_count_ s) (error_counts_ s).

Definition record_connection (reused : bool) (s : t) : t :=
  mk (total_requests_ s) (total_errors_ s) (total_bytes_received_ s)
     (if reused then connections_created_ s else incr64 (connections_created_ s))
     (if reused then incr64 (connections_reused_ s) else connections_reused_ s)
     (dns_lookups_ s) (dns_cache_hits_ s) (tcp_handshake_count_ s) (error_counts_ s).

Definition record_error (error_type : string) (s : t) : t :=
  mk (total_requests_ s) (incr64 (total_errors_ s)) (total_bytes_received_ s)
     (connections_created_ s) (connections_reused_ s) (dns_lookups_ s)
     (dns_cache_hits_ s) (tcp_handshake_count_ s)
     (<[error_type := incr64 (error_count s error_type)]> (error_counts_ s)).

Definition record_dns_lookup (cached : bool) (s : t) : t :=
  mk (total_requests_ s) (total_errors_ s) (total_bytes_received_ s)
     (connections_created_ s) (connections_reused_ s) (incr64 (dns_lookups_ s))
     (if cached then incr64 (dns_cache_hits_ s) else dns_cache_hits_ s)
     (tcp_handshake_count_ s) (error_counts_ s).

Definition record_tcp_handshake (s : t) : t :=
  mk (total_requests_ s) (total_errors_ s) (total_bytes_received_ s)
     (connections_created_ s) (connections_reused_ s) (dns_lookups_ s)
     (dns_cache_hits_ s) (incr64 (tcp_handshake_count_ s)) (error_counts_ s).

End Statistics.

(** ** Connections and the process memory (connection_pool.hpp)

    A [std::shared_ptr<PooledConnection>] is a location of the object store
    or null. Objects are never freed while the model runs, so the store is a
    list indexed by location. [closed] logs every [::close(fd)] call, oldest
    first. *)

Record TLSConnection : Type := mkTLS {
  tls_socket_fd : Z;
  tls_hostname : string
}.

Record PooledConnection : Type := mkConn {
  socket_fd : Z;
  tls : option TLSConnection;
  last_used : Z;
  in_use : bool
}.

(** [conn->tls != nullptr]. *)
Definition has_tls (c : PooledConnection) : bool :=
  match tls c with
  | Some _ => true
  | None => false
  end.

(** [PooledConnection::PooledConnection]. *)
Definition new_connection : PooledConnection := mkConn (-1) None 0 false.

Abbreviation loc := nat.
Abbreviation conn_ptr := (option nat).

Record Mem : Type := mkMem {
  heap : list PooledConnection;
  closed : list Z
}.

Definition deref (m : Mem) (l : loc) : PooledConnection :=
  default new_connection (heap m !! l).

Definition store (l : loc) (c : PooledConnection) (m : Mem) : Mem :=
  mkMem (<[l := c]> (heap m)) (closed m).

(** [std::make_shared<PooledConnection>()]. *)
Definition alloc (c : PooledConnection) (m : Mem) : loc * Mem :=
  (length (heap m), mkMem (heap m ++ [c]) (closed m)).

(** [::close(fd)]. *)
Definition close (fd : Z) (m : Mem) : Mem := mkMem (heap m) (closed m ++ [fd]).

(** How often [fd] was closed. *)
Definition times_closed (fd : Z) (m : Mem) : nat :=
  length (filter (fun x => x = fd) (closed m)).

Definition EAGAIN : Z := 11.
Definition EWOULDBLOCK : Z := 11.

(** [x] converted to [int], as [total_conns += p.second.size()] does. *)
Definition to_int32 (x : Z) : Z := (x + 2147483648) mod 4294967296 - 2147483648.

(** ** Connection pool (connection_pool.hpp, connection_pool.cpp) *)

Module ConnectionPool.

Abbreviation PoolKey := (string * Z * bool)%type.

Record t : Type := mk {
  max_connections_ : Z;
  idle_timeout_ : Z;
  pools_ : gmap PoolKey (list conn_ptr)
}.

(** [ConnectionPool::ConnectionPool]. *)
Definition make (max_connections idle_timeout : Z) : t :=
  mk max_connections idle_timeout ∅.

(** The liveness test of [acquire] on the result [(ret, errno)] of
    [recv(fd, buf, 1, MSG_PEEK | MSG_DONTWAIT)]. *)
Definition dead (r : Z * Z) : bool :=
  (fst r =? 0) || ((fst r <? 0) && negb (snd r =? EAGAIN) && negb (snd r =? EWOULDBLOCK)).

(** The loop of [acquire] over one vector: [n] is [i + 1], so the entries
    at indices [n - 1], ..., [0] are still to be visited. [recv_peek] gives
    the result of the probe on a descriptor. *)
Fixpoint acquire_scan (recv_peek : Z -> Z * Z) (now : Z) (n : nat)
    (pool : list conn_ptr) (m : Mem) : conn_ptr * list conn_ptr * Mem :=
  match n with
  | O => (None, pool, m)
  | S i =>
      match pool !! i with
      | Some (Some l) =>
          let c := deref m l in
          if in_use c then acquire_scan recv_peek now i pool m
          else if dead (recv_peek (socket_fd c))
          then acquire_scan recv_peek now i (delete i pool) (close (socket_fd c) m)
          else (Some l, pool, store l (mkConn (socket_fd c) (tls c) now true) m)
      | _ => acquire_scan recv_peek now i pool m
      end
  end.

(** [ConnectionPool::acquire]. *)
Definition acquire (recv_peek : Z -> Z * Z) (now : Z)
    (host : string) (port : Z) (use_tls : bool) (pm : t * Mem) : conn_ptr * (t * Mem) :=
  let '(p, m) := pm in
  let key := (host, port, use_tls) in
  match pools_ p !! key with
  | Some pool =>
      let '(r, pool', m') := acquire_scan recv_peek now (length pool) pool m in
      (r, (mk (max_connections_ p) (idle_timeout_ p) (<[key := pool']> (pools_ p)), m'))
  | None => (None, (p, m))
  end.

(** The number of entries of all vectors of the pool. *)
Definition stored (pools : gmap (string * Z * bool) (list conn_ptr)) : nat :=
  map_fold (fun _ (v : list conn_ptr) acc => (length v + acc)%nat) O pools.

(** [ConnectionPool::release]. *)
Definition release (now : Z) (host : string) (port : Z) (conn : conn_ptr)
    (pm : t * Mem) : t * Mem :=
  let '(p, m) := pm in
  match conn with
  | None => (p, m)
  | Some l =>
      let c := deref m l in
      if socket_fd c <? 0 then (p, m)
      else
        let key := (host, port, has_tls c) in
        let m1 := store l (mkConn (socket_fd c) (tls c) now false) m in
        let pool := default [] (pools_ p !! key) in
        let pools1 := <[key := pool]> (pools_ p) in
        let total_conns := to_int32 (Z.of_nat (stored pools1)) in
        if max_connections_ p <=? total_conns
        then (mk (max_connections_ p) (idle_timeout_ p) pools1, close (socket_fd c) m1)
        else (mk (max_connections_ p) (idle_timeout_ p)
                 (<[key := (pool ++ [conn])%list]> pools1), m1)
  end.

(** The predicate of [std::remove_if] in [cleanup_idle]. *)
Definition expired (idle_timeout now : Z) (m : Mem) (conn : conn_ptr) : bool :=
  match conn with
  | Some l =>
      let c := deref m l in
      negb (in_use c) && (idle_timeout <=? to_seconds (now - last_used c))
  | None => false
  end.

(** [ConnectionPool::cleanup_idle]: every expired entry is closed and
    erased; the log lists the descriptors vector by vector, in the order of
    the vector within one key. The order between keys is that in which the
    map is folded here, not that of [PoolKey] in [std::map]; nothing below
    depends on it. *)
Definition cleanup_idle (now : Z) (pm : t * Mem) : t * Mem :=
  let '(p, m) := pm in
  let gone (v : list conn_ptr) : list Z :=
    omap (fun conn => match conn with
                      | Some l => if expired (idle_timeout_ p) now m conn
                                  then Some (socket_fd (deref m l)) else None
                      | None => None
                      end) v in
  (mk (max_connections_ p) (idle_timeout_ p)
      (fmap (List.filter (fun conn => negb (expired (idle_timeout_ p) now m conn)))
            (pools_ p)),
   mkMem (heap m) (closed m ++ List.concat (List.map (fun kv => gone (snd kv))
                                                     (map_to_list (pools_ p))))).

(** The operations of the pool, for statements about every sequence of
    them. *)
Inductive op : Type :=
| Acquire (recv_peek : Z -> Z * Z) (now : Z) (host : string) (port : Z) (use_tls : bool)
| Release (now : Z) (host : string) (port : Z) (conn : conn_ptr)
| CleanupIdle (now : Z).

Definition step (o : op) (pm : t * Mem) : t * Mem :=
  match o with
  | Acquire recv_peek now host port use_tls => snd (acquire recv_peek now host port use_tls pm)
  | Release now host port conn => release now host port conn pm
  | CleanupIdle now => cleanup_idle now pm
  end.

Definition run (ops : list op) (pm : t * Mem) : t * Mem :=
  fold_left (fun pm o => step o pm) ops pm.

End ConnectionPool.

(** ** Requests and responses (http_client.hpp) *)

Module Request.
Record t : Type := mk {
  method : string;
  url : URL.t;
  headers : gmap string string;
  body : list Byte.byte;
  timeout : Z;
  follow_redirects : bool;
  max_redirects : Z;
  enable_compression : bool;
  prefer_http2 : bool;
  max_retries : Z;
  retry_delay : Z;
  exponential_backoff : bool
}.

(** A [Request] with the default member initialisers, for [u]. *)
Definition make (u : URL.t) : t :=
  mk "GET" u ∅ [] 30000 false 10 true true 0 1000 true.
End Request.

Module Response.
Record t : Type := mk {
  status_code : Z;
  status_message : string;
  headers : gmap string string;
  body : list Byte.byte;
  elapsed_time : Z;
  from_cache : bool;
  used_http2 : bool;
  was_compressed : bool;
  redirect_count : Z;
  bytes_received : Z
}.

(** A value-initialised [Response], as the elements of
    [std::vector<Response> responses(n)] are. *)
Definition empty : t := mk 0 "" ∅ [] 0 false false false 0 0.

(** [Response resp; resp.status_code = 0; resp.elapsed_time = ...]. *)
Definition failed (elapsed : Z) : t := mk 0 "" ∅ [] elapsed false false false 0 0.

Definition with_elapsed (elapsed : Z) (r : t) : t :=
  mk (status_code r) (status_message r) (headers r) (body r) elapsed
     (from_cache r) (used_http2 r) (was_compressed r) (redirect_count r)
     (bytes_received r).

(** [resp.redirect_count++]. *)
Definition count_redirect (r : t) : t :=
  mk (status_code r) (status_message r) (headers r) (body r) (elapsed_time r)
     (from_cache r) (used_http2 r) (was_compressed r)
     (to_int32 (redirect_count r + 1)) (bytes_received r).
End Response.

(** ** The request executor (http_client.cpp)

    What one call of [execute_request] gets from the system: the probe
    results of the pool, the clock, the result of [getaddrinfo] with, for
    every address, the results of [socket], [poll] and [SO_ERROR], the result
    of the TLS handshake, the result of the first [send], what
    [read_response] and [parse_response] make of the bytes received, and the
    duration measured at the end. *)

Record DialAttempt : Type := mkDial {
  sfd : Z;
  poll_ret : Z;
  so_error : Z
}.

Record Exchange : Type := mkExchange {
  recv_peek : Z -> Z * Z;
  now : Z;
  gai_ret : Z;
  addrs : list DialAttempt;
  handshake_ok : bool;
  sent : Z;
  reply : outcome Response.t;
  elapsed : Z
}.

Module Impl.

(** [HTTPClient::Impl]: the pool and the statistics, with the object store
    and descriptor log they work on; [calls] counts the calls of
    [execute_request] and [slept] lists the delays that
    [execute_with_retry] hands to [sleep_for]. The rate limiter is not a
    field here: the waits of [rate_limiter_->acquire()], in steps of one
    millisecond once a rate is set, are not recorded in [slept], which
    therefore says nothing about whether [execute_request] waits. *)
Record t : Type := mk {
  pool_ : ConnectionPool.t;
  stats_ : Statistics.t;
  mem : Mem;
  calls : nat;
  slept : list Z
}.

(** [HTTPClient::Impl::Impl]. *)
Definition make : t := mk (ConnectionPool.make 200 90) Statistics.make (mkMem [] []) O [].

Definition with_stats (f : Statistics.t -> Statistics.t) (st : t) : t :=
  mk (pool_ st) (f (stats_ st)) (mem st) (calls st) (slept st).

Definition with_mem (f : Mem -> Mem) (st : t) : t :=
  mk (pool_ st) (stats_ st) (f (mem st)) (calls st) (slept st).

Definition with_pool (pm : ConnectionPool.t * Mem) (st : t) : t :=
  mk (fst pm) (stats_ st) (snd pm) (calls st) (slept st).

Definition enter (st : t) : t :=
  mk (pool_ st) (stats_ st) (mem st) (S (calls st)) (slept st).

Definition sleep_for (delay : Z) (st : t) : t :=
  mk (pool_ st) (stats_ st) (mem st) (calls st) (slept st ++ [delay])%list.

(** The loop over the addresses [getaddrinfo] returned. *)
Fixpoint dial (addresses : list DialAttempt) (m : Mem) : Z * Mem :=
  match addresses with
  | [] => (-1, m)
  | a :: rest =>
      if sfd a <? 0 then dial rest m
      else if (0 <? poll_ret a) && (so_error a =? 0) then (sfd a, m)
      else dial rest (close (sfd a) m)
  end.

(** The first half of [execute_request]: a connection from the pool or a
    new one. The result is the connection, or the response of an early
    return. *)
Definition obtain (e : Exchange) (req : Request.t) (st : t) : (loc + Response.t) * t :=
  let u := Request.url req in
  let use_tls := String.eqb (URL.scheme u) "https" in
  let '(conn, pm) :=
    ConnectionPool.acquire (recv_peek e) (now e) (URL.host u) (URL.port u) use_tls
      (pool_ st, mem st) in
  let st := with_pool pm st in
  match conn with
  | None =>
      let st := with_stats (Statistics.record_dns_lookup false) st in
      let '(fd, m) :=
        if (gai_ret e =? 0) && negb (Nat.eqb (length (addrs e)) 0)
        then dial (addrs e) (mem st) else (-1, mem st) in
      let st := with_mem (fun _ => m) st in
      let st := with_stats Statistics.record_tcp_handshake st in
      if fd <? 0
      then (inr (Response.failed (elapsed e)),
            with_stats (Statistics.record_error "connection_failed") st)
      else
        let '(l, m) := alloc (mkConn fd None 0 true) (mem st) in
        let st := with_mem (fun _ => m) st in
        if use_tls
        then
          let st := with_mem (store l (mkConn fd (Some (mkTLS fd (URL.host u))) 0 true)) st in
          if handshake_ok e
          then (inl l, with_stats (Statistics.record_connection false) st)
          else (inr (Response.failed (elapsed e)),
                with_stats (Statistics.record_error "tls_handshake_failed")
                  (with_mem (close fd) st))
        else (inl l, with_stats (Statistics.record_connection false) st)
  | Some l =>
      (inl l,
       with_stats (Statistics.record_connection true)
         (with_stats Statistics.record_tcp_handshake
            (with_stats (Statistics.record_dns_lookup true) st)))
  end.

(** What is left of one call once the redirect test is made. *)
Inductive verdict : Type :=
| Done (o : outcome Response.t)
| Follow (new_req : Request.t).

(** The second half: send, read, release, record, and the redirect test. *)
Definition transact (e : Exchange) (req : Request.t) (l : loc) (st : t) : verdict * t :=
  let u := Request.url req in
  if sent e <? 0
  then (Done (Ret (Response.failed (elapsed e))),
        with_stats (Statistics.record_error "send_failed")
          (with_mem (close (socket_fd (deref (mem st) l))) st))
  else
    match reply e with
    | Throw x => (Done (Throw x), st)
    | Ret parsed =>
        let resp := Response.with_elapsed (elapsed e) parsed in
        let st := with_pool (ConnectionPool.release (now e) (URL.host u) (URL.port u)
                               (Some l) (pool_ st, mem st)) st in
        let st := with_stats (Statistics.record_request (Response.bytes_received resp)) st in
        if Request.follow_redirects req
           && (300 <=? Response.status_code resp) && (Response.status_code resp <? 400)
        then
          match Response.headers resp !! "Location" with
          | Some location =>
              if 0 <? Request.max_redirects req
              then
                match URL.parse location with
                | Throw x => (Done (Throw x), st)
                | Ret None => (Done (Ret resp), st)
                | Ret (Some new_url) =>
                    (Follow (Request.mk (Request.method req) new_url (Request.headers req)
                               (Request.body req) (Request.timeout req)
                               (Request.follow_redirects req)
                               (Request.max_redirects req - 1)
                               (Request.enable_compression req) (Request.prefer_http2 req)
                               (Request.max_retries req) (Request.retry_delay req)
                               (Request.exponential_backoff req)), st)
                end
              else (Done (Ret resp), st)
          | None => (Done (Ret resp), st)
          end
        else (Done (Ret resp), st)
    end.

(** One call of [execute_request] up to its recursive call. The wait in
    [rate_limiter_->acquire()] comes first in the source; it touches neither
    the pool nor the statistics and is left out here, so that nothing below
    speaks of the time a call of [execute_request] takes or of its
    waiting. *)
Definition attempt (e : Exchange) (req : Request.t) (st : t) : verdict * t :=
  match obtain e req st with
  | (inl l, st') => transact e req l st'
  | (inr resp, st') => (Done (Ret resp), st')
  end.

Definition map_outcome {A B : Type} (f : A -> B) (o : outcome A) : outcome B :=
  match o with
  | Ret a => Ret (f a)
  | Throw x => Throw x
  end.

(** [HTTPClient::Impl::execute_request]; the [n]-th call made on a client
    gets [env n]. [fuel] bounds the depth of the recursion on redirects. *)
Fixpoint execute_request_rec (env : nat -> Exchange) (fuel : nat) (req : Request.t)
    (st : t) : outcome Response.t * t :=
  match attempt (env (calls st)) req (enter st) with
  | (Done o, st') => (o, st')
  | (Follow new_req, st') =>
      match fuel with
      | O => (Ret (Response.failed 0), st')
      | S fuel' =>
          let '(o, st'') := execute_request_rec env fuel' new_req st' in
          (map_outcome Response.count_redirect o, st'')
      end
  end.

(** A redirect is followed only when [max_redirects > 0], and lowers it by
    one: [max_redirects] is fuel enough. *)
Definition execute_request (env : nat -> Exchange) (req : Request.t) (st : t)
  : outcome Response.t * t :=
  execute_request_rec env (Z.to_nat (Request.max_redirects req)) req st.

(** The [while] loop of [execute_with_retry]: [remaining] is
    [max_attempts - attempts]. The response returned when the attempts are
    used up is a [Response] whose [status_code] is set to 0 and whose
    [elapsed_time] the source never assigns; it is read as 0 here. The
    source computes the factor of the backoff as [1 << (attempts - 1)] in
    [int]; [2 ^ (attempts - 1)] agrees with it up to 31 attempts. *)
Fixpoint retry_loop (env : nat -> Exchange) (req : Request.t) (max_attempts : Z)
    (remaining : nat) (attempts : Z) (st : t) : outcome Response.t * t :=
  match remaining with
  | O =>
      (Ret (Response.mk 0 "" ∅ [] 0 false false false 0 0),
       with_stats (Statistics.record_error "max_retries_exceeded") st)
  | S remaining' =>
      match execute_request env req st with
      | (Throw x, st') => (Throw x, st')
      | (Ret resp, st') =>
          if (0 <? Response.status_code resp) && (Response.status_code resp <? 500)
          then (Ret resp, st')
          else
            let attempts := attempts + 1 in
            let st' :=
              if attempts <? max_attempts
              then
                let delay :=
                  if Request.exponential_backoff req
                  then Request.retry_delay req * 2 ^ (attempts - 1)
                  else Request.retry_delay req in
                with_stats (Statistics.record_error "retry") (sleep_for delay st')
              else st' in
            retry_loop env req max_attempts remaining' attempts st'
      end
  end.

(** [HTTPClient::Impl::execute_with_retry]. *)
Definition execute_with_retry (env : nat -> Exchange) (req : Request.t) (st : t)
  : outcome Response.t * t :=
  let max_attempts := Request.max_retries req + 1 in
  retry_loop env req max_attempts (Z.to_nat max_attempts) 0 st.

(** [HTTPClient::request]. *)
Definition request (env : nat -> Exchange) (req : Request.t) (st : t)
  : outcome Response.t * t :=
  if 0 <? Request.max_retries req
  then execute_with_retry env req st
  else execute_request env req st.

End Impl.

(** ** Batch executor (http_client.cpp)

    [run_request req] is the response the asynchronous call
    [this->request(req)] returns; a future is represented by the value it
    will hold, and [pending] is the part of [requests] from [idx] on. *)

Module Batch.
Section Batch.
Variable run_request : Request.t -> Response.t.

(** [static_cast<size_t>(max_parallel)]. *)
Definition size_of_int (x : Z) : Z := x mod (SIZE_MAX + 1).

(** The inner loop: launch while fewer than [max_parallel] are in flight. *)
Fixpoint launch (max_parallel : Z) (futures : list Response.t) (pending : list Request.t)
  : list Response.t * list Request.t :=
  match pending with
  | [] => (futures, [])
  | req :: rest =>
      if Z.of_nat (length futures) <? max_parallel
      then launch max_parallel (futures ++ [run_request req])%list rest
      else (futures, pending)
  end.

(** The outer loop; it does not end when [max_parallel] is zero, which the
    model reports as [None] once [fuel] is used up. *)
Fixpoint batch_loop (fuel : nat) (max_parallel : Z) (responses futures : list Response.t)
    (pending : list Request.t) : option (list Response.t * list Response.t) :=
  match pending with
  | [] => Some (responses, futures)
  | _ :: _ =>
      match fuel with
      | O => None
      | S fuel' =>
          let '(futures1, pending1) := launch max_parallel futures pending in
          match futures1 with
          | [] => batch_loop fuel' max_parallel responses futures1 pending1
          | front :: rest =>
              let completed_idx := (length responses - length futures1)%nat in
              batch_loop fuel' max_parallel (<[completed_idx := front]> responses)
                rest pending1
          end
      end
  end.

(** The last loop: [futures] is not shortened while it runs. *)
Definition drain (responses futures : list Response.t) : list Response.t :=
  let completed_idx := (length responses - length futures)%nat in
  fold_left (fun rs r => <[completed_idx := r]> rs) futures responses.

(** [HTTPClient::batch_request]. *)
Definition batch_request (requests : list Request.t) (max_parallel : Z)
  : option (list Response.t) :=
  match batch_loop (S (length requests)) (size_of_int max_parallel)
          (replicate (length requests) Response.empty) [] requests with
  | Some (responses, futures) => Some (drain responses futures)
  | None => None
  end.

End Batch.
End Batch.

(** ** Parallel range download (main.cpp)

    [fetch i k req] is the response worker [i] gets from its own client at
    its [k]-th try of [req]. *)

Module Download.

(** ["%zu"] and [std::to_string] on a [size_t]. *)
Definition size_to_string (n : Z) : string :=
  NilZero.string_of_uint (N.to_uint (Z.to_N n)).

(** Arithmetic on [size_t]. *)
Definition wrap64 (x : Z) : Z := x mod (SIZE_MAX + 1).

Definition start_byte (segment_size i : Z) : Z := wrap64 (i * segment_size).

Definition end_byte (segment_size i : Z) : Z := wrap64 ((i + 1) * segment_size - 1).

(** The text [snprintf] writes to [range_hdr]; it is at most 47 characters
    long and fits the buffer. *)
Definition range_header (segment_size num_pipes i : Z) : string :=
  if i =? num_pipes - 1
  then "bytes=" +:+ size_to_string (start_byte segment_size i) +:+ "-"
  else "bytes=" +:+ size_to_string (start_byte segment_size i) +:+ "-"
       +:+ size_to_string (end_byte segment_size i).

(** The request of worker [i]. *)
Definition segment_request (parsed : URL.t) (method : string)
    (extra_headers : gmap string string) (max_time : Z) (no_compress : bool)
    (segment_size num_pipes i : Z) : Request.t :=
  Request.mk method parsed
    (<["Range" := range_header segment_size num_pipes i]> extra_headers)
    [] (max_time * 1000) false 10 (negb no_compress) true 0 1000 true.

(** The [do ... while] loop of a worker: [left] is [MAX_RETRIES - 1 - retries]
    when the body is entered. *)
Fixpoint worker_loop (fetch : nat -> Request.t -> Response.t) (req : Request.t)
    (left retries : nat) : Response.t :=
  let resp := fetch retries req in
  match left with
  | O => resp
  | S left' =>
      if Response.status_code resp =? 206 then resp
      else worker_loop fetch req left' (S retries)
  end.

(** What worker [i] leaves in [parts[i]]. *)
Definition part (fetch : Z -> nat -> Request.t -> Response.t) (req : Request.t) (i : Z)
  : list Byte.byte :=
  let resp := worker_loop (fetch i) req 2 0 in
  if Response.status_code resp =? 206 then Response.body resp else [].

(** The indices [0], ..., [n - 1]. *)
Definition indices (n : Z) : list Z := List.map Z.of_nat (seq 0 (Z.to_nat n)).

(** [parallel_download]. An exception of [URL::parse] in a worker thread is
    not caught. *)
Definition parallel_download (fetch : Z -> nat -> Request.t -> Response.t)
    (url_str : string) (content_length num_pipes : Z) (method : string)
    (extra_headers : gmap string string) (max_time : Z) (no_compress : bool)
  : outcome (list Byte.byte) :=
  if (num_pipes <? 2) || (content_length =? 0) then Ret []
  else
    let segment_size := content_length / num_pipes in
    match URL.parse url_str with
    | Throw x => Throw x
    | Ret None => Ret []
    | Ret (Some parsed) =>
        Ret (List.concat
               (List.map
                  (fun i => part fetch
                              (segment_request parsed method extra_headers max_time
                                 no_compress segment_size num_pipes i) i)
                  (indices num_pipes)))
    end.

End Download.

(** ** The public entry points (http_client.cpp)

    [default_timeout] is [impl_->default_timeout_]. *)

Module HTTPClient.

(** [HTTPClient::get]. On a URL that does not parse the source returns a
    [Response] of which it sets [status_code] only; its [elapsed_time],
    never assigned there, is read as 0. *)
Definition get (default_timeout : Z) (env : nat -> Exchange) (url : string) (st : Impl.t)
  : outcome Response.t * Impl.t :=
  match URL.parse url with
  | Throw x => (Throw x, st)
  | Ret None => (Ret (Response.failed 0), st)
  | Ret (Some parsed_url) =>
      Impl.execute_request env
        (Request.mk "GET" parsed_url ∅ [] default_timeout false 10 true true 0 1000 true) st
  end.

(** [HTTPClient::post]; as in [get], the [elapsed_time] of the response to
    a URL that does not parse is read as 0. *)
Definition post (default_timeout : Z) (env : nat -> Exchange) (url : string)
    (data : list Byte.byte) (st : Impl.t) : outcome Response.t * Impl.t :=
  match URL.parse url with
  | Throw x => (Throw x, st)
  | Ret None => (Ret (Response.failed 0), st)
  | Ret (Some parsed_url) =>
      Impl.execute_request env
        (Request.mk "POST" parsed_url {[ "Content-Type" := "application/octet-stream" ]}
           data default_timeout false 10 true true 0 1000 true) st
  end.

End HTTPClient.

(** ** Option and header handling of the command line tool (main.cpp) *)

Module Main.

(** The loop over the value of the [Content-Length] header of the HEAD
    response: every digit is appended to the number read so far, every
    other character is passed over. *)
Fixpoint read_digits (value : string) (content_length : Z) : Z :=
  match value with
  | EmptyString => content_length
  | String c rest =>
      read_digits rest
        (match digit_of c with
         | Some d => Download.wrap64 (content_length * 10 + d)
         | None => content_length
         end)
  end.

Definition content_length_of (value : string) : Z := read_digits value 0.

(** [s.find_first_not_of(chars)]. *)
Fixpoint find_first_not_of (s chars : string) : option nat :=
  match s with
  | EmptyString => None
  | String c s' =>
      if Str.mem c chars then option_map S (find_first_not_of s' chars) else Some O
  end.

(** [s.erase(0, n)]; [npos] erases to the end. *)
Definition erase_front (s : string) (n : option nat) : string :=
  match n with
  | Some k => Str.drop k s
  | None => EmptyString
  end.

(** A space and a tab. *)
Definition blanks : string := String " " (String "009" EmptyString).

(** The case ['H'] of the option loop: [optarg] is split at its first
    colon. *)
Definition header_option (optarg : string) (headers : gmap string string)
  : gmap string string :=
  match Str.find_char optarg ":" 0 with
  | Some colon =>
      let key := Str.substr optarg 0 colon in
      let value := Str.substr_from optarg (colon + 1) in
      <[key := erase_front value (find_first_not_of value blanks)]> headers
  | None => headers
  end.

End Main.

(** ** Auxiliary definitions of the proofs *)

(** What [URL::parse] does once the scheme is known, on the text [r] after
    ["://"] and with positions counted from the start of [r]. *)
Definition after_scheme (scheme r : string) : outcome (option URL.t) :=
  let path_start := Str.find_at "/" r in
  let query_start := Str.find_at "?" r in
  let host_end :=
    match Str.min_pos path_start query_start with
    | None => String.length r
    | Some e => e
    end in
  let host_port := Str.take host_end r in
  let! hp := match Str.find_at ":" host_port with
             | Some port_delim =>
                 let! p := stoi (Str.drop (port_delim + 1) host_port) in
                 Ret (Str.take port_delim host_port, p)
             | None =>
                 Ret (host_port, if String.eqb scheme "https" then 443 else 80)
             end in
  let pq :=
    match path_start with
    | Some ps =>
        match query_start with
        | Some qs =>
            if (ps <? qs)%nat
            then (Str.take (qs - ps) (Str.drop ps r), Str.drop (qs + 1) r)
            else (Str.drop ps r, "")
        | None => (Str.drop ps r, "")
        end
    | None =>
        ("/", match query_start with
              | Some qs => Str.drop (qs + 1) r
              | None => ""
              end)
    end in
  Ret (Some (URL.mk scheme (fst hp) (snd hp) (fst pq) (snd pq))).

(** [s] contains the text ["://"]. *)
Definition has_separator (s : string) : Prop := exists a b, s = a +:+ "://" +:+ b.

(** A probe that finds the peer silent and the connection open:
    [recv] returns [-1] with [EAGAIN]. *)
Definition probe_alive (fd : Z) : Z * Z := (-1, EAGAIN).

(** The system lets the executor reach a server that answers 503: a new
    connection can be dialled and set up, the request is sent, and the
    response read has status 503. *)
Definition answers_503 (e : Exchange) : Prop :=
  gai_ret e = 0
  /\ (forall m, 0 <= (Impl.dial (addrs e) m).1)
  /\ handshake_ok e = true
  /\ 0 <= sent e
  /\ exists r, reply e = Ret r /\ Response.status_code r = 503.

Definition response_503 : Response.t :=
  Response.mk 503 "Service Unavailable" ∅ [] 0 false false false 0 0.

(** A system in which every call meets such a server. *)
Definition always_503 (n : nat) : Exchange :=
  mkExchange probe_alive 0 0 [mkDial 3 1 0] true 1 (Ret response_503) 5.

(** A request for [http://example.com/] with two retries. *)
Definition request_with_retries : Request.t :=
  Request.mk "GET" (URL.mk "http" "example.com" 80 "/" "") ∅ [] 30000 false 10 true true
    2 1000 true.

(** A client whose pool holds one idle connection to [example.com:80], and
    a system in which that connection is alive and [send] fails. *)
Definition client_with_idle_connection : Impl.t :=
  Impl.mk (ConnectionPool.mk 200 90 {[ ("example.com", 80, false) := [Some O] ]})
    Statistics.make (mkMem [mkConn 5 None 0 false] []) O [].

Definition send_fails (n : nat) : Exchange :=
  mkExchange probe_alive 10 0 [] true (-1) (Ret Response.empty) 1.

(** What an attempt leaves untouched when it records no error and does not
    sleep. *)
Definition quiet (st st' : Impl.t) : Prop :=
  Impl.calls st' = Impl.calls st
  /\ Impl.slept st' = Impl.slept st
  /\ Statistics.error_counts_ (Impl.stats_ st') = Statistics.error_counts_ (Impl.stats_ st).

(** The ranges the specification asks for: segment [i] starts at
    [i * size]; the last segment runs to the end of the resource and every
    other one to the byte before the next segment. *)
Definition range_first (segment_size i : Z) : Z := i * segment_size.

Definition range_last (content_length num_pipes segment_size i : Z) : Z :=
  if i =? num_pipes - 1 then content_length - 1 else (i + 1) * segment_size - 1.

(** Every pointer the pool holds points into the object store. *)
Definition allocated (m : Mem) (conn : conn_ptr) : Prop :=
  match conn with
  | Some l => (l < length (heap m))%nat
  | None => True
  end.

Definition well_allocated (pm : ConnectionPool.t * Mem) : Prop :=
  forall key pool,
    ConnectionPool.pools_ pm.1 !! key = Some pool -> Forall (allocated pm.2) pool.

(** The value of a decimal numeral read from the left, as [strtol] reads. *)
Fixpoint digits_val (d : Decimal.uint) (acc : Z) : Z :=
  match d with
  | Decimal.Nil => acc
  | Decimal.D0 d' => digits_val d' (acc * 10 + 0)
  | Decimal.D1 d' => digits_val d' (acc * 10 + 1)
  | Decimal.D2 d' => digits_val d' (acc * 10 + 2)
  | Decimal.D3 d' => digits_val d' (acc * 10 + 3)
  | Decimal.D4 d' => digits_val d' (acc * 10 + 4)
  | Decimal.D5 d' => digits_val d' (acc * 10 + 5)
  | Decimal.D6 d' => digits_val d' (acc * 10 + 6)
  | Decimal.D7 d' => digits_val d' (acc * 10 + 7)
  | Decimal.D8 d' => digits_val d' (acc * 10 + 8)
  | Decimal.D9 d' => digits_val d' (acc * 10 + 9)
  end.

(** The two optional parts of the text [URL::to_string] builds. *)
Definition port_part (u : URL.t) : string :=
  if (String.eqb (URL.scheme u) "http" && negb (URL.port u =? 80))
     || (String.eqb (URL.scheme u) "https" && negb (URL.port u =? 443))
  then ":" +:+ int_to_string (URL.port u)
  else "".

Definition query_part (u : URL.t) : string :=
  if String.eqb (URL.query u) "" then "" else "?" +:+ URL.query u.

(** The shape of every URL that [URL::parse] returns. *)
Record parsed_shape (u : URL.t) : Prop := mkShape {
  host_no_colon : Str.mem ":" (URL.host u) = false;
  host_no_slash : Str.mem "/" (URL.host u) = false;
  host_no_mark : Str.mem "?" (URL.host u) = false;
  port_is_int : INT_MIN <= URL.port u <= INT_MAX;
  path_rooted : Str.starts_with "/" (URL.path u) = true
}.

(** The delay before retry number [k + 1]. *)
Definition backoff_delay (req : Request.t) (k : Z) : Z :=
  if Request.exponential_backoff req
  then Request.retry_delay req * 2 ^ k
  else Request.retry_delay req.

(** A dial attempt that ends with a connected socket. *)
Definition connects (a : DialAttempt) : bool :=
  (0 <=? sfd a) && (0 <? poll_ret a) && (so_error a =? 0).

(** The sockets [socket()] opened for a list of addresses. *)
Definition opened (addresses : list DialAttempt) : list Z :=
  List.filter (fun fd => 0 <=? fd) (List.map sfd addresses).

(** Systems for the failure paths: no address can be connected to ([poll]
    times out on the first socket, [socket] fails for the second address,
    the third connection is refused); the TLS handshake fails; the response
    cannot be parsed. *)
Definition unreachable (n : nat) : Exchange :=
  mkExchange probe_alive 0 0 [mkDial 3 0 0; mkDial (-1) 0 0; mkDial 4 1 111] true 1
    (Ret response_503) 7.

Definition handshake_fails (n : nat) : Exchange :=
  mkExchange probe_alive 0 0 [mkDial 3 1 0] false 1 (Ret response_503) 7.

Definition garbled (n : nat) : Exchange :=
  mkExchange probe_alive 0 0 [mkDial 3 1 0] true 1 (Throw invalid_argument) 7.

Definition request_https : Request.t :=
  Request.make (URL.mk "https" "example.com" 443 "/" "").

(** [o] gives the connection at [l] back to the pool. *)
Definition releases (l : loc) (o : ConnectionPool.op) : bool :=
  match o with
  | ConnectionPool.Release _ _ _ (Some l') => Nat.eqb l' l
  | _ => false
  end.

(** An entry of a vector that [acquire] passes over: a null pointer or a
    connection in use. *)
Definition busy (m : Mem) (conn : conn_ptr) : Prop :=
  match conn with
  | Some l => in_use (deref m l) = true
  | None => True
  end.

(** The connection at [l] is taken from the pool and given back, once for
    each clock reading. *)
Definition reuse (probe : Z -> Z * Z) (host : string) (port : Z) (use_tls : bool)
    (l : loc) (times : list Z) : list ConnectionPool.op :=
  flat_map (fun t => [ConnectionPool.Acquire probe t host port use_tls;
                      ConnectionPool.Release t host port (Some l)]) times.

(** The state after [n] rounds of reuse of the connection at [l]: the vector
    of [key] holds [n + 1] pointers to it, and it is idle and open. *)
Definition reused (key : string * Z * bool) (l : loc) (max idle fd : Z)
    (tl : option TLSConnection) (len : nat) (cl : list Z) (n : nat)
    (pm : ConnectionPool.t * Mem) : Prop :=
  ConnectionPool.max_connections_ pm.1 = max
  /\ ConnectionPool.idle_timeout_ pm.1 = idle
  /\ ConnectionPool.pools_ pm.1 = {[ key := replicate (S n) (Some l) ]}
  /\ closed pm.2 = cl
  /\ length (heap pm.2) = len
  /\ exists t, deref pm.2 l = mkConn fd tl t false.

(** The bytes [first], ..., [last] of a resource: what a server that honours
    [Range: bytes=first-last] sends with status 206. *)
Definition served_range (data : list Byte.byte) (first last : Z) : list Byte.byte :=
  take (Z.to_nat (last - first + 1)) (drop (Z.to_nat first) data).

(** Among its three tries worker [i] gets, first of all 206 responses, one
    whose body is [bytes]. *)
Definition eventually_206 (fetch : Z -> nat -> Request.t -> Response.t) (req : Request.t)
    (i : Z) (bytes : list Byte.byte) : Prop :=
  exists k, (k < 3)%nat
    /\ (forall j, (j < k)%nat -> Response.status_code (fetch i j req) <> 206)
    /\ Response.status_code (fetch i k req) = 206
    /\ Response.body (fetch i k req) = bytes.

(** A server that answers worker [i] of [num_pipes] with the bytes of its
    range, at once. *)
Definition serves (data : list Byte.byte) (num_pipes : Z) (i : Z) (k : nat)
    (req : Request.t) : Response.t :=
  let size := Z.of_nat (length data) / num_pipes in
  Response.mk 206 "Partial Content" ∅
    (served_range data (range_first size i)
       (range_last (Z.of_nat (length data)) num_pipes size i))
    0 false false false 0 0.

(** A server that honours the [Range] header it is sent, whichever worker
    sends it, the way RFC 7233 reads a byte range: [bytes=first-last] is
    answered with the bytes [first] to [last], or to the end of the resource
    when [last] lies beyond it, and [bytes=first-] with the bytes from
    [first] on; a range that starts
    beyond the resource is refused, and a request without the header gets
    the whole resource. *)
Definition range_server (data : list Byte.byte) (i : Z) (k : nat) (req : Request.t)
  : Response.t :=
  let size := Z.of_nat (length data) in
  match Request.headers req !! "Range" with
  | Some value =>
      let range := Str.drop 6 value in
      let first := stol_digits range 0 in
      let last :=
        match Str.find_at "-" range with
        | Some dash =>
            match Str.drop (dash + 1) range with
            | EmptyString => size - 1
            | text => Z.min (stol_digits text 0) (size - 1)
            end
        | None => size - 1
        end in
      if first <? size
      then Response.mk 206 "Partial Content" ∅ (served_range data first last)
             0 false false false 0 (last - first + 1)
      else Response.mk 416 "Range Not Satisfiable" ∅ [] 0 false false false 0 0
  | None => Response.mk 200 "OK" ∅ data 0 false false false 0 size
  end.

(** No entry of the cache holds an empty list of addresses. *)
Definition no_empty_entry (c : DNSCache.t) : Prop :=
  forall key e, DNSCache.cache_ c !! key = Some e -> DNSCache.addresses e <> [].

(** The calls a client of the cache makes. *)
Inductive dns_op : Type :=
| Resolve (host : string) (port : Z) (env : DNSCache.sys)
| Cleanup (now : Z)
| Clear.

Definition dns_step (o : dns_op) (c : DNSCache.t) : DNSCache.t :=
  match o with
  | Resolve host port env => (DNSCache.resolve host port env c).2
  | Cleanup now => DNSCache.cleanup now c
  | Clear => DNSCache.clear c
  end.

Definition dns_run (ops : list dns_op) (c : DNSCache.t) : DNSCache.t :=
  fold_left (fun c o => dns_step o c) ops c.

(** The number of [resolve] calls among [ops]. *)
Definition resolutions (ops : list dns_op) : nat :=
  length (List.filter (fun o => match o with Resolve _ _ _ => true | _ => false end) ops).

(** Rates that are ratios of integers, for the cases in which the
    floating-point quotient [1'000'000'000.0 / r] is exact; the casts
    truncate. *)
#[export] Instance ratio_rate : Double Q := {|
  le_zero q := Qnum q <=? 0;
  gt_zero q := 0 <? Qnum q;
  to_size_t q := Z.to_N (Z.quot (Qnum q) (Z.pos (Qden q)));
  nanos_per_request q := Z.quot (1000000000 * Z.pos (Qden q)) (Qnum q)
|}.

Section Grants.
Context {double : Type} `{Double double}.

(** One operation of the limiter, with the answer it gives its caller:
    whether a token was handed out. *)
Definition grant (o : RateLimiter.op double) (l : RateLimiter.t double)
  : option (bool * RateLimiter.t double) :=
  match o with
  | RateLimiter.Refill now => option_map (pair false) (RateLimiter.refill now l)
  | RateLimiter.Acquire clock => RateLimiter.acquire clock l
  | RateLimiter.TryAcquire now => RateLimiter.try_acquire now l
  | RateLimiter.SetRate r b now => Some (false, RateLimiter.set_rate r b now l)
  end.

(** The number of tokens a sequence of operations hands out. *)
Fixpoint granted (ops : list (RateLimiter.op double)) (l : RateLimiter.t double)
  : option (nat * RateLimiter.t double) :=
  match ops with
  | [] => Some (O, l)
  | o :: ops' =>
      match grant o l with
      | None => None
      | Some (b, l') =>
          match granted ops' l' with
          | None => None
          | Some (n, l'') => Some ((if b then S n else n), l'')
          end
      end
  end.

(** The clock readings a sequence of operations is given. *)
Definition readings (ops : list (RateLimiter.op double)) : list Z :=
  flat_map (fun o => match o with
                     | RateLimiter.Refill now => [now]
                     | RateLimiter.Acquire clock => clock
                     | RateLimiter.TryAcquire now => [now]
                     | RateLimiter.SetRate _ _ now => [now]
                     end) ops.

Definition keeps_rate (o : RateLimiter.op double) : bool :=
  match o with
  | RateLimiter.SetRate _ _ _ => false
  | _ => true
  end.

(** The budget of a limiter started at [t0] with interval [i]: the tokens
    handed out and the tokens in the bucket are paid for by the time that
    passed up to the last refill. *)
Definition in_budget (t0 T i : Z) (g : nat) (l : RateLimiter.t double) : Prop :=
  le_zero (RateLimiter.rate_ l) = false
  /\ RateLimiter.interval_ l = Some i
  /\ Z.of_nat (g + length (RateLimiter.tokens_ l)) * i <= RateLimiter.last_refill_ l - t0
  /\ RateLimiter.last_refill_ l <= T.

(** A limiter that never fills its bucket: the rate is positive, the burst
    is zero, and the bucket is empty. *)
Definition starved (l : RateLimiter.t double) : Prop :=
  le_zero (RateLimiter.rate_ l) = false
  /\ RateLimiter.burst_ l = 0%N
  /\ RateLimiter.tokens_ l = []
  /\ exists i, RateLimiter.interval_ l = Some i /\ i <> 0.

End Grants.

(** No character of [s] is a digit. *)
Fixpoint no_digit (s : string) : bool :=
  match s with
  | EmptyString => true
  | String c s' =>
      match digit_of c with
      | Some _ => false
      | None => no_digit s'
      end
  end.

(** Every character of [s] is a space or a tab. *)
Fixpoint all_blank (s : string) : bool :=
  match s with
  | EmptyString => true
  | String c s' => Str.mem c Main.blanks && all_blank s'
  end.

(* ===== Properties ===== *)

(** * Properties *)

(** ** Strings *)

Module StrFacts.
Import Str.

Lemma app_cons (x : ascii) (a b : string) : String x a +:+ b = String x (a +:+ b).
Proof. reflexivity. Qed.

Lemma app_nil_l (b : string) : "" +:+ b = b.
Proof. reflexivity. Qed.

Ltac app_step := rewrite ?app_cons, ?app_nil_l.

Lemma length_app (a b : string) :
  String.length (a +:+ b) = (String.length a + String.length b)%nat.
Proof.
  induction a as [|c a IH]; app_step; simpl; [reflexivity | now rewrite IH].
Qed.

Lemma app_assoc (a b c : string) : (a +:+ b) +:+ c = a +:+ (b +:+ c).
Proof.
  induction a as [|x a IH]; app_step; [reflexivity | now rewrite IH].
Qed.

Lemma app_empty_r (a : string) : a +:+ "" = a.
Proof.
  induction a as [|x a IH]; app_step; [reflexivity | now rewrite IH].
Qed.

Lemma drop_0 (s : string) : drop 0 s = s.
Proof. now destruct s. Qed.

Lemma drop_app_length (a b : string) : drop (String.length a) (a +:+ b) = b.
Proof.
  induction a as [|x a IH]; app_step; simpl; [apply drop_0 | exact IH].
Qed.

Lemma take_app_length (a b : string) : take (String.length a) (a +:+ b) = a.
Proof.
  induction a as [|x a IH]; app_step; simpl; [now destruct b | now rewrite IH].
Qed.

Lemma take_length (a : string) : take (String.length a) a = a.
Proof. induction a as [|x a IH]; simpl; [reflexivity | now rewrite IH]. Qed.

Lemma drop_drop (n k : nat) (s : string) : drop n (drop k s) = drop (k + n) s.
Proof.
  revert s; induction k as [|k IH]; intros s; simpl.
  - reflexivity.
  - destruct s as [|c s]; [now destruct n | apply IH].
Qed.

Lemma take_drop (n : nat) (s : string) : take n s +:+ drop n s = s.
Proof.
  revert s; induction n as [|n IH]; intros [|c s]; simpl; app_step; try reflexivity.
  now rewrite IH.
Qed.

Lemma length_drop (n : nat) (s : string) :
  String.length (drop n s) = (String.length s - n)%nat.
Proof.
  revert s; induction n as [|n IH]; intros [|c s]; simpl; try reflexivity.
  apply IH.
Qed.

Lemma length_take (n : nat) (s : string) :
  String.length (take n s) = Nat.min n (String.length s).
Proof.
  revert s; induction n as [|n IH]; intros [|c s]; simpl; try reflexivity.
  now rewrite IH.
Qed.

Lemma mem_app (c : ascii) (a b : string) : mem c (a +:+ b) = mem c a || mem c b.
Proof.
  induction a as [|x a IH]; app_step; simpl; [reflexivity |].
  destruct (Ascii.eqb c x); [reflexivity | exact IH].
Qed.

Lemma mem_take (c : ascii) (n : nat) (s : string) :
  mem c s = false -> mem c (take n s) = false.
Proof.
  revert s; induction n as [|n IH]; intros [|x s]; simpl; try reflexivity.
  destruct (Ascii.eqb c x); [discriminate | apply IH].
Qed.

(** The search for one character. *)

Lemma find_at_char_cons (c d : ascii) (s : string) :
  find_at (String c "") (String d s)
  = if Ascii.eqb c d then Some O else option_map S (find_at (String c "") s).
Proof. simpl. now destruct (Ascii.eqb c d). Qed.

Lemma find_at_char_nil (c : ascii) : find_at (String c "") "" = None.
Proof. reflexivity. Qed.

Lemma find_at_char_app (c : ascii) (a b : string) :
  mem c a = false ->
  find_at (String c "") (a +:+ b)
  = option_map (fun i => (String.length a + i)%nat) (find_at (String c "") b).
Proof.
  induction a as [|x a IH]; intros Hm.
  - app_step. simpl. now destruct (find_at (String c "") b).
  - cbn [mem] in Hm. app_step. rewrite find_at_char_cons.
    destruct (Ascii.eqb c x); [discriminate |].
    rewrite (IH Hm). now destruct (find_at (String c "") b).
Qed.

Lemma find_at_char_absent (c : ascii) (a : string) :
  mem c a = false -> find_at (String c "") a = None.
Proof.
  intros Hm. rewrite <- (app_empty_r a). now rewrite find_at_char_app.
Qed.

(** Before the position [find_at] returns the character does not occur, and
    it stands at that position. *)
Lemma find_at_char_some (c : ascii) (s : string) (i : nat) :
  find_at (String c "") s = Some i ->
  mem c (take i s) = false /\ drop i s = String c (drop (S i) s).
Proof.
  revert i; induction s as [|x s IH]; intros i.
  - discriminate.
  - rewrite find_at_char_cons. destruct (Ascii.eqb c x) eqn:E.
    + intros [= <-]. apply Ascii.eqb_eq in E. subst x. now split.
    + destruct (find_at (String c "") s) as [j|]; [|discriminate].
      intros [= <-]. destruct (IH j eq_refl) as [H1 H2]. split.
      * simpl. now rewrite E.
      * exact H2.
Qed.

Lemma find_at_char_none (c : ascii) (s : string) :
  find_at (String c "") s = None -> mem c s = false.
Proof.
  induction s as [|x s IH]; [reflexivity |].
  rewrite find_at_char_cons. simpl. destruct (Ascii.eqb c x); [discriminate |].
  destruct (find_at (String c "") s); [discriminate | auto].
Qed.

Lemma find_at_le (p s : string) (i : nat) :
  find_at p s = Some i -> (i + String.length p <= String.length s)%nat.
Proof.
  assert (Hsw : forall q t, starts_with q t = true ->
                            (String.length q <= String.length t)%nat).
  { induction q as [|a q IHq]; intros [|b t]; simpl; try lia; try discriminate.
    destruct (Ascii.eqb a b); [|discriminate]. intros Hq. apply IHq in Hq. lia. }
  revert i; induction s as [|x s IH]; intros i; simpl.
  - destruct (starts_with p "") eqn:E; [|discriminate].
    intros [= <-]. apply Hsw in E. simpl in *. lia.
  - destruct (starts_with p (String x s)) eqn:E.
    + intros [= <-]. apply Hsw in E. simpl in *. lia.
    + destruct (find_at p s) as [j|]; [|discriminate].
      intros [= <-]. specialize (IH j eq_refl). lia.
Qed.

(** [find] from a position is [find_at] on what follows the position. *)
Lemma find_from (s p : string) (pos : nat) :
  (pos <= String.length s)%nat ->
  find s p pos = option_map (fun i => (pos + i)%nat) (find_at p (drop pos s)).
Proof.
  intros Hle. unfold find. destruct (Nat.leb_spec pos (String.length s)); [reflexivity | lia].
Qed.

Lemma find_0 (s p : string) : find s p 0 = find_at p s.
Proof.
  rewrite find_from by lia. rewrite drop_0. now destruct (find_at p s).
Qed.

End StrFacts.

(** ** Decimal numerals: [std::stoi] reads back what [std::to_string] wrote *)

Module NumFacts.

Lemma stol_digits_uint (d : Decimal.uint) (acc : Z) :
  stol_digits (NilEmpty.string_of_uint d) acc = digits_val d acc.
Proof.
  revert acc; induction d; intros acc; simpl; try reflexivity; apply IHd.
Qed.

Lemma digits_val_acc (d : Decimal.uint) (acc : positive) :
  Z.pos (Pos.of_uint_acc d acc) = digits_val d (Z.pos acc).
Proof.
  revert acc; induction d; intros acc; simpl; try reflexivity;
    rewrite IHd; f_equal; lia.
Qed.

Lemma digits_val_of_uint (d : Decimal.uint) : digits_val d 0 = Z.of_N (Pos.of_uint d).
Proof.
  induction d; simpl; try reflexivity; try exact IHd;
    rewrite digits_val_acc; reflexivity.
Qed.

Lemma digits_val_to_uint (p : positive) : digits_val (Pos.to_uint p) 0 = Z.pos p.
Proof.
  rewrite digits_val_of_uint, DecimalPos.Unsigned.of_to. reflexivity.
Qed.

(** A numeral that is not empty starts with a digit, so [stoi] reads it
    whole, and reads it whole after a minus sign. *)
Lemma stoi_uint (d : Decimal.uint) :
  d <> Decimal.Nil ->
  stoi (NilEmpty.string_of_uint d)
  = (if (INT_MIN <=? digits_val d 0) && (digits_val d 0 <=? INT_MAX)
     then Ret (digits_val d 0) else Throw out_of_range)
  /\ stoi (String "-" (NilEmpty.string_of_uint d))
  = (if (INT_MIN <=? - digits_val d 0) && (- digits_val d 0 <=? INT_MAX)
     then Ret (- digits_val d 0) else Throw out_of_range).
Proof.
  intros Hd. destruct d; try congruence; clear Hd;
    unfold stoi; cbn [NilEmpty.string_of_uint skip_spaces isspace];
    cbn -[stol_digits digits_val INT_MIN INT_MAX Z.leb];
    rewrite <- !stol_digits_uint; split; reflexivity.
Qed.

Lemma stoi_to_string (n : Z) :
  INT_MIN <= n <= INT_MAX -> stoi (int_to_string n) = Ret n.
Proof.
  intros Hn. unfold int_to_string. destruct n as [|p|p]; [reflexivity | |].
  - cbn [Z.to_int NilZero.string_of_int].
    assert (Hnn := DecimalPos.Unsigned.to_uint_nonnil p).
    unfold NilZero.string_of_uint.
    destruct (Pos.to_uint p) eqn:E; try congruence;
      rewrite <- E in *; (destruct (stoi_uint _ Hnn) as [-> _]);
      rewrite digits_val_to_uint;
      (destruct (Z.leb_spec INT_MIN (Z.pos p)); [|lia]);
      (destruct (Z.leb_spec (Z.pos p) INT_MAX); [|lia]); reflexivity.
  - cbn [Z.to_int NilZero.string_of_int].
    assert (Hnn := DecimalPos.Unsigned.to_uint_nonnil p).
    unfold NilZero.string_of_uint.
    destruct (Pos.to_uint p) eqn:E; try congruence;
      rewrite <- E in *; (destruct (stoi_uint _ Hnn) as [_ ->]);
      rewrite digits_val_to_uint;
      change (- Z.pos p) with (Z.neg p);
      (destruct (Z.leb_spec INT_MIN (Z.neg p)); [|lia]);
      (destruct (Z.leb_spec (Z.neg p) INT_MAX); [|lia]); reflexivity.
Qed.

End NumFacts.

(** ** URL parsing *)

Module URLFacts.
Import Str StrFacts.

Lemma mem_uint (c : ascii) (d : Decimal.uint) :
  digit_of c = None -> mem c (NilEmpty.string_of_uint d) = false.
Proof.
  intros Hc. induction d; simpl; try reflexivity;
    match goal with
    | |- (if Ascii.eqb c ?k then _ else _) = _ =>
        destruct (Ascii.eqb_spec c k) as [->|_]; [discriminate Hc | exact IHd]
    end.
Qed.

Lemma mem_int_to_string (c : ascii) (n : Z) :
  digit_of c = None -> Ascii.eqb c "-" = false -> mem c (int_to_string n) = false.
Proof.
  intros Hc Hm. unfold int_to_string.
  assert (H0 : mem c "0" = false).
  { simpl. destruct (Ascii.eqb_spec c "0") as [->|_]; [discriminate Hc | reflexivity]. }
  assert (Hu : forall d, mem c (NilZero.string_of_uint d) = false).
  { intros d. unfold NilZero.string_of_uint.
    destruct d; try exact H0; apply (mem_uint c _ Hc). }
  destruct n as [|p|p]; cbn [Z.to_int NilZero.string_of_int].
  - apply Hu.
  - apply Hu.
  - cbn [mem]. rewrite Hm. apply Hu.
Qed.

(** [URL::parse] looks for the scheme and goes on with what follows it. *)
Lemma parse_split (url : string) (n : nat) :
  find_at "://" url = Some n ->
  URL.parse url = after_scheme (map tolower (take n url)) (drop (n + 3) url).
Proof.
  intros Hn. pose proof (find_at_le _ _ _ Hn) as Hle. cbn [String.length] in Hle.
  unfold URL.parse, find_char. rewrite find_0, Hn. cbv zeta.
  rewrite !find_0. rewrite !find_from by lia.
  unfold after_scheme, substr, substr_from. rewrite drop_0.
  set (r := drop (n + 3) url).
  assert (Hr : String.length r = (String.length url - (n + 3))%nat)
    by apply length_drop.
  assert (Hd : forall k, drop (n + 3 + k) url = drop k r)
    by (intros k; unfold r; now rewrite drop_drop).
  destruct (find_at "/" r) as [ps|]; destruct (find_at "?" r) as [qs|];
    cbn [option_map min_pos].
  - replace (Nat.min (n + 3 + ps) (n + 3 + qs) - (n + 3))%nat with (Nat.min ps qs) by lia.
    replace (n + 3 + qs - (n + 3 + ps))%nat with (qs - ps)%nat by lia.
    replace (n + 3 + qs + 1)%nat with (n + 3 + (qs + 1))%nat by lia.
    rewrite !Hd.
    destruct (Nat.ltb_spec (n + 3 + ps) (n + 3 + qs)); destruct (Nat.ltb_spec ps qs);
      try lia; reflexivity.
  - replace (n + 3 + ps - (n + 3))%nat with ps by lia. rewrite !Hd. reflexivity.
  - replace (n + 3 + qs - (n + 3))%nat with qs by lia.
    replace (n + 3 + qs + 1)%nat with (n + 3 + (qs + 1))%nat by lia.
    rewrite !Hd. reflexivity.
  - rewrite Hr. reflexivity.
Qed.

Lemma mem_take_le (c : ascii) (i j : nat) (s : string) :
  mem c (take i s) = false -> (j <= i)%nat -> mem c (take j s) = false.
Proof.
  revert i j; induction s as [|x s IH]; intros i j Hi Hj.
  - now destruct j.
  - destruct j as [|j]; [reflexivity |]. destruct i as [|i]; [lia |].
    simpl in *. destruct (Ascii.eqb c x); [discriminate |].
    apply (IH i); [exact Hi | lia].
Qed.

Lemma stoi_range (s : string) (p : Z) : stoi s = Ret p -> INT_MIN <= p <= INT_MAX.
Proof.
  unfold stoi. generalize (skip_spaces s). intros s1.
  destruct (match s1 with
            | String "-" r => (true, r)
            | String "+" r => (false, r)
            | _ => (false, s1)
            end) as [neg s2].
  destruct s2 as [|c s2]; [discriminate |].
  destruct (digit_of c); [|discriminate].
  set (v := if neg then _ else _).
  destruct (Z.leb_spec INT_MIN v); [|discriminate].
  destruct (Z.leb_spec v INT_MAX); [|discriminate].
  intros [= <-]. lia.
Qed.

(** What follows the scheme is parsed into a URL of the expected shape. *)
Lemma after_scheme_shape (sch r : string) (u : URL.t) :
  after_scheme sch r = Ret (Some u) -> parsed_shape u /\ URL.scheme u = sch.
Proof.
  unfold after_scheme.
  set (ps := find_at "/" r). set (qs := find_at "?" r).
  set (host_end := match min_pos ps qs with None => String.length r | Some e => e end).
  set (hp := take host_end r).
  assert (Hslash : mem "/" hp = false).
  { unfold hp, host_end. destruct ps as [i|] eqn:Ei.
    - destruct (find_at_char_some _ _ _ Ei) as [Hm _].
      apply (mem_take_le _ i); [exact Hm |].
      destruct qs; cbn [min_pos]; lia.
    - apply mem_take. now apply find_at_char_none. }
  assert (Hmark : mem "?" hp = false).
  { unfold hp, host_end. destruct qs as [i|] eqn:Ei.
    - destruct (find_at_char_some _ _ _ Ei) as [Hm _].
      apply (mem_take_le _ i); [exact Hm |].
      destruct ps; cbn [min_pos]; lia.
    - apply mem_take. now apply find_at_char_none. }
  assert (Hpath : forall i, ps = Some i -> drop i r = String "/" (drop (S i) r)).
  { intros i Ei. now destruct (find_at_char_some _ _ _ Ei). }
  assert (Hrooted :
    starts_with "/"
      (match ps with
       | Some ps0 =>
           match qs with
           | Some qs0 =>
               if (ps0 <? qs0)%nat
               then (take (qs0 - ps0) (drop ps0 r), drop (qs0 + 1) r)
               else (drop ps0 r, "")
           | None => (drop ps0 r, "")
           end
       | None => ("/", match qs with Some qs0 => drop (qs0 + 1) r | None => "" end)
       end).1 = true).
  { destruct ps as [i|]; [|reflexivity].
    specialize (Hpath i eq_refl).
    destruct qs as [j|]; [|now rewrite Hpath].
    destruct (Nat.ltb_spec i j); [|now rewrite Hpath].
    rewrite Hpath. destruct (j - i)%nat eqn:E; [lia | reflexivity]. }
  destruct (find_at ":" hp) as [d|] eqn:Ed.
  - destruct (stoi (drop (d + 1) hp)) as [p|e] eqn:Ep; [|discriminate].
    cbn [obind fst snd]. intros [= <-]. split; [|reflexivity].
    destruct (find_at_char_some _ _ _ Ed) as [Hc _].
    constructor; cbn [URL.host URL.port URL.path].
    + exact Hc.
    + now apply mem_take.
    + now apply mem_take.
    + now apply (stoi_range _ _ Ep).
    + exact Hrooted.
  - cbn [obind fst snd]. intros [= <-]. split; [|reflexivity].
    constructor; cbn [URL.host URL.port URL.path].
    + now apply find_at_char_none.
    + exact Hslash.
    + exact Hmark.
    + destruct (String.eqb sch "https"); unfold INT_MIN, INT_MAX; lia.
    + exact Hrooted.
Qed.

Lemma parse_shape (s : string) (u : URL.t) :
  URL.parse s = Ret (Some u) -> parsed_shape u.
Proof.
  intros Hp. destruct (find_at "://" s) as [n|] eqn:En.
  - rewrite (parse_split _ _ En) in Hp. now apply after_scheme_shape in Hp.
  - unfold URL.parse in Hp. rewrite find_0, En in Hp. discriminate.
Qed.

Lemma to_string_parts (u : URL.t) :
  URL.to_string u
  = URL.scheme u +:+ "://" +:+ (URL.host u +:+ port_part u +:+ URL.path u +:+ query_part u).
Proof.
  unfold URL.to_string, port_part, query_part.
  destruct (_ || _); destruct (String.eqb (URL.query u) "");
    rewrite ?app_assoc, ?app_empty_r, ?app_nil_l; reflexivity.
Qed.

Lemma starts_with_slash (s : string) :
  starts_with "/" s = true -> exists s', s = String "/" s'.
Proof.
  destruct s as [|c s]; [discriminate |]. cbn [starts_with].
  destruct (Ascii.eqb_spec "/" c) as [<-|]; [eauto | discriminate].
Qed.

Lemma drop_app_plus (a b : string) (n : nat) :
  drop (String.length a + n) (a +:+ b) = drop n b.
Proof. rewrite <- drop_drop. now rewrite drop_app_length. Qed.

Lemma find_slash_rooted (path qq : string) :
  starts_with "/" path = true -> find_at "/" (path +:+ qq) = Some O.
Proof.
  intros H. apply starts_with_slash in H as [p' ->].
  rewrite app_cons, find_at_char_cons. reflexivity.
Qed.

Lemma length_rooted (path : string) :
  starts_with "/" path = true -> (1 <= String.length path)%nat.
Proof. intros H. apply starts_with_slash in H as [p' ->]. simpl. lia. Qed.

Lemma after_scheme_to_string (u : URL.t) :
  parsed_shape u ->
  URL.scheme u = "http" \/ URL.scheme u = "https" ->
  mem "?" (URL.path u) = false ->
  after_scheme (URL.scheme u)
    (URL.host u +:+ port_part u +:+ URL.path u +:+ query_part u)
  = Ret (Some u).
Proof.
  intros [Hc Hs Hm Hp Hr] Hsch Hq. destruct u as [sch host port path query].
  cbn [URL.scheme URL.host URL.port URL.path URL.query] in *.
  set (pp := port_part _). set (qq := query_part _).
  assert (Hpp : (pp = "" /\ port = (if String.eqb sch "https" then 443 else 80))
                \/ pp = ":" +:+ int_to_string port).
  { unfold pp, port_part. cbn [URL.scheme URL.port].
    destruct Hsch as [-> | ->]; cbn.
    - destruct (Z.eqb_spec port 80); cbn; [left | right]; auto.
    - destruct (Z.eqb_spec port 443); cbn; [left | right]; auto. }
  assert (Hqq : (qq = "" /\ query = "") \/ (qq = "?" +:+ query)).
  { unfold qq, query_part. cbn [URL.query].
    destruct (String.eqb_spec query ""); [left | right]; auto. }
  clearbody pp qq.
  assert (Hpps : mem "/" pp = false /\ mem "?" pp = false).
  { destruct Hpp as [[-> _] | ->]; [now split |].
    rewrite app_cons, app_nil_l. cbn [mem].
    rewrite !mem_int_to_string by reflexivity. now split. }
  destruct Hpps as [Hpps Hppm].
  rewrite <- (app_assoc host pp).
  set (hp := host +:+ pp).
  assert (Hhs : mem "/" hp = false) by (unfold hp; rewrite mem_app, Hs, Hpps; reflexivity).
  assert (Hhm : mem "?" hp = false) by (unfold hp; rewrite mem_app, Hm, Hppm; reflexivity).
  pose proof (length_rooted _ Hr) as Hlen.
  assert (Hps : find_at "/" (hp +:+ path +:+ qq) = Some (String.length hp)).
  { rewrite find_at_char_app by exact Hhs. rewrite find_slash_rooted by exact Hr.
    cbn [option_map]. f_equal. lia. }
  assert (Hport :
    (let! hp0 := match find_at ":" hp with
                 | Some port_delim =>
                     let! p := stoi (drop (port_delim + 1) hp) in
                     Ret (take port_delim hp, p)
                 | None => Ret (hp, if String.eqb sch "https" then 443 else 80)
                 end in Ret hp0) = Ret (host, port)).
  { unfold hp. rewrite find_at_char_app by exact Hc.
    destruct Hpp as [[-> ->] | ->].
    - cbn [find_at starts_with option_map obind]. now rewrite app_empty_r.
    - rewrite app_cons, app_nil_l, find_at_char_cons.
      cbn [Ascii.eqb Bool.eqb option_map].
      replace (String.length host + 0 + 1)%nat with (String.length host + 1)%nat by lia.
      rewrite drop_app_plus. cbn [drop].
      rewrite NumFacts.stoi_to_string by exact Hp. cbn [obind].
      rewrite Nat.add_0_r, take_app_length. reflexivity. }
  assert (Hfin : forall M : outcome (string * Z),
            (let! hp0 := M in Ret hp0) = Ret (host, port) ->
            (let! hp0 := M in
             Ret (Some (URL.mk sch (fst hp0) (snd hp0) path query)))
            = Ret (Some (URL.mk sch host port path query))).
  { intros [[h p]|e]; cbn [obind fst snd]; [|discriminate]. now intros [= -> ->]. }
  unfold after_scheme. rewrite Hps.
  destruct Hqq as [[-> ->] | ->].
  - assert (Hqs : find_at "?" (hp +:+ path +:+ "") = None).
    { apply find_at_char_absent. rewrite !mem_app, Hhm, Hq. reflexivity. }
    rewrite Hqs. cbn [min_pos fst snd]. rewrite take_app_length.
    replace (drop (String.length hp) (hp +:+ path +:+ "")) with path.
    + apply Hfin, Hport.
    + replace (String.length hp) with (String.length hp + 0)%nat by lia.
      now rewrite drop_app_plus, drop_0, app_empty_r.
  - assert (Hqs : find_at "?" (hp +:+ path +:+ "?" +:+ query)
                  = Some (String.length hp + String.length path)%nat).
    { rewrite find_at_char_app by exact Hhm. rewrite find_at_char_app by exact Hq.
      rewrite app_cons, find_at_char_cons. cbn [Ascii.eqb Bool.eqb option_map].
      f_equal. lia. }
    rewrite Hqs. cbn [min_pos]. rewrite Nat.min_l by lia. rewrite take_app_length.
    destruct (Nat.ltb_spec (String.length hp) (String.length hp + String.length path));
      [|lia].
    cbn [fst snd].
    replace (take (String.length hp + String.length path - String.length hp)
               (drop (String.length hp) (hp +:+ path +:+ "?" +:+ query))) with path.
    + replace (drop (String.length hp + String.length path + 1)
                 (hp +:+ path +:+ "?" +:+ query)) with query.
      * apply Hfin, Hport.
      * replace (String.length hp + String.length path + 1)%nat
          with (String.length hp + (String.length path + 1))%nat by lia.
        rewrite !drop_app_plus. now rewrite app_cons, app_nil_l.
    + replace (String.length hp + String.length path - String.length hp)%nat
        with (String.length path) by lia.
      replace (String.length hp) with (String.length hp + 0)%nat by lia.
      now rewrite drop_app_plus, drop_0, take_app_length.
Qed.

(** An occurrence of the pattern is found, and what is found is an
    occurrence. *)
Lemma starts_with_app (p b : string) : starts_with p (p +:+ b) = true.
Proof.
  induction p as [|x p IH]; app_step; cbn [starts_with]; [now destruct b |].
  now rewrite Ascii.eqb_refl.
Qed.

Lemma starts_with_split (p s : string) :
  starts_with p s = true -> s = p +:+ drop (String.length p) s.
Proof.
  revert s; induction p as [|x p IH]; intros s H.
  - now rewrite app_nil_l, drop_0.
  - destruct s as [|y s]; [discriminate |]. cbn [starts_with] in H.
    destruct (Ascii.eqb_spec x y) as [<-|]; [|discriminate].
    rewrite app_cons. cbn [String.length drop]. f_equal. now apply IH.
Qed.

Lemma find_at_occurs (p a b : string) : find_at p (a +:+ p +:+ b) <> None.
Proof.
  induction a as [|x a IH]; app_step.
  - destruct (p +:+ b) eqn:E; cbn [find_at]; rewrite <- E, starts_with_app; discriminate.
  - cbn [find_at]. destruct (starts_with p _); [discriminate |].
    destruct (find_at p (a +:+ p +:+ b)); [discriminate | contradiction].
Qed.

Lemma find_at_split (p s : string) (n : nat) :
  find_at p s = Some n -> s = take n s +:+ p +:+ drop (n + String.length p) s.
Proof.
  revert n; induction s as [|x s IH]; intros n; cbn [find_at].
  - destruct (starts_with p "") eqn:E; [|discriminate]. intros [= <-].
    apply starts_with_split in E. rewrite app_nil_l. exact E.
  - destruct (starts_with p (String x s)) eqn:E.
    + intros [= <-]. apply starts_with_split in E. rewrite app_nil_l. exact E.
    + destruct (find_at p s) as [j|] eqn:Ej; [|discriminate]. intros [= <-].
      cbn [take drop Nat.add]. rewrite app_cons. f_equal. now apply IH.
Qed.

Lemma parse_absent_iff (s : string) : URL.parse s = Ret None <-> ~ has_separator s.
Proof.
  split.
  - intros Hp [a [b ->]]. pose proof (find_at_occurs "://" a b) as Hf.
    destruct (find_at "://" (a +:+ "://" +:+ b)) as [n|] eqn:En; [|contradiction].
    rewrite (parse_split _ _ En) in Hp. unfold after_scheme in Hp.
    destruct (match find_at ":" _ with Some _ => _ | None => _ end);
      cbn [obind] in Hp; discriminate.
  - intros Hn. unfold URL.parse. rewrite find_0.
    destruct (find_at "://" s) as [n|] eqn:En; [|reflexivity].
    exfalso. apply Hn. apply find_at_split in En. unfold has_separator. eauto.
Qed.

End URLFacts.

(** C4. [URL::parse] calls [std::stoi] on the text after the colon and
    does not catch what it throws: a port that is not a number raises
    [std::invalid_argument], a port that does not fit an [int] raises
    [std::out_of_range], and the exception leaves [URL::parse]. *)
Theorem parse_throws_on_bad_port :
  URL.parse "http://example.com:abc/" = Throw invalid_argument
  /\ URL.parse "http://example.com:99999999999/" = Throw out_of_range.
Proof. split; reflexivity. Qed.

(** The other half of C4 holds: without ["://"] the result is absent, for
    every input. *)
Lemma parse_absent_without_separator (s : string) :
  ~ has_separator s -> URL.parse s = Ret None.
Proof. apply URLFacts.parse_absent_iff. Qed.

(** C5, as stated, fails: [to_string] prints a port for the schemes http
    and https only, so the port of another scheme is lost. *)
Lemma roundtrip_loses_port :
  exists u : URL.t,
    URL.parse "ftp://h:21/" = Ret (Some u)
    /\ URL.parse (URL.to_string u) <> Ret (Some u).
Proof.
  exists (URL.mk "ftp" "h" 21 "/" ""). split; [reflexivity |].
  vm_compute. discriminate.
Qed.

(** The other way to lose the round trip: a ['?'] before the first ['/']
    makes the rest of the text the path, question marks included. *)
Lemma roundtrip_splits_path :
  URL.parse "http://h?a/b?c" = Ret (Some (URL.mk "http" "h" 80 "/b?c" ""))
  /\ URL.parse (URL.to_string (URL.mk "http" "h" 80 "/b?c" ""))
     = Ret (Some (URL.mk "http" "h" 80 "/b" "c")).
Proof. split; reflexivity. Qed.

(** The first scenario of the specification. *)
Example parse_example :
  URL.parse "http://example/abc?q=1" = Ret (Some (URL.mk "http" "example" 80 "/abc" "q=1"))
  /\ URL.to_string (URL.mk "http" "example" 80 "/abc" "q=1") = "http://example/abc?q=1".
Proof. split; reflexivity. Qed.

(** C5, amended: for a parsed URL of scheme http or https whose path holds
    no question mark, parsing the text [to_string] builds gives the same URL
    again. *)
Theorem parse_to_string_roundtrip (s : string) (u : URL.t) :
  URL.parse s = Ret (Some u) ->
  URL.scheme u = "http" \/ URL.scheme u = "https" ->
  Str.mem "?" (URL.path u) = false ->
  URL.parse (URL.to_string u) = Ret (Some u).
Proof.
  intros Hp Hsch Hq. pose proof (URLFacts.parse_shape _ _ Hp) as Hshape.
  pose proof (URLFacts.after_scheme_to_string u Hshape Hsch Hq) as Hafter.
  rewrite URLFacts.to_string_parts.
  set (r := URL.host u +:+ port_part u +:+ URL.path u +:+ query_part u) in *.
  clearbody r. destruct Hsch as [E | E]; rewrite E in Hafter |- *.
  - rewrite (URLFacts.parse_split _ 4) by reflexivity. exact Hafter.
  - rewrite (URLFacts.parse_split _ 5) by reflexivity. exact Hafter.
Qed.

Lemma parse_to_string_roundtrip_witness :
  URL.parse (URL.to_string (URL.mk "http" "example" 8080 "/abc" "q=1"))
  = Ret (Some (URL.mk "http" "example" 8080 "/abc" "q=1")).
Proof.
  apply (parse_to_string_roundtrip "http://example:8080/abc?q=1");
    [reflexivity | left; reflexivity | reflexivity].
Defined.

(** ** Rate limiter *)

Module RateLimiterFacts.
Import RateLimiter.
Section Limiter.
Context {double : Type} `{Double double}.

Lemma refill_loop_within (burst : N) (now : Z) (n : nat) (tokens : list Z) :
  (N.of_nat (length tokens) <= burst)%N ->
  (N.of_nat (length (refill_loop burst now n tokens)) <= burst)%N.
Proof.
  revert tokens; induction n as [|n IH]; intros tokens Hle; cbn [refill_loop].
  - exact Hle.
  - destruct (N.ltb_spec (N.of_nat (length tokens)) burst) as [Hlt | _]; [|exact Hle].
    apply IH. rewrite length_app. cbn [length]. lia.
Qed.

Lemma refill_within (now : Z) (l l' : t double) :
  within_burst l -> refill now l = Some l' -> within_burst l'.
Proof.
  unfold within_burst, refill. intros Hw.
  destruct (le_zero (rate_ l)); [now intros [= <-] |].
  destruct (interval_ l) as [i|]; [|discriminate].
  destruct (i =? 0); [discriminate |].
  destruct (0 <? _); intros [= <-]; [|exact Hw].
  cbn [tokens_ burst_]. now apply refill_loop_within.
Qed.

Lemma pop_front_within (l : t double) : within_burst l -> within_burst (pop_front l).
Proof.
  unfold within_burst, pop_front. cbn [tokens_ burst_].
  destruct (tokens_ l); cbn [tail length]; lia.
Qed.

Lemma try_acquire_within (now : Z) (l l' : t double) (b : bool) :
  within_burst l -> try_acquire now l = Some (b, l') -> within_burst l'.
Proof.
  unfold try_acquire. intros Hw.
  destruct (le_zero (rate_ l)); [now intros [= _ <-] |].
  destruct (refill now l) as [l1|] eqn:E; [|discriminate].
  pose proof (refill_within _ _ _ Hw E) as Hw1.
  destruct (tokens_ l1) eqn:Et; intros [= _ <-]; [exact Hw1 |].
  now apply pop_front_within.
Qed.

Lemma acquire_loop_within (clock : list Z) (l l' : t double) (b : bool) :
  within_burst l -> acquire_loop clock l = Some (b, l') -> within_burst l'.
Proof.
  revert l; induction clock as [|now clock IH]; intros l Hw; cbn [acquire_loop].
  - now intros [= _ <-].
  - destruct (refill now l) as [l1|] eqn:E; [|discriminate].
    pose proof (refill_within _ _ _ Hw E) as Hw1.
    destruct (tokens_ l1) eqn:Et.
    + now apply IH.
    + intros [= _ <-]. now apply pop_front_within.
Qed.

Lemma set_rate_within (r : double) (b : N) (now : Z) (l : t double) :
  within_burst (set_rate r b now l).
Proof. unfold within_burst, set_rate. cbn [tokens_ length]. lia. Qed.

Lemma make_within (r : double) (b : N) (now : Z) : within_burst (make r b now).
Proof. unfold within_burst, make. cbn [tokens_ length]. lia. Qed.

Lemma step_within (o : op double) (l l' : t double) :
  within_burst l -> step o l = Some l' -> within_burst l'.
Proof.
  intros Hw. destruct o as [now | clock | now | r b now]; cbn [step].
  - now apply refill_within.
  - unfold acquire. destruct (le_zero (rate_ l)); [now intros [= <-] |].
    destruct (acquire_loop clock l) as [[b l1]|] eqn:E; [|discriminate].
    intros [= <-]. now apply (acquire_loop_within _ _ _ _ Hw E).
  - destruct (try_acquire now l) as [[b l1]|] eqn:E; [|discriminate].
    intros [= <-]. now apply (try_acquire_within _ _ _ _ Hw E).
  - intros [= <-]. apply set_rate_within.
Qed.

Lemma run_within (ops : list (op double)) (l l' : t double) :
  within_burst l -> run ops l = Some l' -> within_burst l'.
Proof.
  revert l; induction ops as [|o ops IH]; intros l Hw; cbn [run].
  - now intros [= <-].
  - destruct (step o l) as [l1|] eqn:E; [|discriminate].
    apply IH. now apply (step_within _ _ _ Hw E).
Qed.

(** The operations are defined on a usable limiter. *)
Lemma refill_defined (now : Z) (l : t double) :
  usable l -> exists l', refill now l = Some l' /\ rate_ l' = rate_ l
                         /\ interval_ l' = interval_ l.
Proof.
  unfold usable, refill. intros [Hz | [i [Hi Hne]]].
  - rewrite Hz. eauto.
  - destruct (le_zero (rate_ l)); [eauto |]. rewrite Hi.
    destruct (Z.eqb_spec i 0); [contradiction |].
    destruct (0 <? _); eauto.
Qed.

End Limiter.

(** C9. Whatever operations are run on a limiter, from its construction
    on, the deque holds at most [burst_] tokens. *)
Theorem tokens_within_burst {double : Type} `{Double double}
    (r : double) (b : N) (now : Z) (ops : list (op double)) (l : t double) :
  run ops (make r b now) = Some l -> within_burst l.
Proof. apply run_within, make_within. Qed.

Lemma tokens_within_burst_witness :
  within_burst
    (mk 10 3 (Some 100000000) [500000000] 500000000 : t Z).
Proof.
  apply (tokens_within_burst (10 : Z) 3 0
           [Acquire [50000000; 100000000]; TryAcquire 100000000;
            Refill 500000000; Acquire [500000000]; Acquire [500000000]]).
  reflexivity.
Defined.

End RateLimiterFacts.

(** ** DNS cache *)

Module DNSCacheFacts.
Import DNSCache.

Lemma incr64_neq (x : Z) : incr64 x <> x.
Proof.
  unfold incr64. intros E.
  assert (HM : SIZE_MAX + 1 = 18446744073709551616) by reflexivity.
  rewrite HM in E.
  pose proof (Z.mod_pos_bound (x + 1) 18446744073709551616 ltac:(lia)) as Hb.
  rewrite E in Hb.
  destruct (Z.eq_dec x 18446744073709551615) as [-> | Hx].
  - vm_compute in E. discriminate.
  - rewrite Z.mod_small in E by lia. lia.
Qed.

(** The test of [resolve] on whole seconds is the test on the clock. *)
Lemma fresh_iff (now : Z) (e : CachedAddress) :
  cached_at e <= now ->
  fresh now e = true <-> now - cached_at e < ttl e * NANOS_PER_SECOND.
Proof.
  intros Hle. unfold fresh, to_seconds, NANOS_PER_SECOND.
  rewrite Z.quot_div_nonneg by lia. rewrite Z.ltb_lt. split; intros Hlt.
  - apply Z.nle_gt. intros Hge.
    assert (ttl e <= (now - cached_at e) / 1000000000)
      by (apply Z.div_le_lower_bound; lia).
    lia.
  - apply Z.div_lt_upper_bound; lia.
Qed.

(** After a resolution that gave addresses the cache holds an entry for the
    key, with these addresses. *)
Lemma resolve_caches (host : string) (port : Z) (env : sys) (c : t) :
  fst (resolve host port env c) <> [] ->
  exists e, cache_ (snd (resolve host port env c)) !! make_key host port = Some e
            /\ addresses e = fst (resolve host port env c).
Proof.
  unfold resolve. destruct (cache_ c !! make_key host port) as [e0|] eqn:E0.
  - destruct (fresh (now_lookup env) e0).
    + cbn [fst snd cache_]. eauto.
    + cbn [fst snd cache_]. destruct (resolved env) as [|a l] eqn:Er; [congruence |].
      intros _. eexists. rewrite lookup_insert_eq. split; reflexivity.
  - cbn [fst snd cache_]. destruct (resolved env) as [|a l] eqn:Er; [congruence |].
    intros _. eexists. rewrite lookup_insert_eq. split; reflexivity.
Qed.

(** C6. After a [resolve] that returned addresses, the cache holds an entry
    for the key; a second [resolve] of the same host and port made while
    [now - cached_at < ttl] returns the same list and counts a hit and no
    miss; made later, it is not served from the cache: it counts a miss and
    returns what the system resolves. *)
Theorem resolve_again_within_ttl (host : string) (port : Z) (env1 env2 : sys) (c : t) :
  fst (resolve host port env1 c) <> [] ->
  exists e,
    cache_ (snd (resolve host port env1 c)) !! make_key host port = Some e
    /\ (cached_at e <= now_lookup env2 ->
        (now_lookup env2 - cached_at e < ttl e * NANOS_PER_SECOND ->
         resolve host port env2 (snd (resolve host port env1 c))
         = (fst (resolve host port env1 c),
            mk (cache_ (snd (resolve host port env1 c)))
               (default_ttl_ (snd (resolve host port env1 c)))
               (incr64 (hits_ (snd (resolve host port env1 c))))
               (misses_ (snd (resolve host port env1 c)))))
        /\ (~ now_lookup env2 - cached_at e < ttl e * NANOS_PER_SECOND ->
            fst (resolve host port env2 (snd (resolve host port env1 c))) = resolved env2
            /\ hits_ (snd (resolve host port env2 (snd (resolve host port env1 c))))
               = hits_ (snd (resolve host port env1 c))
            /\ misses_ (snd (resolve host port env2 (snd (resolve host port env1 c))))
               = incr64 (misses_ (snd (resolve host port env1 c))))).
Proof.
  intros Hne. destruct (resolve_caches host port env1 c Hne) as [e [He Ha]].
  exists e. split; [exact He |]. intros Hmono.
  set (c1 := snd (resolve host port env1 c)) in *.
  pose proof (fresh_iff (now_lookup env2) e Hmono) as Hf.
  split.
  - intros Hlt. apply Hf in Hlt. unfold resolve at 1. rewrite He, Hlt, Ha. reflexivity.
  - intros Hge. assert (Hs : fresh (now_lookup env2) e = false).
    { destruct (fresh (now_lookup env2) e); [|reflexivity]. exfalso. apply Hge, Hf.
      reflexivity. }
    unfold resolve at 1 2 3. rewrite He, Hs. cbn [fst snd hits_ misses_]. auto.
Qed.

Lemma resolve_again_within_ttl_witness :
  let c1 := snd (resolve "example.com" 443 (mkSys 0 [[Byte.x02]] 7) (make 300)) in
  let r2 := resolve "example.com" 443 (mkSys 299000000000 [] 299000000001) c1 in
  fst r2 = [[Byte.x02]] /\ hits_ (snd r2) = 1 /\ misses_ (snd r2) = 1.
Proof.
  destruct (resolve_again_within_ttl "example.com" 443 (mkSys 0 [[Byte.x02]] 7)
              (mkSys 299000000000 [] 299000000001) (make 300)) as [e [He Hboth]].
  - vm_compute. discriminate.
  - vm_compute in He. injection He as <-.
    destruct Hboth as [Hhit _]; [cbn; lia |].
    cbv zeta. rewrite Hhit by (vm_compute; reflexivity).
    vm_compute. repeat split.
Defined.

End DNSCacheFacts.

(** ** Connection pool *)

Module PoolFacts.
Import ConnectionPool.

#[local] Abbreviation pools := (gmap (string * Z * bool) (list conn_ptr)).

Lemma stored_empty : stored ∅ = O.
Proof. unfold stored. apply map_fold_empty. Qed.

Lemma stored_insert_fresh (k : string * Z * bool) (v : list conn_ptr) (m : pools) :
  m !! k = None -> stored (<[k := v]> m) = (length v + stored m)%nat.
Proof.
  intros Hk. unfold stored.
  apply (map_fold_insert_L (fun _ (v : list conn_ptr) acc => (length v + acc)%nat));
    [|exact Hk].
  intros. lia.
Qed.

Lemma stored_delete (k : string * Z * bool) (v : list conn_ptr) (m : pools) :
  m !! k = Some v -> stored m = (length v + stored (delete k m))%nat.
Proof.
  intros Hk. unfold stored.
  apply (map_fold_delete_L (fun _ (v : list conn_ptr) acc => (length v + acc)%nat));
    [|exact Hk].
  intros. lia.
Qed.

Lemma stored_insert (k : string * Z * bool) (v : list conn_ptr) (m : pools) :
  (stored (<[k := v]> m) + length (default [] (m !! k)) = length v + stored m)%nat.
Proof.
  rewrite <- insert_delete_eq.
  rewrite stored_insert_fresh by apply lookup_delete_eq.
  destruct (m !! k) as [old|] eqn:E; simpl.
  - rewrite (stored_delete k old m E). lia.
  - rewrite delete_id by exact E. lia.
Qed.

Lemma stored_fmap_filter (f : conn_ptr -> bool) (m : pools) :
  (stored (List.filter f <$> m) <= stored m)%nat.
Proof.
  induction m as [|k v m Hk IH] using map_ind.
  - rewrite fmap_empty. lia.
  - rewrite fmap_insert. rewrite !stored_insert_fresh; [|exact Hk|].
    + pose proof (List.filter_length_le f v). lia.
    + rewrite lookup_fmap, Hk. reflexivity.
Qed.

(** The scan of [acquire] never lengthens the vector. *)
Lemma acquire_scan_length (recv_peek : Z -> Z * Z) (now : Z) (n : nat)
    (pool : list conn_ptr) (m : Mem) :
  (length (acquire_scan recv_peek now n pool m).1.2 <= length pool)%nat.
Proof.
  revert pool m; induction n as [|i IH]; intros pool m; cbn [acquire_scan].
  - cbn. lia.
  - destruct (pool !! i) as [[l|]|] eqn:E; try apply IH.
    destruct (in_use (deref m l)); [apply IH |].
    destruct (dead _); [|cbn; lia].
    etransitivity; [apply IH |]. rewrite length_delete by eauto. lia.
Qed.

Lemma acquire_stored (recv_peek : Z -> Z * Z) (now : Z) (host : string) (port : Z)
    (use_tls : bool) (pm : t * Mem) :
  (stored (pools_ (acquire recv_peek now host port use_tls pm).2.1)
   <= stored (pools_ pm.1))%nat
  /\ max_connections_ (acquire recv_peek now host port use_tls pm).2.1
     = max_connections_ pm.1.
Proof.
  destruct pm as [p m]. unfold acquire.
  destruct (pools_ p !! (host, port, use_tls)) as [pool|] eqn:E; [|cbn; split; [lia | reflexivity]].
  pose proof (acquire_scan_length recv_peek now (length pool) pool m) as Hlen.
  destruct (acquire_scan recv_peek now (length pool) pool m) as [[r pool'] m'].
  cbn [fst snd pools_ max_connections_] in *. split; [|reflexivity].
  pose proof (stored_insert (host, port, use_tls) pool' (pools_ p)) as Hs.
  rewrite E in Hs. simpl in Hs. lia.
Qed.

Lemma cleanup_idle_stored (now : Z) (pm : t * Mem) :
  (stored (pools_ (cleanup_idle now pm).1) <= stored (pools_ pm.1))%nat
  /\ max_connections_ (cleanup_idle now pm).1 = max_connections_ pm.1.
Proof.
  destruct pm as [p m]. unfold cleanup_idle. cbn [fst pools_ max_connections_].
  split; [apply stored_fmap_filter | reflexivity].
Qed.

Lemma to_int32_small (x : Z) : INT_MIN <= x <= INT_MAX -> to_int32 x = x.
Proof.
  unfold to_int32, INT_MIN, INT_MAX. intros Hx. rewrite Z.mod_small by lia. lia.
Qed.

(** What [release] does with a connection whose descriptor is open. *)
Lemma release_open (now : Z) (host : string) (port : Z) (l : loc) (p : t) (m : Mem) :
  0 <= socket_fd (deref m l) ->
  max_connections_ p <= INT_MAX ->
  Z.of_nat (stored (pools_ p)) <= max_connections_ p ->
  let c := deref m l in
  let key := (host, port, has_tls c) in
  let pool := default [] (pools_ p !! key) in
  let m1 := store l (mkConn (socket_fd c) (tls c) now false) m in
  release now host port (Some l) (p, m)
  = if Z.of_nat (stored (pools_ p)) <? max_connections_ p
    then (mk (max_connections_ p) (idle_timeout_ p)
             (<[key := (pool ++ [Some l])%list]> (pools_ p)), m1)
    else (mk (max_connections_ p) (idle_timeout_ p) (<[key := pool]> (pools_ p)),
          close (socket_fd c) m1).
Proof.
  intros Hfd Hmax Hinv. cbv zeta. unfold release.
  destruct (Z.ltb_spec (socket_fd (deref m l)) 0); [lia |].
  set (key := (host, port, has_tls (deref m l))).
  set (pool := default [] (pools_ p !! key)).
  assert (Hs : stored (<[key := pool]> (pools_ p)) = stored (pools_ p)).
  { pose proof (stored_insert key (default [] (pools_ p !! key)) (pools_ p)) as Hs.
    unfold pool. lia. }
  rewrite Hs. rewrite to_int32_small by (unfold INT_MIN; lia).
  destruct (Z.leb_spec (max_connections_ p) (Z.of_nat (stored (pools_ p))));
    destruct (Z.ltb_spec (Z.of_nat (stored (pools_ p))) (max_connections_ p));
    try lia; [reflexivity |].
  now rewrite insert_insert_eq.
Qed.

Lemma release_stored (now : Z) (host : string) (port : Z) (conn : conn_ptr) (pm : t * Mem) :
  max_connections_ pm.1 <= INT_MAX ->
  Z.of_nat (stored (pools_ pm.1)) <= max_connections_ pm.1 ->
  Z.of_nat (stored (pools_ (release now host port conn pm).1)) <= max_connections_ pm.1
  /\ max_connections_ (release now host port conn pm).1 = max_connections_ pm.1.
Proof.
  destruct pm as [p m]. cbn [fst]. intros Hmax Hinv.
  destruct conn as [l|]; [|now split].
  destruct (Z.ltb_spec (socket_fd (deref m l)) 0) as [Hneg | Hfd].
  - unfold release. destruct (Z.ltb_spec (socket_fd (deref m l)) 0); [now split | lia].
  - rewrite (release_open now host port l p m Hfd Hmax Hinv). cbv zeta.
    set (key := (host, port, has_tls (deref m l))).
    destruct (Z.ltb_spec (Z.of_nat (stored (pools_ p))) (max_connections_ p)) as [Hlt | Hge];
      cbn [fst pools_ max_connections_]; (split; [|reflexivity]).
    + pose proof (stored_insert key (default [] (pools_ p !! key) ++ [Some l])%list
                    (pools_ p)) as Hs.
      rewrite length_app in Hs. cbn [length] in Hs. lia.
    + pose proof (stored_insert key (default [] (pools_ p !! key)) (pools_ p)) as Hs. lia.
Qed.

Lemma step_bounded (o : op) (pm : t * Mem) :
  max_connections_ pm.1 <= INT_MAX ->
  Z.of_nat (stored (pools_ pm.1)) <= max_connections_ pm.1 ->
  Z.of_nat (stored (pools_ (step o pm).1)) <= max_connections_ pm.1
  /\ max_connections_ (step o pm).1 = max_connections_ pm.1.
Proof.
  intros Hmax Hinv. destruct o as [recv_peek now host port use_tls | now host port conn | now];
    cbn [step].
  - destruct (acquire_stored recv_peek now host port use_tls pm) as [H1 H2].
    split; [lia | exact H2].
  - now apply release_stored.
  - destruct (cleanup_idle_stored now pm) as [H1 H2]. split; [lia | exact H2].
Qed.

Lemma run_bounded (ops : list op) (pm : t * Mem) :
  max_connections_ pm.1 <= INT_MAX ->
  Z.of_nat (stored (pools_ pm.1)) <= max_connections_ pm.1 ->
  Z.of_nat (stored (pools_ (run ops pm).1)) <= max_connections_ pm.1.
Proof.
  revert pm; induction ops as [|o ops IH]; intros pm Hmax Hinv; cbn [run fold_left].
  - exact Hinv.
  - destruct (step_bounded o pm Hmax Hinv) as [H1 H2].
    fold (run ops (step o pm)). rewrite <- H2. apply IH; rewrite H2; assumption.
Qed.

Lemma allocated_close (fd : Z) (m : Mem) (conn : conn_ptr) :
  allocated m conn -> allocated (close fd m) conn.
Proof. destruct conn; [|trivial]. now cbn. Qed.

Lemma Forall_delete {A : Type} (P : A -> Prop) (i : nat) (l : list A) :
  Forall P l -> Forall P (delete i l).
Proof.
  intros H. revert i; induction H as [|x l Hx Hl IH]; intros [|i]; cbn;
    try constructor; auto.
Qed.

(** The connection [acquire] returns is an entry of the vector it leaves,
    and is marked in use. *)
Lemma acquire_scan_in_use (recv_peek : Z -> Z * Z) (now : Z) (n : nat)
    (pool pool' : list conn_ptr) (m m' : Mem) (l : loc) :
  Forall (allocated m) pool ->
  acquire_scan recv_peek now n pool m = (Some l, pool', m') ->
  Some l ∈ pool' /\ in_use (deref m' l) = true.
Proof.
  revert pool m; induction n as [|i IH]; intros pool m Hall; cbn [acquire_scan];
    [discriminate |].
  destruct (pool !! i) as [[l0|]|] eqn:E; try (apply IH; exact Hall).
  destruct (in_use (deref m l0)); [apply IH; exact Hall |].
  destruct (dead _).
  - apply IH. apply Forall_delete.
    eapply Forall_impl; [exact Hall |]. intros conn. apply allocated_close.
  - intros [= <- <- <-]. split.
    + eapply list_elem_of_lookup_2. exact E.
    + pose proof (Forall_lookup_1 _ _ _ _ Hall E) as Hl. cbn in Hl.
      unfold deref, store. cbn [heap]. rewrite list_lookup_insert_eq by exact Hl.
      reflexivity.
Qed.

Lemma acquire_in_use (recv_peek : Z -> Z * Z) (now : Z) (host : string) (port : Z)
    (use_tls : bool) (pm pm' : t * Mem) (l : loc) :
  well_allocated pm ->
  acquire recv_peek now host port use_tls pm = (Some l, pm') ->
  (exists pool, pools_ pm'.1 !! (host, port, use_tls) = Some pool /\ Some l ∈ pool)
  /\ in_use (deref pm'.2 l) = true.
Proof.
  destruct pm as [p m]. intros Hwf. unfold acquire.
  destruct (pools_ p !! (host, port, use_tls)) as [pool|] eqn:E; [|discriminate].
  destruct (acquire_scan recv_peek now (length pool) pool m) as [[r pool'] m'] eqn:Es.
  intros [= -> <-]. cbn [fst snd pools_].
  destruct (acquire_scan_in_use _ _ _ _ _ _ _ _ (Hwf _ _ E) Es) as [Hin Huse].
  split; [|exact Huse]. exists pool'. now rewrite lookup_insert_eq.
Qed.

Lemma step_max (o : op) (pm : t * Mem) :
  max_connections_ (step o pm).1 = max_connections_ pm.1.
Proof.
  destruct o as [recv_peek now host port use_tls | now host port conn | now]; cbn [step].
  - apply acquire_stored.
  - destruct pm as [p m]. unfold release. destruct conn as [l|]; [|reflexivity].
    destruct (_ <? 0); [reflexivity |]. now destruct (_ <=? _).
  - apply cleanup_idle_stored.
Qed.

Lemma run_max (ops : list op) (pm : t * Mem) :
  max_connections_ (run ops pm).1 = max_connections_ pm.1.
Proof.
  revert pm; induction ops as [|o ops IH]; intros pm; cbn [run fold_left]; [reflexivity |].
  fold (run ops (step o pm)). now rewrite IH, step_max.
Qed.

(** C10. Starting from an empty pool of capacity [max], whatever operations
    are run, the vectors of the pool hold at most [max] entries in total;
    [release] of an open connection appends it when the pool holds fewer
    than [max] entries and closes its descriptor, storing nothing, when
    not; [acquire] and [cleanup_idle] add no entry. *)
Theorem pool_never_exceeds_max (max idle : Z) (m0 : Mem) (ops : list op) :
  0 <= max <= INT_MAX ->
  let pm := run ops (make max idle, m0) in
  Z.of_nat (stored (pools_ pm.1)) <= max
  /\ (forall now host port l,
        0 <= socket_fd (deref pm.2 l) ->
        let c := deref pm.2 l in
        let key := (host, port, has_tls c) in
        let pool := default [] (pools_ pm.1 !! key) in
        let m1 := store l (mkConn (socket_fd c) (tls c) now false) pm.2 in
        release now host port (Some l) pm
        = if Z.of_nat (stored (pools_ pm.1)) <? max
          then (mk max (idle_timeout_ pm.1)
                   (<[key := (pool ++ [Some l])%list]> (pools_ pm.1)), m1)
          else (mk max (idle_timeout_ pm.1) (<[key := pool]> (pools_ pm.1)),
                close (socket_fd c) m1))
  /\ (forall recv_peek now host port use_tls,
        (stored (pools_ (acquire recv_peek now host port use_tls pm).2.1)
         <= stored (pools_ pm.1))%nat)
  /\ (forall now, (stored (pools_ (cleanup_idle now pm).1) <= stored (pools_ pm.1))%nat).
Proof.
  intros Hmax pm.
  assert (Hm : max_connections_ pm.1 = max) by (unfold pm; now rewrite run_max).
  assert (Hb : Z.of_nat (stored (pools_ pm.1)) <= max).
  { unfold pm. change max with (max_connections_ (make max idle, m0).1) at 2.
    apply run_bounded; cbn [fst make max_connections_ pools_]; [lia |].
    rewrite stored_empty. lia. }
  split; [exact Hb |]. split; [|split].
  - intros now host port l Hfd. clearbody pm. destruct pm as [p m].
    cbn [fst snd] in *. subst max. apply release_open; [exact Hfd | lia | exact Hb].
  - intros. apply acquire_stored.
  - intros. apply cleanup_idle_stored.
Qed.

Lemma pool_never_exceeds_max_witness :
  Z.of_nat
    (stored (pools_ (run [Release 5 "example.com" 80 (Some O);
                          Release 6 "example.com" 80 (Some 1%nat);
                          Acquire probe_alive 7 "example.com" 80 false;
                          CleanupIdle 200000000000]
                       (make 1 60, mkMem [mkConn 3 None 0 true; mkConn 4 None 0 true] [])).1))
  <= 1.
Proof.
  apply (pool_never_exceeds_max 1 60
           (mkMem [mkConn 3 None 0 true; mkConn 4 None 0 true] [])
           [Release 5 "example.com" 80 (Some O);
            Release 6 "example.com" 80 (Some 1%nat);
            Acquire probe_alive 7 "example.com" 80 false;
            CleanupIdle 200000000000]).
  unfold INT_MAX. lia.
Defined.

(** C7, as stated, fails: a pool that is full closes the connection it is
    given back, and the next [acquire] on the key finds nothing. *)
Lemma acquire_after_release_at_capacity :
  let m := mkMem [mkConn 3 None 0 false; mkConn 4 None 0 true] [] in
  let p := mk 1 60 {[ ("a.example", 80, false) := [Some O] ]} in
  (acquire probe_alive 1 "b.example" 80 false
     (release 0 "b.example" 80 (Some 1%nat) (p, m))).1 <> Some 1%nat.
Proof. vm_compute. discriminate. Qed.

(** C7, amended: when the pool holds fewer than [max_connections_] entries
    at the release of an open connection [c], an [acquire] that follows, on
    the host and port of the release and the TLS flag of [c], returns [c],
    provided the liveness probe on its descriptor succeeds. *)
Theorem acquire_after_release (recv_peek : Z -> Z * Z) (now now' : Z)
    (host : string) (port : Z) (l : loc) (p : t) (m : Mem) :
  0 <= socket_fd (deref m l) ->
  Z.of_nat (stored (pools_ p)) < max_connections_ p ->
  max_connections_ p <= INT_MAX ->
  dead (recv_peek (socket_fd (deref m l))) = false ->
  (acquire recv_peek now' host port (has_tls (deref m l))
     (release now host port (Some l) (p, m))).1 = Some l.
Proof.
  intros Hfd Hlt Hmax Halive.
  rewrite (release_open now host port l p m Hfd Hmax) by lia. cbv zeta.
  destruct (Z.ltb_spec (Z.of_nat (stored (pools_ p))) (max_connections_ p)); [|lia].
  set (c := deref m l) in *.
  set (key := (host, port, has_tls c)).
  set (pool := default [] (pools_ p !! key)).
  unfold acquire. cbn [pools_]. rewrite lookup_insert_eq.
  rewrite length_app. cbn [length]. rewrite Nat.add_1_r. cbn [acquire_scan].
  rewrite lookup_app_r by lia. rewrite Nat.sub_diag. cbn [lookup list_lookup].
  assert (Hl : (l < length (heap m))%nat).
  { destruct (heap m !! l) as [c0|] eqn:E.
    - now apply lookup_lt_Some in E.
    - exfalso. unfold c, deref in Hfd. rewrite E in Hfd. cbn in Hfd. lia. }
  assert (Hd : deref (store l (mkConn (socket_fd c) (tls c) now false) m) l
               = mkConn (socket_fd c) (tls c) now false).
  { unfold deref, store. cbn [heap]. now rewrite list_lookup_insert_eq by exact Hl. }
  rewrite Hd. cbn [in_use socket_fd]. rewrite Halive. reflexivity.
Qed.

Lemma acquire_after_release_witness :
  (acquire probe_alive 2 "example.com" 443 true
     (release 1 "example.com" 443 (Some O)
        (make 200 90, mkMem [mkConn 7 (Some (mkTLS 7 "example.com")) 0 true] []))).1
  = Some O.
Proof.
  apply (acquire_after_release probe_alive 1 2 "example.com" 443 O (make 200 90)
           (mkMem [mkConn 7 (Some (mkTLS 7 "example.com")) 0 true] []));
    [cbn; lia | vm_compute; reflexivity | vm_compute; discriminate | reflexivity].
Defined.

End PoolFacts.

(** ** The executor and the retry wrapper *)

Module ExecutorFacts.
Import Impl.

(** A redirect is followed only with [max_redirects > 0] and lowers it. *)
Lemma transact_follow (e : Exchange) (req new_req : Request.t) (l : loc) (st st' : t) :
  transact e req l st = (Follow new_req, st') ->
  0 < Request.max_redirects req
  /\ Request.max_redirects new_req = Request.max_redirects req - 1.
Proof.
  unfold transact. destruct (sent e <? 0); [discriminate |].
  destruct (reply e) as [parsed|x]; [|discriminate]. cbv zeta.
  destruct (_ && _ && _); [|discriminate].
  destruct (_ !! "Location") as [location|]; [|discriminate].
  destruct (Z.ltb_spec 0 (Request.max_redirects req)); [|discriminate].
  destruct (URL.parse location) as [[new_url|]|x]; try discriminate.
  intros [= <- _]. split; [assumption | reflexivity].
Qed.

Lemma attempt_follow (e : Exchange) (req new_req : Request.t) (st st' : t) :
  attempt e req st = (Follow new_req, st') ->
  0 < Request.max_redirects req
  /\ Request.max_redirects new_req = Request.max_redirects req - 1.
Proof.
  unfold attempt. destruct (obtain e req st) as [[l|resp] st1]; [|discriminate].
  apply transact_follow.
Qed.

(** With at least [max_redirects] units of fuel the result does not depend
    on the fuel: the recursion of [execute_request] ends by itself. *)
Lemma execute_request_fuel (env : nat -> Exchange) (fuel1 fuel2 : nat)
    (req : Request.t) (st : t) :
  (Z.to_nat (Request.max_redirects req) <= fuel1)%nat ->
  (Z.to_nat (Request.max_redirects req) <= fuel2)%nat ->
  execute_request_rec env fuel1 req st = execute_request_rec env fuel2 req st.
Proof.
  revert fuel2 req st; induction fuel1 as [|fuel1 IH]; intros fuel2 req st H1 H2.
  - destruct fuel2 as [|fuel2]; [reflexivity |]. cbn [execute_request_rec].
    destruct (attempt _ req (enter st)) as [[o|new_req] st'] eqn:E; [reflexivity |].
    apply attempt_follow in E. lia.
  - cbn [execute_request_rec].
    destruct (attempt _ req (enter st)) as [[o|new_req] st'] eqn:E.
    + destruct fuel2; cbn [execute_request_rec]; rewrite E; reflexivity.
    + pose proof (attempt_follow _ _ _ _ _ E) as [Hpos Hdec].
      destruct fuel2 as [|fuel2]; [lia |]. cbn [execute_request_rec]. rewrite E.
      rewrite (IH fuel2 new_req st') by lia. reflexivity.
Qed.

(** When [send] fails on a connection taken from the pool, [execute_request]
    returns with the entry still in the pool and still marked in use, its
    descriptor closed. *)
Lemma send_failure_keeps_entry (e : Exchange) (req : Request.t) (st : t)
    (l : loc) (pm : ConnectionPool.t * Mem) :
  well_allocated (pool_ st, mem st) ->
  ConnectionPool.acquire (recv_peek e) (now e)
    (URL.host (Request.url req)) (URL.port (Request.url req))
    (String.eqb (URL.scheme (Request.url req)) "https") (pool_ st, mem st)
  = (Some l, pm) ->
  sent e < 0 ->
  exists st',
    attempt e req st = (Done (Ret (Response.failed (elapsed e))), st')
    /\ (exists pool,
          ConnectionPool.pools_ (pool_ st')
            !! (URL.host (Request.url req), URL.port (Request.url req),
                String.eqb (URL.scheme (Request.url req)) "https")
          = Some pool /\ Some l ∈ pool)
    /\ in_use (deref (mem st') l) = true
    /\ closed (mem st') = (closed pm.2 ++ [socket_fd (deref pm.2 l)])%list.
Proof.
  intros Hwf Hacq Hsent.
  destruct (PoolFacts.acquire_in_use _ _ _ _ _ _ _ _ Hwf Hacq) as [Hin Huse].
  unfold attempt, obtain. rewrite Hacq. unfold transact.
  destruct (Z.ltb_spec (sent e) 0); [|lia].
  eexists. split; [reflexivity |].
  cbn [pool_ mem with_stats with_mem with_pool fst snd].
  split; [exact Hin |]. split; [exact Huse | reflexivity].
Qed.

(** C3. The executor does not release its connection on every exit path:
    when [send] fails on a connection taken from the pool, the descriptor is
    closed, the response has status 0, and the entry stays in the pool,
    marked in use. *)
Theorem send_failure_leaves_connection_in_use :
  let r := execute_request send_fails (Request.make (URL.mk "http" "example.com" 80 "/" ""))
             client_with_idle_connection in
  r.1 = Ret (Response.failed 1)
  /\ ConnectionPool.pools_ (pool_ r.2) !! ("example.com", 80, false) = Some [Some O]
  /\ in_use (deref (mem r.2) O) = true
  /\ closed (mem r.2) = [5]
  /\ times_closed 5 (mem r.2) = 1%nat
  /\ Statistics.error_count (stats_ r.2) "send_failed" = 1.
Proof. vm_compute. repeat split. Qed.

(** C1, as stated, fails: after the third 503 the wrapper returns a
    response of status 0, not 503. *)
Lemma retry_exhaustion_returns_zero :
  let r := request always_503 request_with_retries make in
  (exists resp, r.1 = Ret resp /\ Response.status_code resp = 0
                /\ Response.status_code resp <> 503)
  /\ calls r.2 = 3%nat
  /\ Statistics.error_count (stats_ r.2) "retry" = 2.
Proof.
  vm_compute. split; [eexists; repeat split; discriminate | split; reflexivity].
Qed.

Lemma transact_503 (e : Exchange) (req : Request.t) (l : loc) (st : t) (r : Response.t) :
  0 <= sent e -> reply e = Ret r -> Response.status_code r = 503 ->
  exists resp st',
    transact e req l st = (Done (Ret resp), st')
    /\ Response.status_code resp = 503 /\ quiet st st'.
Proof.
  intros Hsent Hreply H503. unfold transact.
  destruct (Z.ltb_spec (sent e) 0); [lia |]. rewrite Hreply.
  cbv zeta. cbn [Response.with_elapsed Response.status_code]. rewrite H503.
  replace ((300 <=? 503) && (503 <? 400)) with false by reflexivity.
  rewrite andb_false_r.
  eexists _, _. split; [reflexivity |]. split; [exact H503 |].
  repeat split.
Qed.

Lemma attempt_503 (e : Exchange) (req : Request.t) (st : t) :
  answers_503 e ->
  exists resp st',
    attempt e req st = (Done (Ret resp), st')
    /\ Response.status_code resp = 503 /\ quiet st st'.
Proof.
  intros (Hgai & Hdial & Hhs & Hsent & r & Hreply & H503).
  assert (Hfin : forall l s, quiet st s ->
            exists resp st',
              transact e req l s = (Done (Ret resp), st')
              /\ Response.status_code resp = 503 /\ quiet st st').
  { intros l s (Hs1 & Hs2 & Hs3).
    destruct (transact_503 e req l s r Hsent Hreply H503)
      as (resp & st' & E & Hs & Hq1 & Hq2 & Hq3).
    exists resp, st'. split; [exact E |]. split; [exact Hs |].
    unfold quiet. rewrite Hq1, Hq2, Hq3. auto. }
  unfold attempt, obtain.
  destruct (ConnectionPool.acquire _ _ _ _ _ _) as [[l|] pm].
  - apply Hfin. repeat split.
  - rewrite Hgai. cbn [Z.eqb andb].
    destruct (addrs e) as [|a rest] eqn:Ea.
    { specialize (Hdial (mkMem [] [])). cbn in Hdial. lia. }
    cbn [length Nat.eqb negb].
    set (st1 := with_stats (Statistics.record_dns_lookup false) (with_pool pm st)).
    specialize (Hdial (mem st1)).
    destruct (dial (a :: rest) (mem st1)) as [fd m'].
    cbn [fst] in Hdial. destruct (Z.ltb_spec fd 0); [lia |].
    cbn [alloc mem with_mem with_stats].
    destruct (String.eqb (URL.scheme (Request.url req)) "https").
    + rewrite Hhs. apply Hfin. repeat split.
    + apply Hfin. repeat split.
Qed.

Lemma execute_request_503 (env : nat -> Exchange) (req : Request.t) (st : t) :
  (forall n, answers_503 (env n)) ->
  exists resp st',
    execute_request env req st = (Ret resp, st')
    /\ Response.status_code resp = 503
    /\ calls st' = S (calls st)
    /\ slept st' = slept st
    /\ Statistics.error_counts_ (stats_ st') = Statistics.error_counts_ (stats_ st).
Proof.
  intros Henv. unfold execute_request.
  destruct (attempt_503 (env (calls st)) req (enter st) (Henv _))
    as (resp & st' & E & Hs & Hq1 & Hq2 & Hq3).
  exists resp, st'. split.
  - destruct (Z.to_nat _); cbn [execute_request_rec]; rewrite E; reflexivity.
  - auto.
Qed.

Lemma error_count_same_counts (s s' : Statistics.t) (k : string) :
  Statistics.error_counts_ s' = Statistics.error_counts_ s ->
  Statistics.error_count s' k = Statistics.error_count s k.
Proof. unfold Statistics.error_count. now intros ->. Qed.

Lemma error_count_recorded (s : Statistics.t) (k : string) :
  Statistics.error_count (Statistics.record_error k s) k
  = incr64 (Statistics.error_count s k).
Proof.
  unfold Statistics.error_count at 1. cbn [Statistics.record_error Statistics.error_counts_].
  now rewrite lookup_insert_eq.
Qed.

Lemma error_count_other (s : Statistics.t) (k k' : string) :
  k <> k' ->
  Statistics.error_count (Statistics.record_error k s) k' = Statistics.error_count s k'.
Proof.
  intros Hne. unfold Statistics.error_count.
  cbn [Statistics.record_error Statistics.error_counts_].
  now rewrite lookup_insert_ne.
Qed.

(** One turn of the loop of [execute_with_retry] against a server that
    answers 503. *)
Lemma retry_loop_503 (env : nat -> Exchange) (req : Request.t) (max_attempts : Z)
    (remaining : nat) (attempts : Z) (st : t) :
  (forall n, answers_503 (env n)) ->
  exists st1,
    calls st1 = S (calls st)
    /\ slept st1 = slept st
    /\ Statistics.error_counts_ (stats_ st1) = Statistics.error_counts_ (stats_ st)
    /\ retry_loop env req max_attempts (S remaining) attempts st
       = retry_loop env req max_attempts remaining (attempts + 1)
           (if attempts + 1 <? max_attempts
            then with_stats (Statistics.record_error "retry")
                   (sleep_for (if Request.exponential_backoff req
                               then Request.retry_delay req * 2 ^ (attempts + 1 - 1)
                               else Request.retry_delay req) st1)
            else st1).
Proof.
  intros Henv.
  destruct (execute_request_503 env req st Henv) as (resp & st1 & E & Hs & Hc & Hl & Hx).
  exists st1. repeat (split; [assumption |]).
  cbn [retry_loop]. rewrite E, Hs. reflexivity.
Qed.

(** C1, amended. Against a server that answers 503 to every attempt, a
    request with [max_retries = 2] makes three attempts, records "retry"
    twice and "max_retries_exceeded" once, and returns a response of status
    0; a request without retries returns the response of status 503. *)
Theorem retry_exhaustion_on_503 (env : nat -> Exchange) (req : Request.t) (st : t) :
  (forall n, answers_503 (env n)) ->
  (Request.max_retries req = 2 ->
   exists st',
     request env req st = (Ret (Response.failed 0), st')
     /\ calls st' = (calls st + 3)%nat
     /\ Statistics.error_count (stats_ st') "retry"
        = incr64 (incr64 (Statistics.error_count (stats_ st) "retry"))
     /\ Statistics.error_count (stats_ st') "max_retries_exceeded"
        = incr64 (Statistics.error_count (stats_ st) "max_retries_exceeded"))
  /\ (Request.max_retries req <= 0 ->
      exists resp st',
        request env req st = (Ret resp, st')
        /\ Response.status_code resp = 503
        /\ calls st' = S (calls st)).
Proof.
  intros Henv. split.
  - intros H2. unfold request, execute_with_retry. rewrite H2.
    change (0 <? 2) with true. cbv iota. change (Z.to_nat (2 + 1)) with 3%nat.
    destruct (retry_loop_503 env req (2 + 1) 2 0 st Henv) as (st1 & Hcalls1 & L1 & X1 & E1).
    rewrite E1. change (0 + 1 <? 2 + 1) with true. cbv iota.
    set (st1' := with_stats _ (sleep_for _ st1)).
    destruct (retry_loop_503 env req (2 + 1) 1 (0 + 1) st1' Henv) as (st2 & Hcalls2 & L2 & X2 & E2).
    rewrite E2. change (0 + 1 + 1 <? 2 + 1) with true. cbv iota.
    set (st2' := with_stats _ (sleep_for _ st2)).
    destruct (retry_loop_503 env req (2 + 1) 0 (0 + 1 + 1) st2' Henv)
      as (st3 & Hcalls3 & L3 & X3 & E3).
    rewrite E3. change (0 + 1 + 1 + 1 <? 2 + 1) with false. cbv iota.
    cbn [retry_loop]. eexists. split; [reflexivity |].
    cbn [calls stats_ with_stats].
    assert (Hr1 : Statistics.error_count (stats_ st1') "retry"
                  = incr64 (Statistics.error_count (stats_ st) "retry")).
    { unfold st1'. cbn [stats_ with_stats sleep_for]. rewrite error_count_recorded.
      now rewrite (error_count_same_counts _ _ _ X1). }
    assert (Hr2 : Statistics.error_count (stats_ st2') "retry"
                  = incr64 (incr64 (Statistics.error_count (stats_ st) "retry"))).
    { unfold st2'. cbn [stats_ with_stats sleep_for]. rewrite error_count_recorded.
      now rewrite (error_count_same_counts _ _ _ X2), Hr1. }
    assert (Hm1 : Statistics.error_count (stats_ st1') "max_retries_exceeded"
                  = Statistics.error_count (stats_ st) "max_retries_exceeded").
    { unfold st1'. cbn [stats_ with_stats sleep_for]. rewrite error_count_other by done.
      now rewrite (error_count_same_counts _ _ _ X1). }
    assert (Hm2 : Statistics.error_count (stats_ st2') "max_retries_exceeded"
                  = Statistics.error_count (stats_ st) "max_retries_exceeded").
    { unfold st2'. cbn [stats_ with_stats sleep_for]. rewrite error_count_other by done.
      now rewrite (error_count_same_counts _ _ _ X2), Hm1. }
    split; [|split].
    + rewrite Hcalls3. unfold st2'. cbn [calls with_stats sleep_for]. rewrite Hcalls2.
      unfold st1'. cbn [calls with_stats sleep_for]. rewrite Hcalls1. lia.
    + rewrite error_count_other by done.
      now rewrite (error_count_same_counts _ _ _ X3), Hr2.
    + rewrite error_count_recorded.
      now rewrite (error_count_same_counts _ _ _ X3), Hm2.
  - intros H0. unfold request.
    destruct (Z.ltb_spec 0 (Request.max_retries req)); [lia |].
    destruct (execute_request_503 env req st Henv) as (resp & st' & E & Hs & Hc & _).
    exists resp, st'. auto.
Qed.

Lemma answers_503_always (n : nat) : answers_503 (always_503 n).
Proof.
  unfold answers_503, always_503. cbn. repeat split; try lia.
  exists response_503. split; reflexivity.
Qed.

Lemma retry_exhaustion_on_503_witness :
  exists st',
    request always_503 request_with_retries make = (Ret (Response.failed 0), st')
    /\ calls st' = 3%nat.
Proof.
  destruct (retry_exhaustion_on_503 always_503 request_with_retries make
              answers_503_always) as [H2 _].
  destruct (H2 eq_refl) as (st' & E & C & _).
  exists st'. split; [exact E | exact C].
Defined.

End ExecutorFacts.

(** ** Batches and segmented downloads *)

Module BatchFacts.
Import Batch.

Section Batch.
Variable run_request : Request.t -> Response.t.

Lemma launch_progress (max_parallel : Z) (futures : list Response.t)
    (pending : list Request.t) :
  Z.of_nat (length futures) < max_parallel ->
  pending <> [] ->
  (length (launch run_request max_parallel futures pending).2 < length pending)%nat
  /\ (0 < length (launch run_request max_parallel futures pending).1)%nat
  /\ Z.of_nat (length (launch run_request max_parallel futures pending).1) <= max_parallel.
Proof.
  revert futures; induction pending as [|req rest IH]; intros futures Hlt Hne;
    [contradiction |].
  cbn [launch]. destruct (Z.ltb_spec (Z.of_nat (length futures)) max_parallel); [|lia].
  destruct rest as [|req' rest'].
  - cbn [launch fst snd length]. rewrite length_app. cbn [length]. lia.
  - destruct (Z.ltb_spec (Z.of_nat (length (futures ++ [run_request req])))
                max_parallel) as [Hlt' | Hge].
    + destruct (IH (futures ++ [run_request req])%list Hlt' ltac:(discriminate))
        as (H1 & H2 & H3).
      cbn [length] in *. repeat split; [lia | exact H2 | exact H3].
    + cbn [launch].
      destruct (Z.ltb_spec (Z.of_nat (length (futures ++ [run_request req])))
                  max_parallel); [lia |].
      cbn [fst snd length]. rewrite length_app in *. cbn [length] in *. lia.
Qed.

Lemma batch_loop_returns (fuel : nat) (max_parallel : Z)
    (responses futures : list Response.t) (pending : list Request.t) :
  (length pending < fuel)%nat ->
  Z.of_nat (length futures) < max_parallel ->
  exists responses' futures',
    batch_loop run_request fuel max_parallel responses futures pending
    = Some (responses', futures')
    /\ length responses' = length responses.
Proof.
  revert responses futures pending; induction fuel as [|fuel IH];
    intros responses futures pending Hfuel Hlt; [lia |].
  destruct pending as [|req rest].
  - cbn [batch_loop]. eauto.
  - cbn [batch_loop].
    destruct (launch_progress max_parallel futures (req :: rest) Hlt ltac:(discriminate))
      as (H1 & H2 & H3).
    destruct (launch run_request max_parallel futures (req :: rest)) as [futures1 pending1].
    cbn [fst snd] in *. destruct futures1 as [|front rest1]; [cbn in H2; lia |].
    cbn [length] in *.
    destruct (IH (<[(length responses - S (length rest1))%nat := front]> responses)
                rest1 pending1) as (rs & fs & E & Hlen); [lia | lia |].
    exists rs, fs. split; [exact E |]. now rewrite Hlen, length_insert.
Qed.

Lemma drain_length (responses futures : list Response.t) :
  length (drain responses futures) = length responses.
Proof.
  unfold drain. generalize (length responses - length futures)%nat. intros i.
  revert responses; induction futures as [|r futures IH]; intros responses;
    cbn [fold_left]; [reflexivity |].
  now rewrite IH, length_insert.
Qed.

(** With a parallelism of one or more [batch_request] returns, and returns
    as many responses as there are requests. *)
Lemma batch_request_returns (requests : list Request.t) (max_parallel : Z) :
  1 <= size_of_int max_parallel ->
  exists responses,
    batch_request run_request requests max_parallel = Some responses
    /\ length responses = length requests.
Proof.
  intros HP. unfold batch_request.
  destruct (batch_loop_returns (S (length requests)) (size_of_int max_parallel)
              (replicate (length requests) Response.empty) [] requests)
    as (rs & fs & E & Hlen); [lia | cbn [length]; lia |].
  rewrite E. exists (drain rs fs). split; [reflexivity |].
  now rewrite drain_length, Hlen, length_replicate.
Qed.

End Batch.

(** C2. [batch_request] stores a response at the index
    [responses.size() - futures.size()], not at the index of its request:
    two requests run one at a time leave the first slot empty, and of three
    requests run together the third response lands in the second slot. *)
Theorem batch_request_misplaces (run_request : Request.t -> Response.t)
    (a b c : Request.t) :
  batch_request run_request [a; b] 1 = Some [Response.empty; run_request b]
  /\ batch_request run_request [a; b; c] 3
     = Some [run_request a; run_request c; Response.empty].
Proof. split; reflexivity. Qed.

End BatchFacts.

Module DownloadFacts.
Import Download.

Lemma wrap64_small (x : Z) : 0 <= x <= SIZE_MAX -> wrap64 x = x.
Proof. unfold wrap64, SIZE_MAX. intros Hx. apply Z.mod_small. lia. Qed.

(** C8. When the resource has fewer bytes than there are segments the
    segment size is zero and [(i + 1) * segment_size - 1] wraps below zero
    in [size_t]: of two workers on a resource of one byte the first asks
    for [bytes=0-18446744073709551615] and the second for [bytes=0-], so
    the ranges overlap, and a server that honours them sends the byte
    twice. With the ten pipes [main] uses when none is given, a resource of
    three bytes comes back ten times over. The guard of [parallel_download]
    turns away [content_length == 0] only. *)
Theorem range_header_wraps :
  range_header (1 / 2) 2 0 = "bytes=0-18446744073709551615"
  /\ range_header (1 / 2) 2 1 = "bytes=0-"
  /\ end_byte (1 / 2) 0 = 18446744073709551615
  /\ parallel_download (range_server [Byte.x41]) "http://example.com/file" 1 2 "GET" ∅ 30
       false
     = Ret [Byte.x41; Byte.x41]
  /\ parallel_download (range_server [Byte.x41; Byte.x42; Byte.x43])
       "http://example.com/file" 3 10 "GET" ∅ 30 false
     = Ret (List.concat (replicate 10 [Byte.x41; Byte.x42; Byte.x43])).
Proof. vm_compute. repeat split. Qed.

(** Where the resource has at least as many bytes as there are segments the
    ranges asked for are those of the specification: segment [i] asks for
    the bytes from [i * size] on, up to [(i + 1) * size - 1] when it is not
    the last; the ranges are not empty, each starts where the one before
    ends, all but the last hold [size] bytes, and they cover the bytes [0]
    to [content_length - 1]. *)
Lemma segment_ranges (u : URL.t) (content_length num_pipes : Z) (method : string)
    (extra_headers : gmap string string) (max_time : Z) (no_compress : bool) :
  2 <= num_pipes ->
  num_pipes <= content_length <= SIZE_MAX ->
  let size := content_length / num_pipes in
  let req i := segment_request u method extra_headers max_time no_compress
                 size num_pipes i in
  (forall i, 0 <= i < num_pipes ->
     Request.headers (req i) !! "Range"
     = Some (if i =? num_pipes - 1
             then "bytes=" +:+ size_to_string (range_first size i) +:+ "-"
             else "bytes=" +:+ size_to_string (range_first size i) +:+ "-"
                  +:+ size_to_string (range_last content_length num_pipes size i)))
  /\ range_first size 0 = 0
  /\ range_last content_length num_pipes size (num_pipes - 1) = content_length - 1
  /\ (forall i, 0 <= i < num_pipes ->
        range_first size i <= range_last content_length num_pipes size i)
  /\ (forall i, 0 <= i < num_pipes - 1 ->
        range_first size (i + 1) = range_last content_length num_pipes size i + 1
        /\ range_last content_length num_pipes size i - range_first size i + 1 = size).
Proof.
  intros HN HCL size req.
  assert (Hsize : 1 <= size) by (unfold size; apply Z.div_le_lower_bound; lia).
  assert (Hmul : num_pipes * size <= content_length)
    by (unfold size; apply Z.mul_div_le; lia).
  split; [|split; [|split; [|split]]].
  - intros i Hi. unfold req, segment_request. cbn [Request.headers].
    rewrite lookup_insert_eq. f_equal. unfold range_header, start_byte, end_byte.
    unfold range_first, range_last.
    rewrite wrap64_small by nia.
    destruct (Z.eqb_spec i (num_pipes - 1)); [reflexivity |].
    rewrite wrap64_small by nia. reflexivity.
  - reflexivity.
  - unfold range_last. now rewrite Z.eqb_refl.
  - intros i Hi. unfold range_first, range_last.
    destruct (Z.eqb_spec i (num_pipes - 1)); nia.
  - intros i Hi. unfold range_first, range_last.
    destruct (Z.eqb_spec i (num_pipes - 1)); lia.
Qed.

End DownloadFacts.

(** ** The pool: accounting, exclusive use and reuse *)

Module PoolLifecycle.
Import ConnectionPool.

Lemma deref_close (fd : Z) (m : Mem) (l : loc) : deref (close fd m) l = deref m l.
Proof. reflexivity. Qed.

Lemma deref_store_ne (m : Mem) (l l' : loc) (c : PooledConnection) :
  l <> l' -> deref (store l' c m) l = deref m l.
Proof. intros Hne. unfold deref, store. cbn [heap]. now rewrite list_lookup_insert_ne. Qed.

Lemma deref_store_eq (m : Mem) (l : loc) (c : PooledConnection) :
  (l < length (heap m))%nat -> deref (store l c m) l = c.
Proof. intros Hl. unfold deref, store. cbn [heap]. now rewrite list_lookup_insert_eq. Qed.

(** What the scan of [acquire] does: the connection it returns was idle and
    answered the probe; the scan only closes descriptors and marks the
    connection it returns; it closes one descriptor for each entry it
    erases; when it returns nothing every entry it leaves is busy. *)
Lemma acquire_scan_spec (probe : Z -> Z * Z) (now : Z) (n : nat)
    (pool : list conn_ptr) (m : Mem) :
  let r := acquire_scan probe now n pool m in
  (length (closed r.2) + length r.1.2 = length (closed m) + length pool)%nat
  /\ (forall l, in_use (deref m l) = true -> in_use (deref r.2 l) = true)
  /\ match r.1.1 with
     | Some l =>
         in_use (deref m l) = false
         /\ dead (probe (socket_fd (deref m l))) = false
         /\ heap r.2 = <[l := mkConn (socket_fd (deref m l)) (tls (deref m l)) now true]> (heap m)
     | None =>
         heap r.2 = heap m
         /\ (Forall (busy m) (drop n pool) -> Forall (busy m) r.1.2)
     end.
Proof.
  revert pool m; induction n as [|i IH]; intros pool m; cbn [acquire_scan].
  - cbn. repeat split; auto.
  - assert (Hskip : Forall (busy m) (drop (S i) pool) ->
                    match pool !! i with
                    | Some conn => busy m conn
                    | None => True
                    end -> Forall (busy m) (drop i pool)).
    { intros Hd Hb. destruct (pool !! i) as [conn|] eqn:E.
      - rewrite (drop_S _ _ _ E). now constructor.
      - rewrite drop_ge; [constructor |]. now apply lookup_ge_None. }
    assert (Hpass : match pool !! i with
                    | Some conn => busy m conn
                    | None => True
                    end ->
                    let r := acquire_scan probe now i pool m in
                    (length (closed r.2) + length r.1.2 = length (closed m) + length pool)%nat
                    /\ (forall l, in_use (deref m l) = true -> in_use (deref r.2 l) = true)
                    /\ match r.1.1 with
                       | Some l =>
                           in_use (deref m l) = false
                           /\ dead (probe (socket_fd (deref m l))) = false
                           /\ heap r.2
                              = <[l := mkConn (socket_fd (deref m l)) (tls (deref m l)) now true]>
                                  (heap m)
                       | None =>
                           heap r.2 = heap m
                           /\ (Forall (busy m) (drop (S i) pool) -> Forall (busy m) r.1.2)
                       end).
    { intros Hb. destruct (IH pool m) as (H1 & H2 & H3). cbv zeta.
      split; [exact H1 |]. split; [exact H2 |].
      destruct (acquire_scan probe now i pool m).1.1; [exact H3 |].
      destruct H3 as [H3 H4]. split; [exact H3 |]. intros Hd. apply H4.
      now apply Hskip. }
    destruct (pool !! i) as [[l0|]|] eqn:E; try (apply Hpass; exact I).
    destruct (in_use (deref m l0)) eqn:Euse; [apply Hpass; exact Euse |].
    destruct (dead (probe (socket_fd (deref m l0)))) eqn:Edead.
    + destruct (IH (delete i pool) (close (socket_fd (deref m l0)) m)) as (H1 & H2 & H3).
      cbv zeta. split; [|split].
      * rewrite H1. cbn [close closed]. rewrite length_app. cbn [length].
        pose proof (lookup_lt_Some _ _ _ E) as Hlt.
        rewrite length_delete by eauto. lia.
      * intros l Hl. apply H2. exact Hl.
      * destruct (acquire_scan probe now i (delete i pool)
                    (close (socket_fd (deref m l0)) m)).1.1 as [l|].
        -- exact H3.
        -- destruct H3 as [H3 H4]. split; [exact H3 |]. intros Hd.
           assert (Hb : Forall (busy m) (drop i (delete i pool))).
           { rewrite delete_take_drop.
             pose proof (lookup_lt_Some _ _ _ E) as Hlt.
             rewrite drop_app_length' by (rewrite length_take; lia). exact Hd. }
           apply H4. exact Hb.
    + cbn [fst snd store heap closed]. split; [lia |]. split.
      * intros l Hl. rewrite deref_store_ne; [exact Hl |].
        intros ->. congruence.
      * repeat split; assumption.
Qed.

Lemma acquire_spec (probe : Z -> Z * Z) (now : Z) (host : string) (port : Z)
    (use_tls : bool) (pm : t * Mem) :
  let r := acquire probe now host port use_tls pm in
  (length (closed r.2.2) + stored (pools_ r.2.1)
   = length (closed pm.2) + stored (pools_ pm.1))%nat
  /\ (forall l, in_use (deref pm.2 l) = true -> in_use (deref r.2.2 l) = true)
  /\ match r.1 with
     | Some l =>
         in_use (deref pm.2 l) = false
         /\ dead (probe (socket_fd (deref pm.2 l))) = false
     | None =>
         heap r.2.2 = heap pm.2
         /\ forall pool', pools_ r.2.1 !! (host, port, use_tls) = Some pool' ->
                          Forall (busy r.2.2) pool'
     end.
Proof.
  destruct pm as [p m]. cbv zeta. unfold acquire. cbn [fst snd].
  destruct (pools_ p !! (host, port, use_tls)) as [pool|] eqn:E.
  - pose proof (acquire_scan_spec probe now (length pool) pool m) as Hs. cbv zeta in Hs.
    destruct (acquire_scan probe now (length pool) pool m) as [[r pool'] m'].
    cbn [fst snd pools_] in *. destruct Hs as (H1 & H2 & H3).
    split; [|split; [exact H2 |]].
    + pose proof (PoolFacts.stored_insert (host, port, use_tls) pool' (pools_ p)) as Hst.
      rewrite E in Hst. simpl in Hst. lia.
    + destruct r as [l|]; [tauto |]. destruct H3 as [H3 H4]. split; [exact H3 |].
      intros pool'' Hp. rewrite lookup_insert_eq in Hp. injection Hp as <-.
      assert (Hb : Forall (busy m) pool').
      { apply H4. rewrite drop_ge by lia. constructor. }
      eapply Forall_impl; [exact Hb |]. intros [l|]; [|trivial].
      unfold busy, deref. now rewrite H3.
  - cbn [fst snd]. split; [reflexivity |]. split; [auto |]. split; [reflexivity |].
    intros pool' Hp. rewrite E in Hp. discriminate.
Qed.

(** X1. [acquire] closes one descriptor for every entry it erases and
    erases no other entry; the connection it returns was idle and answered
    the liveness probe; when it returns null, every entry left in the vector
    of the key is a null pointer or a connection in use. *)
Theorem acquire_accounts (probe : Z -> Z * Z) (now : Z) (host : string) (port : Z)
    (use_tls : bool) (pm : t * Mem) :
  let r := acquire probe now host port use_tls pm in
  (length (closed r.2.2) + stored (pools_ r.2.1)
   = length (closed pm.2) + stored (pools_ pm.1))%nat
  /\ match r.1 with
     | Some l =>
         in_use (deref pm.2 l) = false
         /\ dead (probe (socket_fd (deref pm.2 l))) = false
     | None =>
         Forall (busy r.2.2) (default [] (pools_ r.2.1 !! (host, port, use_tls)))
     end.
Proof.
  destruct (acquire_spec probe now host port use_tls pm) as (H1 & _ & H3). cbv zeta.
  split; [exact H1 |].
  destruct (acquire probe now host port use_tls pm).1; [exact H3 |].
  destruct H3 as [_ H3].
  destruct (pools_ _ !! (host, port, use_tls)) as [pool'|]; [now apply H3 | constructor].
Qed.

Lemma step_keeps_in_use (o : op) (pm : t * Mem) (l : loc) :
  releases l o = false ->
  in_use (deref pm.2 l) = true ->
  in_use (deref (step o pm).2 l) = true.
Proof.
  intros Hrel Huse.
  destruct o as [probe now host port use_tls | now host port conn | now]; cbn [step].
  - now apply acquire_spec.
  - destruct pm as [p m]. cbn [snd] in *. unfold release.
    destruct conn as [l'|]; [|exact Huse]. cbn [releases] in Hrel.
    apply Nat.eqb_neq in Hrel.
    destruct (socket_fd (deref m l') <? 0); [exact Huse |].
    destruct (_ <=? _); cbn [snd]; rewrite ?deref_close, deref_store_ne; auto.
  - destruct pm as [p m]. exact Huse.
Qed.

Lemma run_keeps_in_use (ops : list op) (pm : t * Mem) (l : loc) :
  Forall (fun o => releases l o = false) ops ->
  in_use (deref pm.2 l) = true ->
  in_use (deref (run ops pm).2 l) = true.
Proof.
  intros Hall. revert pm; induction Hall as [|o ops Ho _ IH]; intros pm Huse;
    cbn [run fold_left]; [exact Huse |].
  fold (run ops (step o pm)). apply IH. now apply step_keeps_in_use.
Qed.

(** X2. A connection that [acquire] handed out stays marked in use, and no
    later [acquire] hands it out again, whatever operations run in between,
    as long as none of them releases it. *)
Theorem acquired_stays_exclusive (probe probe' : Z -> Z * Z) (now now' : Z)
    (host host' : string) (port port' : Z) (use_tls use_tls' : bool)
    (pm pm1 : t * Mem) (l : loc) (ops : list op) :
  well_allocated pm ->
  acquire probe now host port use_tls pm = (Some l, pm1) ->
  Forall (fun o => releases l o = false) ops ->
  in_use (deref (run ops pm1).2 l) = true
  /\ (acquire probe' now' host' port' use_tls' (run ops pm1)).1 <> Some l.
Proof.
  intros Hwf Hacq Hops.
  destruct (PoolFacts.acquire_in_use _ _ _ _ _ _ _ _ Hwf Hacq) as [_ Huse].
  pose proof (run_keeps_in_use ops pm1 l Hops Huse) as Hkept.
  split; [exact Hkept |]. intros Hagain.
  pose proof (acquire_spec probe' now' host' port' use_tls' (run ops pm1)) as Hs.
  cbv zeta in Hs. rewrite Hagain in Hs. destruct Hs as (_ & _ & Hidle & _).
  congruence.
Qed.

(** The descriptors [cleanup_idle] closes in one vector. *)
Lemma gone_length (idle now : Z) (m : Mem) (v : list conn_ptr) :
  (length (omap (fun conn => match conn with
                             | Some l => if expired idle now m conn
                                         then Some (socket_fd (deref m l)) else None
                             | None => None
                             end) v)
   + length (List.filter (fun conn => negb (expired idle now m conn)) v)
   = length v)%nat.
Proof.
  induction v as [|[l|] v IH]; [reflexivity | |].
  - cbn [omap list_omap List.filter]. destruct (expired idle now m (Some l)); cbn; lia.
  - cbn [omap list_omap List.filter expired negb length]. lia.
Qed.

Lemma gone_expired (idle now : Z) (m : Mem) (v : list conn_ptr) (fd : Z) :
  fd ∈ omap (fun conn => match conn with
                         | Some l => if expired idle now m conn
                                     then Some (socket_fd (deref m l)) else None
                         | None => None
                         end) v ->
  exists l, Some l ∈ v /\ fd = socket_fd (deref m l) /\ expired idle now m (Some l) = true.
Proof.
  intros Hin. apply list_elem_of_omap in Hin. destruct Hin as ([l|] & Hl & Hfd); [|discriminate].
  destruct (expired idle now m (Some l)) eqn:E; [|discriminate].
  injection Hfd as <-. now exists l.
Qed.

(** X3. [cleanup_idle] leaves the connection objects as they are, closes
    one descriptor for every entry it erases, leaves no expired entry in any
    vector, and closes only descriptors of entries that were not in use and
    idle for [idle_timeout_] or longer. *)
Theorem cleanup_idle_accounts (now : Z) (pm : t * Mem) :
  let pm' := cleanup_idle now pm in
  heap pm'.2 = heap pm.2
  /\ (length (closed pm'.2) + stored (pools_ pm'.1)
      = length (closed pm.2) + stored (pools_ pm.1))%nat
  /\ map_Forall (fun _ pool' =>
                   Forall (fun conn => expired (idle_timeout_ pm.1) now pm'.2 conn = false)
                     pool') (pools_ pm'.1)
  /\ exists added,
       closed pm'.2 = (closed pm.2 ++ added)%list
       /\ Forall (fun fd =>
                    exists key pool l,
                      pools_ pm.1 !! key = Some pool /\ Some l ∈ pool
                      /\ fd = socket_fd (deref pm.2 l)
                      /\ in_use (deref pm.2 l) = false
                      /\ idle_timeout_ pm.1 <= to_seconds (now - last_used (deref pm.2 l)))
            added.
Proof.
  destruct pm as [p m]. cbv zeta. unfold cleanup_idle. cbn [fst snd heap closed pools_].
  split; [reflexivity |]. split; [|split].
  - rewrite length_app. unfold stored. rewrite map_fold_fmap, !map_fold_foldr.
    induction (map_to_list (pools_ p)) as [|[k v] kvs IH]; [cbn; lia |].
    cbn [List.map List.concat foldr uncurry snd fst compose] in *.
    rewrite length_app.
    pose proof (gone_length (idle_timeout_ p) now m v). unfold compose in *. lia.
  - intros key pool' Hp. rewrite lookup_fmap in Hp.
    destruct (pools_ p !! key) as [pool|]; [|discriminate]. injection Hp as <-.
    apply Forall_forall. intros conn Hin.
    apply list_elem_of_In, List.filter_In in Hin. destruct Hin as [_ Hne].
    apply negb_true_iff in Hne. exact Hne.
  - eexists. split; [reflexivity |]. apply Forall_forall. intros fd Hfd.
    apply list_elem_of_In, in_concat in Hfd. destruct Hfd as (fds & Hfds & Hfd).
    apply in_map_iff in Hfds. destruct Hfds as ([k v] & <- & Hkv).
    apply list_elem_of_In, elem_of_map_to_list in Hkv.
    apply list_elem_of_In in Hfd. cbn [snd] in Hfd.
    destruct (gone_expired _ _ _ _ _ Hfd) as (l & Hl & -> & Hex).
    exists k, v, l. split; [exact Hkv |]. split; [exact Hl |]. split; [reflexivity |].
    unfold expired in Hex. apply andb_true_iff in Hex. destruct Hex as [Hidle Hold].
    split; [now apply negb_true_iff in Hidle | now apply Z.leb_le in Hold].
Qed.

(** [acquire] when the last entry of the vector is idle and alive. *)
Lemma acquire_last (probe : Z -> Z * Z) (now : Z) (host : string) (port : Z)
    (use_tls : bool) (p : t) (m : Mem) (pool : list conn_ptr) (l : loc) :
  pools_ p !! (host, port, use_tls) = Some (pool ++ [Some l])%list ->
  in_use (deref m l) = false ->
  dead (probe (socket_fd (deref m l))) = false ->
  acquire probe now host port use_tls (p, m)
  = (Some l,
     (mk (max_connections_ p) (idle_timeout_ p)
        (<[(host, port, use_tls) := (pool ++ [Some l])%list]> (pools_ p)),
      store l (mkConn (socket_fd (deref m l)) (tls (deref m l)) now true) m)).
Proof.
  intros Hk Hidle Halive. unfold acquire. rewrite Hk.
  rewrite length_app. cbn [length]. rewrite Nat.add_1_r. cbn [acquire_scan].
  rewrite lookup_app_r by lia. rewrite Nat.sub_diag. cbn [lookup list_lookup].
  rewrite Hidle, Halive. reflexivity.
Qed.

Lemma stored_singleton (key : PoolKey) (v : list conn_ptr) :
  stored {[ key := v ]} = length v.
Proof.
  rewrite <- insert_empty, PoolFacts.stored_insert_fresh by apply lookup_empty.
  rewrite PoolFacts.stored_empty. lia.
Qed.

Lemma run_app (ops1 ops2 : list op) (pm : t * Mem) :
  run (ops1 ++ ops2) pm = run ops2 (run ops1 pm).
Proof. unfold run. apply fold_left_app. Qed.

Section Reuse.
Variables (probe : Z -> Z * Z) (host : string) (port : Z) (l : loc) (max idle : Z).
Variables (fd : Z) (tl : option TLSConnection) (len : nat) (cl : list Z).
Hypothesis Hfd : 0 <= fd.
Hypothesis Halive : dead (probe fd) = false.
Hypothesis Hmax : max <= INT_MAX.
Hypothesis Hl : (l < len)%nat.

#[local] Abbreviation key := (host, port, has_tls (mkConn fd tl 0 false)).
#[local] Abbreviation state := (reused key l max idle fd tl len cl).

Lemma reused_acquire (n : nat) (pm : t * Mem) (t : Z) :
  state n pm ->
  exists m', acquire probe t host port (has_tls (mkConn fd tl 0 false)) pm
             = (Some l, (pm.1, m'))
    /\ closed m' = cl /\ length (heap m') = len
    /\ deref m' l = mkConn fd tl t true.
Proof.
  destruct pm as [p m]. unfold reused. cbn [fst snd].
  intros (Hm & Hi & Hp & Hc & Hlen & t0 & Hd).
  eexists. split; [|split; [|split]].
  - rewrite (acquire_last probe t host port _ p m (replicate n (Some l)) l).
    + rewrite <- replicate_S_end.
      rewrite insert_id by (rewrite Hp; apply lookup_singleton_eq).
      now destruct p.
    + rewrite Hp, lookup_singleton_eq. now rewrite replicate_S_end.
    + now rewrite Hd.
    + now rewrite Hd.
  - exact Hc.
  - unfold store. cbn [heap]. now rewrite length_insert.
  - rewrite Hd. cbn [socket_fd tls]. apply deref_store_eq. lia.
Qed.

Lemma release_cases (n : nat) (p : t) (m : Mem) (t t0 : Z) (b : bool)
    (pools : gmap PoolKey (list conn_ptr)) (pool : list conn_ptr) :
  max_connections_ p = max ->
  pools_ p = pools ->
  default [] (pools !! key) = pool ->
  stored pools = n ->
  Z.of_nat n <= max ->
  length (heap m) = len ->
  deref m l = mkConn fd tl t0 b ->
  release t host port (Some l) (p, m)
  = if Z.of_nat n <? max
    then (mk max (idle_timeout_ p) (<[key := (pool ++ [Some l])%list]> pools),
          store l (mkConn fd tl t false) m)
    else (mk max (idle_timeout_ p) (<[key := pool]> pools),
          close fd (store l (mkConn fd tl t false) m)).
Proof.
  intros Hm Hp Hpool Hs Hn Hlen Hd.
  rewrite PoolFacts.release_open; rewrite ?Hd, ?Hp, ?Hs, ?Hm; cbn [socket_fd]; try lia.
  cbv zeta. rewrite ?Hd, ?Hp, ?Hm. cbn [socket_fd tls].
  change (has_tls (mkConn fd tl t0 b)) with (has_tls (mkConn fd tl 0 false)).
  rewrite Hpool. reflexivity.
Qed.

Lemma reused_round (n : nat) (pm : t * Mem) (t : Z) :
  state n pm ->
  Z.of_nat (S n) < max ->
  state (S n) (run (reuse probe host port (has_tls (mkConn fd tl 0 false)) l [t]) pm).
Proof.
  intros Hr Hn. destruct (reused_acquire n pm t Hr) as (m' & Hacq & Hc & Hlen & Hd).
  destruct pm as [p m]. unfold reused in Hr |- *. cbn [fst snd] in *.
  destruct Hr as (Hm & Hi & Hp & _).
  cbn [reuse flat_map app run fold_left step]. rewrite Hacq. cbn [snd].
  rewrite (release_cases (S n) p m' t t true _ (replicate (S n) (Some l)) Hm Hp);
    [| now rewrite lookup_singleton_eq | now rewrite stored_singleton, length_replicate
     | lia | exact Hlen | exact Hd].
  destruct (Z.ltb_spec (Z.of_nat (S n)) max) as [_|?]; [|lia].
  cbn [fst snd max_connections_ idle_timeout_ pools_ store heap closed].
  split; [reflexivity |]. split; [exact Hi |]. split.
  { rewrite insert_singleton_eq. now rewrite <- replicate_S_end. }
  split; [exact Hc |]. split; [now rewrite length_insert |].
  exists t. apply deref_store_eq. lia.
Qed.

Lemma reused_rounds (times : list Z) (n : nat) (pm : t * Mem) :
  state n pm ->
  Z.of_nat (n + length times) < max ->
  state (n + length times)%nat
    (run (reuse probe host port (has_tls (mkConn fd tl 0 false)) l times) pm).
Proof.
  revert n pm; induction times as [|t times IH]; intros n pm Hr Hn.
  - cbn [length reuse flat_map run fold_left]. now rewrite Nat.add_0_r.
  - change (reuse probe host port (has_tls (mkConn fd tl 0 false)) l (t :: times))
      with (reuse probe host port (has_tls (mkConn fd tl 0 false)) l [t]
            ++ reuse probe host port (has_tls (mkConn fd tl 0 false)) l times)%list.
    rewrite run_app. cbn [length] in *.
    replace (n + S (length times))%nat with (S n + length times)%nat by lia.
    apply IH; [|lia]. apply reused_round; [exact Hr | lia].
Qed.

Lemma reused_first (p : t) (m : Mem) (t t0 : Z) (b : bool) :
  max_connections_ p = max ->
  idle_timeout_ p = idle ->
  pools_ p = ∅ ->
  0 < max ->
  length (heap m) = len ->
  closed m = cl ->
  deref m l = mkConn fd tl t0 b ->
  state 0 (release t host port (Some l) (p, m)).
Proof.
  intros Hm Hi Hp Hpos Hlen Hc Hd.
  rewrite (release_cases 0 p m t t0 b ∅ [] Hm Hp);
    [| now rewrite lookup_empty | apply PoolFacts.stored_empty | lia | exact Hlen | exact Hd].
  destruct (Z.ltb_spec (Z.of_nat 0) max) as [_|?]; [|lia].
  unfold reused. cbn [fst snd max_connections_ idle_timeout_ pools_ store heap closed].
  split; [reflexivity |]. split; [exact Hi |]. split; [now rewrite insert_empty |].
  split; [exact Hc |]. split; [now rewrite length_insert |].
  exists t. apply deref_store_eq. lia.
Qed.

Lemma reused_full (n : nat) (pm : t * Mem) (t t' : Z) :
  state n pm ->
  Z.of_nat (S n) = max ->
  let r := acquire probe t host port (has_tls (mkConn fd tl 0 false)) pm in
  r.1 = Some l
  /\ closed (release t' host port (Some l) r.2).2 = (cl ++ [fd])%list
  /\ pools_ (release t' host port (Some l) r.2).1 = pools_ pm.1.
Proof.
  intros Hr Hn. destruct (reused_acquire n pm t Hr) as (m' & Hacq & Hc & Hlen & Hd).
  destruct pm as [p m]. unfold reused in Hr. cbn [fst snd] in *.
  destruct Hr as (Hm & Hi & Hp & _).
  cbv zeta. rewrite Hacq. cbn [fst snd]. split; [reflexivity |].
  rewrite (release_cases (S n) p m' t' t true _ (replicate (S n) (Some l)) Hm Hp);
    [| now rewrite lookup_singleton_eq
     | now rewrite stored_singleton, length_replicate
     | lia | exact Hlen | exact Hd].
  destruct (Z.ltb_spec (Z.of_nat (S n)) max) as [?|_]; [lia |].
  cbn [fst snd pools_ close store closed heap]. split; [now rewrite Hc |].
  rewrite Hp. apply insert_singleton_eq.
Qed.

End Reuse.

(** X4. [acquire] leaves the connection it returns in its vector and
    [release] appends it again: one connection, released and then reused
    once for each reading of [times], fills one more slot at each round and
    is not closed. When the slots it fills reach [max_connections_], the
    next [acquire] still returns it and the [release] after that closes its
    descriptor, with every slot still pointing to it. *)
Theorem reuse_fills_pool (probe : Z -> Z * Z) (host : string) (port : Z) (l : loc)
    (p : t) (m : Mem) (t0 : Z) (times : list Z) :
  let c := deref m l in
  let key := (host, port, has_tls c) in
  let pm := run (Release t0 host port (Some l) :: reuse probe host port (has_tls c) l times)
              (p, m) in
  pools_ p = ∅ ->
  0 <= socket_fd c ->
  dead (probe (socket_fd c)) = false ->
  Z.of_nat (length times) < max_connections_ p <= INT_MAX ->
  pools_ pm.1 = {[ key := replicate (S (length times)) (Some l) ]}
  /\ closed pm.2 = closed m
  /\ (Z.of_nat (S (length times)) = max_connections_ p ->
      forall t t',
        let r := acquire probe t host port (has_tls c) pm in
        r.1 = Some l
        /\ closed (release t' host port (Some l) r.2).2 = (closed m ++ [socket_fd c])%list
        /\ pools_ (release t' host port (Some l) r.2).1 = pools_ pm.1).
Proof.
  intros c key pm Hp Hfd Halive [Hn Hmax].
  assert (Hl : (l < length (heap m))%nat).
  { destruct (heap m !! l) as [c0|] eqn:E.
    - now apply lookup_lt_Some in E.
    - exfalso. unfold c, deref in Hfd. rewrite E in Hfd. cbn in Hfd. lia. }
  assert (Hc : exists fd tl t b, deref m l = mkConn fd tl t b)
    by (destruct (deref m l) as [fd tl t b]; now exists fd, tl, t, b).
  destruct Hc as (fd & tl & lu & b & Hd).
  assert (Hkey : has_tls c = has_tls (mkConn fd tl 0 false)) by (unfold c; now rewrite Hd).
  assert (Hsock : socket_fd c = fd) by (unfold c; now rewrite Hd).
  rewrite Hsock in *.
  assert (Hst : reused (host, port, has_tls (mkConn fd tl 0 false)) l (max_connections_ p)
                  (idle_timeout_ p) fd tl (length (heap m)) (closed m) (length times) pm).
  { unfold pm. cbn [run fold_left step]. fold (run (reuse probe host port (has_tls c) l times)
                                                (release t0 host port (Some l) (p, m))).
    rewrite Hkey.
    apply (reused_rounds probe host port l (max_connections_ p) (idle_timeout_ p) fd tl
             (length (heap m)) (closed m) Hfd Halive Hmax Hl times 0%nat); [|cbn; lia].
    eapply reused_first; try eassumption; try reflexivity; lia. }
  unfold key. rewrite Hkey.
  split; [apply Hst |]. split; [apply Hst |].
  intros Hfull t t'.
  eapply reused_full; try eassumption.
Qed.

Lemma acquired_stays_exclusive_witness :
  in_use
    (deref
       (run [CleanupIdle 5; Acquire probe_alive 6 "other.example" 80 false;
             Release 7 "example.com" 80 (Some 1%nat)]
          (acquire probe_alive 1 "example.com" 80 false
             (Impl.pool_ client_with_idle_connection,
              Impl.mem client_with_idle_connection)).2).2 O)
  = true.
Proof.
  apply (acquired_stays_exclusive probe_alive probe_alive 1 9 "example.com" "example.com"
           80 80 false false
           (Impl.pool_ client_with_idle_connection, Impl.mem client_with_idle_connection)
           (acquire probe_alive 1 "example.com" 80 false
              (Impl.pool_ client_with_idle_connection,
               Impl.mem client_with_idle_connection)).2
           O).
  - intros key pool Hk. cbn in Hk. apply lookup_singleton_Some in Hk as [_ <-].
    repeat constructor.
  - reflexivity.
  - repeat constructor.
Defined.

Lemma reuse_fills_pool_witness :
  let pm := run (Release 1 "example.com" 80 (Some O)
                 :: reuse probe_alive "example.com" 80 false O [2])
              (make 2 60, mkMem [mkConn 7 None 0 true] []) in
  pools_ pm.1 = {[ ("example.com", 80, false) := [Some O; Some O] ]}
  /\ closed pm.2 = []
  /\ closed (release 4 "example.com" 80 (Some O)
               (acquire probe_alive 3 "example.com" 80 false pm).2).2 = [7].
Proof.
  destruct (reuse_fills_pool probe_alive "example.com" 80 O (make 2 60)
              (mkMem [mkConn 7 None 0 true] []) 1 [2]) as (H1 & H2 & H3);
    try reflexivity; try (cbn; lia).
  - vm_compute. split; [reflexivity | discriminate].
  - cbv zeta. split; [exact H1 |]. split; [exact H2 |].
    apply (H3 eq_refl 3 4).
Defined.

End PoolLifecycle.

(** ** The executor: exchanges, retries and failure paths *)

Module ExecutorPaths.
Import Impl.

Lemma obtain_calls (e : Exchange) (req : Request.t) (st : t) :
  calls (obtain e req st).2 = calls st /\ slept (obtain e req st).2 = slept st.
Proof.
  unfold obtain.
  destruct (ConnectionPool.acquire _ _ _ _ _ _) as [[l|] pm]; [now split |].
  destruct (_ && _); cbn [with_stats with_pool with_mem mem].
  - destruct (dial _ _) as [fd m]. destruct (fd <? 0); [now split |].
    cbn [alloc]. destruct (String.eqb _ _); [|now split].
    destruct (handshake_ok e); now split.
  - cbn. now split.
Qed.

Lemma transact_calls (e : Exchange) (req : Request.t) (l : loc) (st : t) :
  calls (transact e req l st).2 = calls st /\ slept (transact e req l st).2 = slept st.
Proof.
  unfold transact. destruct (sent e <? 0); [now split |].
  destruct (reply e) as [parsed|x]; [|now split]. cbv zeta.
  destruct (_ && _ && _); [|now split].
  destruct (_ !! "Location") as [location|]; [|now split].
  destruct (0 <? _); [|now split].
  destruct (URL.parse location) as [[new_url|]|x]; now split.
Qed.

Lemma attempt_calls (e : Exchange) (req : Request.t) (st : t) :
  calls (attempt e req st).2 = calls st /\ slept (attempt e req st).2 = slept st.
Proof.
  unfold attempt. pose proof (obtain_calls e req st) as [H1 H2].
  destruct (obtain e req st) as [[l|resp] st1]; cbn [snd] in *.
  - pose proof (transact_calls e req l st1) as [H3 H4]. split; congruence.
  - now split.
Qed.

(** A redirect is proposed only by a request that follows redirects. *)
Lemma attempt_follow_flag (e : Exchange) (req new_req : Request.t) (st st' : t) :
  attempt e req st = (Follow new_req, st') ->
  Request.follow_redirects req = true
  /\ Request.follow_redirects new_req = Request.follow_redirects req.
Proof.
  unfold attempt. destruct (obtain e req st) as [[l|resp] st1]; [|discriminate].
  unfold transact. destruct (sent e <? 0); [discriminate |].
  destruct (reply e) as [parsed|x]; [|discriminate]. cbv zeta.
  destruct (Request.follow_redirects req); [|discriminate].
  destruct (_ && _); [|discriminate].
  destruct (_ !! "Location") as [location|]; [|discriminate].
  destruct (0 <? _); [|discriminate].
  destruct (URL.parse location) as [[new_url|]|x]; try discriminate.
  intros [= <- _]. now split.
Qed.

Lemma execute_request_rec_calls (env : nat -> Exchange) (fuel : nat) (req : Request.t)
    (st : t) :
  (Z.to_nat (Request.max_redirects req) <= fuel)%nat ->
  (S (calls st) <= calls (execute_request_rec env fuel req st).2
   <= S (calls st) + Z.to_nat (Request.max_redirects req))%nat
  /\ slept (execute_request_rec env fuel req st).2 = slept st
  /\ (Request.follow_redirects req = false ->
      calls (execute_request_rec env fuel req st).2 = S (calls st)).
Proof.
  revert req st; induction fuel as [|fuel IH]; intros req st Hfuel;
    cbn [execute_request_rec];
    pose proof (attempt_calls (env (calls st)) req (enter st)) as [Hc Hs];
    destruct (attempt (env (calls st)) req (enter st)) as [[o|new_req] st'] eqn:E;
    cbn [snd calls slept enter] in *.
  - repeat split; try lia; try assumption; intros _; exact Hc.
  - apply ExecutorFacts.attempt_follow in E. lia.
  - repeat split; try lia; try assumption; intros _; exact Hc.
  - pose proof (ExecutorFacts.attempt_follow _ _ _ _ _ E) as [Hpos Hdec].
    pose proof (attempt_follow_flag _ _ _ _ _ E) as [Hflag _].
    specialize (IH new_req st' ltac:(lia)) as ([H1 H2] & H3 & _).
    destruct (execute_request_rec env fuel new_req st') as [o st''].
    cbn [snd] in *. repeat split; try lia; try congruence.
Qed.

(** X5. One call of [execute_request] on the client makes at least one
    exchange and at most [max_redirects] more, and exactly one when the
    request does not follow redirects. *)
Theorem redirects_bounded (env : nat -> Exchange) (req : Request.t) (st : t) :
  (S (calls st) <= calls (execute_request env req st).2
   <= S (calls st) + (if Request.follow_redirects req
                      then Z.to_nat (Request.max_redirects req) else 0))%nat.
Proof.
  unfold execute_request.
  destruct (execute_request_rec_calls env (Z.to_nat (Request.max_redirects req)) req st
              ltac:(lia)) as (H1 & _ & H3).
  destruct (Request.follow_redirects req); [lia |]. rewrite (H3 eq_refl). lia.
Qed.

Lemma retry_loop_status (env : nat -> Exchange) (req : Request.t) (max_attempts : Z)
    (remaining : nat) (attempts : Z) (st st' : t) (resp : Response.t) :
  retry_loop env req max_attempts remaining attempts st = (Ret resp, st') ->
  Response.status_code resp = 0 \/ 0 < Response.status_code resp < 500.
Proof.
  revert attempts st; induction remaining as [|remaining IH]; intros attempts st;
    cbn [retry_loop].
  - intros [= <- _]. now left.
  - destruct (execute_request env req st) as [[r|x] st1]; [|discriminate].
    destruct (Z.ltb_spec 0 (Response.status_code r));
      destruct (Z.ltb_spec (Response.status_code r) 500); cbn [andb];
      try apply IH.
    intros [= <- _]. right. lia.
Qed.

(** X6. A response that [execute_with_retry] returns has status 0 or a
    status between 1 and 499: a status of 500 or more is never returned. *)
Theorem retry_never_returns_5xx (env : nat -> Exchange) (req : Request.t) (st st' : t)
    (resp : Response.t) :
  execute_with_retry env req st = (Ret resp, st') ->
  Response.status_code resp = 0 \/ 0 < Response.status_code resp < 500.
Proof. apply retry_loop_status. Qed.

Lemma retry_never_returns_5xx_witness :
  Response.status_code (Response.failed 0) = 0
  \/ 0 < Response.status_code (Response.failed 0) < 500.
Proof.
  apply (retry_never_returns_5xx always_503 request_with_retries make
           (execute_with_retry always_503 request_with_retries make).2).
  vm_compute. reflexivity.
Defined.

Lemma retry_loop_exhausts (env : nat -> Exchange) (req : Request.t) (max_attempts : Z)
    (remaining : nat) (attempts : Z) (st : t) :
  (forall n, answers_503 (env n)) ->
  max_attempts = attempts + Z.of_nat remaining ->
  exists st',
    retry_loop env req max_attempts remaining attempts st = (Ret (Response.failed 0), st')
    /\ calls st' = (calls st + remaining)%nat
    /\ slept st'
       = (slept st ++ List.map (fun k => backoff_delay req (attempts + Z.of_nat k))
                        (seq 0 (Nat.pred remaining)))%list
    /\ Statistics.error_count (stats_ st') "retry"
       = Nat.iter (Nat.pred remaining) incr64 (Statistics.error_count (stats_ st) "retry").
Proof.
  intros Henv. revert attempts st; induction remaining as [|r IH]; intros attempts st Hmax.
  - cbn [retry_loop]. eexists. split; [reflexivity |].
    cbn [calls slept stats_ with_stats Nat.pred seq List.map Nat.iter nat_rect].
    rewrite app_nil_r, Nat.add_0_r.
    rewrite ExecutorFacts.error_count_other by done. auto.
  - destruct (ExecutorFacts.retry_loop_503 env req max_attempts r attempts st Henv)
      as (st1 & Hc1 & Hs1 & Hx1 & E1).
    rewrite E1. replace (attempts + 1 - 1) with attempts by lia.
    fold (backoff_delay req attempts).
    destruct r as [|r].
    + destruct (Z.ltb_spec (attempts + 1) max_attempts); [lia |].
      destruct (IH (attempts + 1) st1 ltac:(lia)) as (st' & E & Hc & Hs & Hx).
      exists st'. split; [exact E |].
      cbn [Nat.pred seq List.map Nat.iter nat_rect] in *.
      rewrite Hc, Hs, Hx, Hc1, Hs1.
      rewrite (ExecutorFacts.error_count_same_counts _ _ _ Hx1).
      repeat split. lia.
    + destruct (Z.ltb_spec (attempts + 1) max_attempts); [|lia].
      set (st2 := with_stats (Statistics.record_error "retry")
                    (sleep_for (backoff_delay req attempts) st1)).
      destruct (IH (attempts + 1) st2 ltac:(lia)) as (st' & E & Hc & Hs & Hx).
      exists st'. split; [exact E |].
      cbn [Nat.pred] in *. rewrite Hc, Hs, Hx.
      unfold st2. cbn [calls slept stats_ with_stats sleep_for].
      rewrite Hc1, Hs1, ExecutorFacts.error_count_recorded.
      rewrite (ExecutorFacts.error_count_same_counts _ _ _ Hx1).
      split; [lia |]. split.
      * rewrite <- app_assoc. f_equal. cbn [app seq List.map].
        rewrite Z.add_0_r. f_equal.
        rewrite <- seq_shift, List.map_map. apply List.map_ext. intros k.
        f_equal. lia.
      * now rewrite Nat.iter_succ_r.
Qed.

(** X7. Against a server that answers 503 to every attempt, a request with
    [max_retries = n], for [n] between 1 and 31 and a delay whose products
    fit the tick count, makes [n + 1] attempts, sleeps [n] times, for
    [retry_delay * 2 ^ k] before retry [k + 1] when the backoff is
    exponential and for [retry_delay] when it is not, records "retry" [n]
    times and returns a response of status 0. *)
Theorem backoff_schedule (env : nat -> Exchange) (req : Request.t) (st : t) :
  (forall n, answers_503 (env n)) ->
  1 <= Request.max_retries req <= 31 ->
  0 <= Request.retry_delay req <= 4294967296 ->
  exists st',
    request env req st = (Ret (Response.failed 0), st')
    /\ calls st' = (calls st + Z.to_nat (Request.max_retries req) + 1)%nat
    /\ slept st'
       = (slept st ++ List.map (fun k => backoff_delay req (Z.of_nat k))
                        (seq 0 (Z.to_nat (Request.max_retries req))))%list
    /\ Statistics.error_count (stats_ st') "retry"
       = Nat.iter (Z.to_nat (Request.max_retries req)) incr64
           (Statistics.error_count (stats_ st) "retry").
Proof.
  intros Henv Hn _. unfold request, execute_with_retry.
  destruct (Z.ltb_spec 0 (Request.max_retries req)); [|lia].
  destruct (retry_loop_exhausts env req (Request.max_retries req + 1)
              (Z.to_nat (Request.max_retries req + 1)) 0 st Henv ltac:(lia))
    as (st' & E & Hc & Hs & Hx).
  exists st'. split; [exact E |].
  replace (Nat.pred (Z.to_nat (Request.max_retries req + 1)))
    with (Z.to_nat (Request.max_retries req)) in * by lia.
  rewrite Hc, Hs, Hx. repeat split. lia.
Qed.

Lemma backoff_schedule_witness :
  exists st',
    request always_503 request_with_retries make = (Ret (Response.failed 0), st')
    /\ slept st' = [1000; 2000].
Proof.
  destruct (backoff_schedule always_503 request_with_retries make
              ExecutorFacts.answers_503_always) as (st' & E & _ & Hs & _).
  - cbn. lia.
  - cbn. lia.
  - exists st'. split; [exact E | exact Hs].
Defined.

Lemma dial_heap (addresses : list DialAttempt) (m : Mem) :
  heap (dial addresses m).2 = heap m.
Proof.
  revert m; induction addresses as [|a rest IH]; intros m; cbn [dial]; [reflexivity |].
  destruct (sfd a <? 0); [apply IH |].
  destruct (_ && _); [reflexivity |]. now rewrite IH.
Qed.

Lemma opened_cons (a : DialAttempt) (rest : list DialAttempt) :
  opened (a :: rest) = if 0 <=? sfd a then sfd a :: opened rest else opened rest.
Proof. unfold opened. cbn [List.map List.filter]. reflexivity. Qed.

(** X8. The loop over the addresses ends in one of two ways: no address
    connects, the result is -1 and every socket that was opened is closed;
    or the result is the socket of the first address that connects, and
    the sockets opened for the addresses before it, and no other, are
    closed. The connection objects are not touched. *)
Theorem dial_accounts (addresses : list DialAttempt) (m : Mem) :
  ((dial addresses m).1 = -1
   /\ Forall (fun a => connects a = false) addresses
   /\ closed (dial addresses m).2 = (closed m ++ opened addresses)%list)
  \/ (exists before a after,
        addresses = (before ++ a :: after)%list
        /\ (dial addresses m).1 = sfd a
        /\ connects a = true
        /\ Forall (fun b => connects b = false) before
        /\ closed (dial addresses m).2 = (closed m ++ opened before)%list).
Proof.
  revert m; induction addresses as [|a rest IH]; intros m.
  - left. cbn. rewrite app_nil_r. repeat split. constructor.
  - cbn [dial]. unfold connects at 1 3. rewrite opened_cons.
    destruct (Z.ltb_spec (sfd a) 0) as [Hneg | Hpos].
    + assert (Ha : connects a = false).
      { unfold connects. destruct (Z.leb_spec 0 (sfd a)) as [?|_]; [lia | reflexivity]. }
      assert (Ho : (0 <=? sfd a) = false) by (apply Z.leb_gt; lia).
      rewrite Ho.
      destruct (IH m) as [(H1 & H2 & H3) | (bf & a0 & af & H1 & H2 & H3 & H4 & H5)].
      * left. repeat split; [exact H1 | now constructor | exact H3].
      * right. exists (a :: bf), a0, af. subst rest. repeat split; try assumption.
        -- now constructor.
        -- rewrite opened_cons, Ho. exact H5.
    + assert (Ho : (0 <=? sfd a) = true) by (apply Z.leb_le; lia).
      rewrite Ho.
      destruct ((0 <? poll_ret a) && (so_error a =? 0)) eqn:Eok.
      * right. exists [], a, rest. cbn [app fst snd]. repeat split.
        -- unfold connects. now rewrite Ho.
        -- constructor.
        -- unfold opened. cbn. now rewrite app_nil_r.
      * assert (Ha : connects a = false) by (unfold connects; now rewrite Ho).
        destruct (IH (close (sfd a) m))
          as [(H1 & H2 & H3) | (bf & a0 & af & H1 & H2 & H3 & H4 & H5)].
        -- left. repeat split; [exact H1 | now constructor |].
           rewrite H3. cbn [close closed]. now rewrite <- app_assoc.
        -- right. exists (a :: bf), a0, af. subst rest. repeat split; try assumption.
           ++ now constructor.
           ++ rewrite H5, opened_cons, Ho. cbn [close closed]. now rewrite <- app_assoc.
Qed.

Lemma dial_fails (addresses : list DialAttempt) (m : Mem) :
  Forall (fun a => connects a = false) addresses ->
  dial addresses m = (-1, mkMem (heap m) (closed m ++ opened addresses)).
Proof.
  intros Hall. revert m; induction Hall as [|a rest Ha _ IH]; intros m.
  - cbn. rewrite app_nil_r. now destruct m.
  - cbn [dial]. rewrite opened_cons. unfold connects in Ha.
    destruct (Z.ltb_spec (sfd a) 0) as [Hneg | Hpos].
    + destruct (Z.leb_spec 0 (sfd a)) as [?|_]; [lia |]. apply IH.
    + destruct (Z.leb_spec 0 (sfd a)) as [_|?]; [|lia]. cbn [andb] in Ha. rewrite Ha.
      rewrite IH. cbn [close heap closed]. now rewrite <- app_assoc.
Qed.

(** The guard [res != nullptr] changes nothing: the loop over no address
    leaves [fd] at -1. *)
Lemma dial_guard (gai : Z) (addresses : list DialAttempt) (m : Mem) :
  (if (gai =? 0) && negb (Nat.eqb (length addresses) 0) then dial addresses m else (-1, m))
  = if gai =? 0 then dial addresses m else (-1, m).
Proof. destruct (gai =? 0); [|reflexivity]. now destruct addresses. Qed.

Lemma execute_request_done (env : nat -> Exchange) (req : Request.t) (st st' : t)
    (o : outcome Response.t) :
  attempt (env (calls st)) req (enter st) = (Done o, st') ->
  execute_request env req st = (o, st').
Proof.
  intros E. unfold execute_request.
  destruct (Z.to_nat _); cbn [execute_request_rec]; now rewrite E.
Qed.

(** X9. When the pool has no connection to give and the name does not
    resolve or no address connects, [execute_request] returns a response of
    status 0, leaves the pool as [acquire] left it, closes the sockets it
    opened and no other, records "connection_failed" once, and counts
    neither a request nor a connection. *)
Theorem connect_failure (env : nat -> Exchange) (req : Request.t) (st : t) :
  let e := env (calls st) in
  let u := Request.url req in
  let acq := ConnectionPool.acquire (recv_peek e) (now e) (URL.host u) (URL.port u)
               (String.eqb (URL.scheme u) "https") (pool_ st, mem st) in
  acq.1 = None ->
  gai_ret e <> 0 \/ Forall (fun a => connects a = false) (addrs e) ->
  exists st',
    execute_request env req st = (Ret (Response.failed (elapsed e)), st')
    /\ pool_ st' = acq.2.1
    /\ heap (mem st') = heap acq.2.2
    /\ closed (mem st')
       = (closed acq.2.2 ++ (if gai_ret e =? 0 then opened (addrs e) else []))%list
    /\ Statistics.error_count (stats_ st') "connection_failed"
       = incr64 (Statistics.error_count (stats_ st) "connection_failed")
    /\ Statistics.total_requests_ (stats_ st') = Statistics.total_requests_ (stats_ st)
    /\ Statistics.connections_created_ (stats_ st')
       = Statistics.connections_created_ (stats_ st).
Proof.
  intros e u acq.
  assert (Eacq : ConnectionPool.acquire (recv_peek e) (now e) (URL.host u) (URL.port u)
                   (String.eqb (URL.scheme u) "https") (pool_ st, mem st) = acq)
    by reflexivity.
  clearbody acq. destruct acq as [conn pm]. cbn [fst snd]. intros -> Hfail.
  assert (Hd : (if gai_ret e =? 0 then dial (addrs e) pm.2 else (-1, pm.2))
               = (-1, mkMem (heap pm.2)
                        (closed pm.2 ++ (if gai_ret e =? 0 then opened (addrs e) else [])))).
  { destruct (Z.eqb_spec (gai_ret e) 0) as [Hz|_].
    - destruct Hfail as [? | Hall]; [contradiction |]. now apply dial_fails.
    - rewrite app_nil_r. now destruct (pm.2). }
  eexists. split.
  - apply execute_request_done. unfold attempt, obtain. cbn [enter pool_ mem calls].
    fold e u. rewrite Eacq.
    cbn [with_pool with_stats with_mem mem]. rewrite dial_guard, Hd.
    cbn [Z.ltb Z.compare]. reflexivity.
  - cbn [pool_ mem stats_ with_stats with_mem with_pool heap closed enter].
    repeat split.
    rewrite ExecutorFacts.error_count_recorded. reflexivity.
Qed.

(** X10. When a connection is dialled for an https URL and the handshake
    fails, [execute_request] returns a response of status 0, closes the
    socket once, puts nothing in the pool, records "tls_handshake_failed"
    once and counts no connection. *)
Theorem tls_handshake_failure (env : nat -> Exchange) (req : Request.t) (st : t) :
  let e := env (calls st) in
  let u := Request.url req in
  let acq := ConnectionPool.acquire (recv_peek e) (now e) (URL.host u) (URL.port u)
               true (pool_ st, mem st) in
  let d := dial (addrs e) acq.2.2 in
  URL.scheme u = "https" ->
  acq.1 = None ->
  gai_ret e = 0 ->
  0 <= d.1 ->
  handshake_ok e = false ->
  exists st',
    execute_request env req st = (Ret (Response.failed (elapsed e)), st')
    /\ pool_ st' = acq.2.1
    /\ closed (mem st') = (closed d.2 ++ [d.1])%list
    /\ Statistics.error_count (stats_ st') "tls_handshake_failed"
       = incr64 (Statistics.error_count (stats_ st) "tls_handshake_failed")
    /\ Statistics.connections_created_ (stats_ st')
       = Statistics.connections_created_ (stats_ st).
Proof.
  intros e u acq.
  assert (Eacq : ConnectionPool.acquire (recv_peek e) (now e) (URL.host u) (URL.port u)
                   true (pool_ st, mem st) = acq) by reflexivity.
  clearbody acq. destruct acq as [conn pm]. intros d.
  assert (Ed : dial (addrs e) pm.2 = d) by reflexivity.
  clearbody d. destruct d as [fd m1]. cbn [fst snd]. intros Hs -> Hgai Hfd Hhs.
  eexists. split.
  - apply execute_request_done. unfold attempt, obtain. cbn [enter pool_ mem calls].
    fold e u. rewrite Hs. change ("https" =? "https")%string with true.
    rewrite Eacq.
    cbn [with_pool with_stats with_mem mem]. rewrite dial_guard, Hgai.
    change (0 =? 0) with true. cbv iota. rewrite Ed.
    destruct (Z.ltb_spec fd 0) as [?|_]; [lia |].
    cbn [alloc]. cbn [with_pool with_stats with_mem mem]. rewrite Hhs. reflexivity.
  - cbn [pool_ mem stats_ with_stats with_mem with_pool heap closed enter close store].
    repeat split.
    rewrite ExecutorFacts.error_count_recorded. reflexivity.
Qed.

Lemma transact_ok (e : Exchange) (req : Request.t) (l : loc) (st : t) (r : Response.t) :
  0 <= sent e ->
  reply e = Ret r ->
  Request.follow_redirects req = false ->
  transact e req l st
  = (Done (Ret (Response.with_elapsed (elapsed e) r)),
     with_stats (Statistics.record_request (Response.bytes_received r))
       (with_pool (ConnectionPool.release (now e) (URL.host (Request.url req))
                     (URL.port (Request.url req)) (Some l) (pool_ st, mem st)) st)).
Proof.
  intros Hsent Hr Hf. unfold transact.
  destruct (Z.ltb_spec (sent e) 0) as [?|_]; [lia |]. rewrite Hr, Hf. reflexivity.
Qed.

Lemma deref_new (h : list PooledConnection) (cl : list Z) (c : PooledConnection) :
  deref (mkMem (h ++ [c]) cl) (length h) = c.
Proof.
  unfold deref. cbn [heap]. rewrite lookup_app_r by lia. now rewrite Nat.sub_diag.
Qed.

(** X11. Two requests in a row for one host, on a client whose pool has
    room for two more entries and none for the host: the first dials a
    connection and gives it to the pool, the second gets it back from the
    pool when the probe finds it alive. One connection is counted as
    created and one as reused, no descriptor is closed but those the first
    dial closed for addresses that did not connect, one connection object
    exists, and the vector of the host ends with two pointers to it. *)
Theorem second_request_reuses (env : nat -> Exchange) (req : Request.t) (st : t)
    (fd : Z) (m1 : Mem) (r1 r2 : Response.t) :
  let e1 := env (calls st) in
  let e2 := env (S (calls st)) in
  let u := Request.url req in
  let key := (URL.host u, URL.port u, String.eqb (URL.scheme u) "https") in
  let l := length (heap (mem st)) in
  ConnectionPool.pools_ (pool_ st) !! key = None ->
  Z.of_nat (ConnectionPool.stored (ConnectionPool.pools_ (pool_ st))) + 1
    < ConnectionPool.max_connections_ (pool_ st) <= INT_MAX ->
  Request.follow_redirects req = false ->
  gai_ret e1 = 0 ->
  dial (addrs e1) (mem st) = (fd, m1) ->
  0 <= fd ->
  (URL.scheme u = "https" -> handshake_ok e1 = true) ->
  0 <= sent e1 ->
  reply e1 = Ret r1 ->
  ConnectionPool.dead (recv_peek e2 fd) = false ->
  0 <= sent e2 ->
  reply e2 = Ret r2 ->
  exists st1 st2,
    execute_request env req st = (Ret (Response.with_elapsed (elapsed e1) r1), st1)
    /\ execute_request env req st1 = (Ret (Response.with_elapsed (elapsed e2) r2), st2)
    /\ Statistics.connections_created_ (stats_ st2)
       = incr64 (Statistics.connections_created_ (stats_ st))
    /\ Statistics.connections_reused_ (stats_ st2)
       = incr64 (Statistics.connections_reused_ (stats_ st))
    /\ closed (mem st2) = closed m1
    /\ length (heap (mem st2)) = S l
    /\ socket_fd (deref (mem st2) l) = fd
    /\ ConnectionPool.pools_ (pool_ st2) !! key = Some [Some l; Some l].
Proof.
  intros e1 e2 u key l Hk [Hcap Hmax] Hf Hgai Hd Hfd Hhs Hs1 Hr1 Hal Hs2 Hr2.
  pose proof (dial_heap (addrs e1) (mem st)) as Hh. rewrite Hd in Hh.
  cbn [snd] in Hh.
  set (tl := if String.eqb (URL.scheme u) "https"
             then Some (mkTLS fd (URL.host u)) else None).
  assert (Htl : forall t b, has_tls (mkConn fd tl t b) = String.eqb (URL.scheme u) "https").
  { intros t b. unfold has_tls, tl. cbn [tls]. now destruct (String.eqb _ _). }
  (* the first call: a new connection *)
  assert (Hob : exists s1,
    obtain e1 req (enter st)
    = (inl l, mk (pool_ st) s1 (mkMem (heap m1 ++ [mkConn fd tl 0 true]) (closed m1))
                (S (calls st)) (slept st))
    /\ Statistics.connections_created_ s1 = incr64 (Statistics.connections_created_ (stats_ st))
    /\ Statistics.connections_reused_ s1 = Statistics.connections_reused_ (stats_ st)).
  { eexists. split.
    - unfold obtain. cbn [enter pool_ mem calls]. fold u. unfold ConnectionPool.acquire.
      fold key. rewrite Hk. cbn [with_pool with_stats with_mem mem fst snd].
      rewrite dial_guard, Hgai. change (0 =? 0) with true. cbv iota. rewrite Hd.
      destruct (Z.ltb_spec fd 0) as [?|_]; [lia |].
      cbn [alloc with_pool with_stats with_mem mem heap closed].
      unfold l. rewrite <- Hh. unfold tl.
      destruct (String.eqb_spec (URL.scheme u) "https") as [Hs|Hs].
      + rewrite (Hhs Hs).
        cbv [with_stats with_mem with_pool enter store mem heap closed pool_ stats_ calls
             slept fst snd].
        rewrite insert_app_r_alt by lia. rewrite Nat.sub_diag. reflexivity.
      + reflexivity.
    - cbn. split; reflexivity. }
  destruct Hob as (s1 & Hob & Hc1 & Hu1).
  set (st0 := mk (pool_ st) s1 (mkMem (heap m1 ++ [mkConn fd tl 0 true]) (closed m1))
                 (S (calls st)) (slept st)) in *.
  assert (Hl : l = length (heap m1)) by (unfold l; now rewrite Hh).
  assert (Hderef0 : deref (mem st0) l = mkConn fd tl 0 true).
  { unfold st0. cbn [mem]. rewrite Hl. apply deref_new. }
  assert (Hrel1 : ConnectionPool.release (now e1) (URL.host u) (URL.port u) (Some l)
                    (pool_ st0, mem st0)
                  = (ConnectionPool.mk (ConnectionPool.max_connections_ (pool_ st))
                       (ConnectionPool.idle_timeout_ (pool_ st))
                       (<[key := [Some l]]> (ConnectionPool.pools_ (pool_ st))),
                     store l (mkConn fd tl (now e1) false) (mem st0))).
  { rewrite PoolFacts.release_open; rewrite ?Hderef0; cbn [socket_fd tls pool_ st0];
      [| lia | lia | lia].
    cbv zeta. rewrite ?Hderef0, Htl. fold key. rewrite Hk. cbn [default app socket_fd tls].
    destruct (Z.ltb_spec (Z.of_nat (ConnectionPool.stored (ConnectionPool.pools_ (pool_ st))))
                (ConnectionPool.max_connections_ (pool_ st))) as [_|?]; [reflexivity | lia]. }
  set (p1 := ConnectionPool.mk (ConnectionPool.max_connections_ (pool_ st))
               (ConnectionPool.idle_timeout_ (pool_ st))
               (<[key := [Some l]]> (ConnectionPool.pools_ (pool_ st)))) in *.
  set (ma := store l (mkConn fd tl (now e1) false) (mem st0)) in *.
  set (sa := Statistics.record_request (Response.bytes_received r1) s1).
  set (st1 := mk p1 sa ma (S (calls st)) (slept st)).
  assert (E1 : execute_request env req st = (Ret (Response.with_elapsed (elapsed e1) r1), st1)).
  { apply execute_request_done. fold e1. unfold attempt. rewrite Hob.
    rewrite (transact_ok e1 req l st0 r1 Hs1 Hr1 Hf). fold u. rewrite Hrel1. reflexivity. }
  assert (Hlen0 : (l < length (heap (mem st0)))%nat).
  { unfold st0. cbn [mem heap]. rewrite length_app. cbn [length]. lia. }
  assert (Hderef1 : deref ma l = mkConn fd tl (now e1) false).
  { unfold ma. now apply PoolLifecycle.deref_store_eq. }
  (* the second call: the pooled connection *)
  assert (Hacq : ConnectionPool.acquire (recv_peek e2) (now e2) (URL.host u) (URL.port u)
                   (String.eqb (URL.scheme u) "https") (p1, ma)
                 = (Some l, (p1, store l (mkConn fd tl (now e2) true) ma))).
  { rewrite (PoolLifecycle.acquire_last _ _ _ _ _ p1 ma [] l); rewrite ?Hderef1; cbn [in_use socket_fd tls];
      [| unfold p1; cbn [ConnectionPool.pools_]; fold key; now rewrite lookup_insert_eq
       | reflexivity | exact Hal].
    unfold p1 at 3. cbn [ConnectionPool.pools_ app]. fold key.
    rewrite insert_insert_eq. reflexivity. }
  set (mb := store l (mkConn fd tl (now e2) true) ma) in *.
  assert (Hlena : (l < length (heap ma))%nat).
  { unfold ma, store. cbn [heap]. now rewrite length_insert. }
  assert (Hderef2 : deref mb l = mkConn fd tl (now e2) true).
  { unfold mb. now apply PoolLifecycle.deref_store_eq. }
  set (sb := Statistics.record_connection true
               (Statistics.record_tcp_handshake (Statistics.record_dns_lookup true sa))).
  set (stb := mk p1 sb mb (S (S (calls st))) (slept st)).
  assert (Hob2 : obtain e2 req (enter st1) = (inl l, stb)).
  { unfold obtain. cbn [enter pool_ mem calls st1]. fold u. rewrite Hacq. reflexivity. }
  assert (Hstored1 : ConnectionPool.stored (ConnectionPool.pools_ p1)
                     = S (ConnectionPool.stored (ConnectionPool.pools_ (pool_ st)))).
  { unfold p1. cbn [ConnectionPool.pools_].
    rewrite PoolFacts.stored_insert_fresh by exact Hk. reflexivity. }
  assert (Hrel2 : ConnectionPool.release (now e2) (URL.host u) (URL.port u) (Some l)
                    (p1, mb)
                  = (ConnectionPool.mk (ConnectionPool.max_connections_ (pool_ st))
                       (ConnectionPool.idle_timeout_ (pool_ st))
                       (<[key := [Some l; Some l]]> (ConnectionPool.pools_ p1)),
                     store l (mkConn fd tl (now e2) false) mb)).
  { rewrite PoolFacts.release_open; rewrite ?Hderef2, ?Hstored1;
      cbn [socket_fd tls p1 ConnectionPool.max_connections_]; [| lia | lia | lia].
    cbv zeta. rewrite ?Hderef2, Htl, ?Hstored1. fold key.
    cbn [ConnectionPool.pools_ ConnectionPool.max_connections_ ConnectionPool.idle_timeout_
         socket_fd tls].
    assert (Hp1k : ConnectionPool.pools_ p1 !! key = Some [Some l])
      by (unfold p1; cbn [ConnectionPool.pools_]; apply lookup_insert_eq).
    rewrite Hp1k. cbn [default app].
    change (ConnectionPool.idle_timeout_ p1)
      with (ConnectionPool.idle_timeout_ (pool_ st)).
    destruct (Z.ltb_spec (Z.of_nat (S (ConnectionPool.stored (ConnectionPool.pools_ (pool_ st)))))
                (ConnectionPool.max_connections_ (pool_ st))) as [_|?]; [reflexivity | lia]. }
  set (st2 := with_stats (Statistics.record_request (Response.bytes_received r2))
                (with_pool (ConnectionPool.release (now e2) (URL.host u) (URL.port u) (Some l)
                              (p1, mb)) stb)).
  assert (E2 : execute_request env req st1 = (Ret (Response.with_elapsed (elapsed e2) r2), st2)).
  { apply execute_request_done. change (calls st1) with (S (calls st)). fold e2.
    unfold attempt. rewrite Hob2.
    rewrite (transact_ok e2 req l stb r2 Hs2 Hr2 Hf). reflexivity. }
  exists st1, st2. split; [exact E1 |]. split; [exact E2 |].
  unfold st2. rewrite Hrel2.
  cbn [with_stats with_pool stats_ mem pool_ fst snd stb sb sa
       Statistics.record_request Statistics.record_connection
       Statistics.record_tcp_handshake Statistics.record_dns_lookup
       Statistics.connections_created_ Statistics.connections_reused_
       ConnectionPool.pools_].
  split; [exact Hc1 |]. split; [now rewrite Hu1 |].
  assert (Hlenb : (l < length (heap mb))%nat).
  { unfold mb, store. cbn [heap]. now rewrite length_insert. }
  split; [reflexivity |]. split.
  { unfold store, mb, ma, store, st0. cbn [heap mem]. rewrite !length_insert, length_app.
    cbn [length]. lia. }
  split; [now rewrite PoolLifecycle.deref_store_eq |].
  now rewrite lookup_insert_eq.
Qed.

(** X12. [get] and [post] on a text without ["://"] return a response of
    status 0 and leave the client as it was: no exchange is made. *)
Theorem get_post_invalid_url (default_timeout : Z) (env : nat -> Exchange) (url : string)
    (data : list Byte.byte) (st : t) :
  ~ has_separator url ->
  HTTPClient.get default_timeout env url st = (Ret (Response.failed 0), st)
  /\ HTTPClient.post default_timeout env url data st = (Ret (Response.failed 0), st).
Proof.
  intros Hno. apply URLFacts.parse_absent_iff in Hno.
  unfold HTTPClient.get, HTTPClient.post. now rewrite Hno.
Qed.

(** X13. [get] and [post] on a URL that parses make exactly one exchange,
    whatever the server answers: they follow no redirect and retry
    nothing. *)
Theorem get_post_one_exchange (default_timeout : Z) (env : nat -> Exchange) (url : string)
    (u : URL.t) (data : list Byte.byte) (st : t) :
  URL.parse url = Ret (Some u) ->
  calls (HTTPClient.get default_timeout env url st).2 = S (calls st)
  /\ calls (HTTPClient.post default_timeout env url data st).2 = S (calls st).
Proof.
  intros Hu. unfold HTTPClient.get, HTTPClient.post. rewrite Hu.
  unfold execute_request.
  repeat split;
    apply execute_request_rec_calls; cbn [Request.max_redirects Request.follow_redirects];
    (lia || reflexivity).
Qed.

(** X14. When a connection is dialled and the response cannot be parsed,
    the exception leaves [execute_request] with the socket neither closed
    nor given to the pool; no error is recorded. *)
Theorem exception_leaks_socket (env : nat -> Exchange) (req : Request.t) (st : t) (x : exn) :
  let e := env (calls st) in
  let u := Request.url req in
  let use_tls := String.eqb (URL.scheme u) "https" in
  let acq := ConnectionPool.acquire (recv_peek e) (now e) (URL.host u) (URL.port u)
               use_tls (pool_ st, mem st) in
  let d := dial (addrs e) acq.2.2 in
  acq.1 = None ->
  gai_ret e = 0 ->
  0 <= d.1 ->
  (use_tls = true -> handshake_ok e = true) ->
  0 <= sent e ->
  reply e = Throw x ->
  exists st',
    execute_request env req st = (Throw x, st')
    /\ pool_ st' = acq.2.1
    /\ closed (mem st') = closed d.2
    /\ socket_fd (deref (mem st') (length (heap (mem st)))) = d.1
    /\ Statistics.total_errors_ (stats_ st') = Statistics.total_errors_ (stats_ st).
Proof.
  intros e u use_tls.
  assert (Euse : String.eqb (URL.scheme u) "https" = use_tls) by reflexivity.
  clearbody use_tls. intros acq.
  assert (Eacq : ConnectionPool.acquire (recv_peek e) (now e) (URL.host u) (URL.port u)
                   use_tls (pool_ st, mem st) = acq) by reflexivity.
  assert (Hheap : acq.1 = None -> heap acq.2.2 = heap (mem st)).
  { intros Hn. pose proof (PoolLifecycle.acquire_spec (recv_peek e) (now e) (URL.host u)
                             (URL.port u) use_tls (pool_ st, mem st)) as Hs.
    cbv zeta in Hs. rewrite Eacq, Hn in Hs. apply Hs. }
  clearbody acq. destruct acq as [conn pm]. intros d.
  assert (Ed : dial (addrs e) pm.2 = d) by reflexivity.
  pose proof (dial_heap (addrs e) pm.2) as Hdh. rewrite Ed in Hdh.
  clearbody d. destruct d as [fd m1]. cbn [fst snd] in *. intros -> Hgai Hfd Hhs Hsent Hr.
  specialize (Hheap eq_refl).
  assert (Hat : exists st',
              attempt e req (enter st) = (Done (Throw x), st')
              /\ pool_ st' = pm.1
              /\ closed (mem st') = closed m1
              /\ (heap (mem st') = heap m1 ++ [mkConn fd None 0 true]
                  \/ exists tl, heap (mem st') = heap m1 ++ [mkConn fd (Some tl) 0 true])%list
              /\ Statistics.total_errors_ (stats_ st') = Statistics.total_errors_ (stats_ st)).
  { unfold attempt, obtain. cbn [enter pool_ mem calls].
    fold e u. rewrite Euse, Eacq.
    cbn [with_pool with_stats with_mem mem]. rewrite dial_guard, Hgai.
    change (0 =? 0) with true. cbv iota. rewrite Ed.
    destruct (Z.ltb_spec fd 0) as [?|_]; [lia |].
    cbn [alloc]. cbn [with_pool with_stats with_mem mem].
    destruct use_tls.
    - rewrite (Hhs eq_refl). unfold transact.
      destruct (Z.ltb_spec (sent e) 0) as [?|_]; [lia |]. rewrite Hr.
      eexists. split; [reflexivity |].
      cbn [pool_ mem stats_ with_stats with_mem with_pool heap closed enter close store
           fst snd Statistics.record_connection Statistics.record_tcp_handshake
           Statistics.record_dns_lookup Statistics.total_errors_].
      repeat split. right. eexists.
      rewrite insert_app_r_alt by lia. rewrite Nat.sub_diag. reflexivity.
    - unfold transact.
      destruct (Z.ltb_spec (sent e) 0) as [?|_]; [lia |]. rewrite Hr.
      eexists. split; [reflexivity |].
      cbn [pool_ mem stats_ with_stats with_mem with_pool heap closed enter close store
           fst snd Statistics.record_connection Statistics.record_tcp_handshake
           Statistics.record_dns_lookup Statistics.total_errors_].
      repeat split. now left. }
  destruct Hat as (st' & Ha & Hp & Hc & Hh & Hs).
  exists st'. split; [now apply execute_request_done |].
  split; [exact Hp |]. split; [exact Hc |]. split; [|exact Hs].
  rewrite <- Hheap, <- Hdh. unfold deref.
  destruct Hh as [-> | [tl ->]]; rewrite lookup_app_r by lia; now rewrite Nat.sub_diag.
Qed.

Lemma connect_failure_witness :
  exists st',
    execute_request unreachable request_with_retries make = (Ret (Response.failed 7), st')
    /\ closed (mem st') = [3; 4].
Proof.
  destruct (connect_failure unreachable request_with_retries make)
    as (st' & E & _ & _ & Hc & _).
  - reflexivity.
  - right. repeat constructor.
  - exists st'. split; [exact E | exact Hc].
Defined.

Lemma tls_handshake_failure_witness :
  exists st',
    execute_request handshake_fails request_https make = (Ret (Response.failed 7), st')
    /\ closed (mem st') = [3].
Proof.
  destruct (tls_handshake_failure handshake_fails request_https make)
    as (st' & E & _ & Hc & _); try reflexivity.
  - cbn. lia.
  - exists st'. split; [exact E | exact Hc].
Defined.

Lemma second_request_reuses_witness :
  exists st1 st2,
    execute_request always_503 request_with_retries make
    = (Ret (Response.with_elapsed 5 response_503), st1)
    /\ execute_request always_503 request_with_retries st1
       = (Ret (Response.with_elapsed 5 response_503), st2)
    /\ Statistics.connections_created_ (stats_ st2) = 1
    /\ Statistics.connections_reused_ (stats_ st2) = 1
    /\ ConnectionPool.pools_ (pool_ st2) !! ("example.com", 80, false)
       = Some [Some O; Some O].
Proof.
  destruct (second_request_reuses always_503 request_with_retries make 3 (mkMem [] [])
              response_503 response_503)
    as (st1 & st2 & E1 & E2 & Hc & Hr & _ & _ & _ & Hp); try reflexivity.
  - vm_compute. split; [reflexivity | discriminate].
  - lia.
  - cbn. lia.
  - cbn. lia.
  - exists st1, st2. repeat split; assumption.
Defined.

Lemma exception_leaks_socket_witness :
  exists st',
    execute_request garbled request_with_retries make = (Throw invalid_argument, st')
    /\ closed (mem st') = []
    /\ ConnectionPool.pools_ (pool_ st') = ∅.
Proof.
  destruct (exception_leaks_socket garbled request_with_retries make invalid_argument)
    as (st' & E & Hp & Hc & _); try reflexivity; try (cbn; lia); try discriminate.
  exists st'. split; [exact E |]. split; [exact Hc |]. rewrite Hp. reflexivity.
Defined.

Lemma get_post_invalid_url_witness :
  HTTPClient.get 30000 always_503 "example.com/index.html" make
  = (Ret (Response.failed 0), make).
Proof.
  apply (get_post_invalid_url 30000 always_503 "example.com/index.html" [] make).
  apply URLFacts.parse_absent_iff. reflexivity.
Defined.

Lemma get_post_one_exchange_witness :
  calls (HTTPClient.get 30000 always_503 "http://example.com/" make).2 = 1%nat.
Proof.
  apply (get_post_one_exchange 30000 always_503 "http://example.com/"
           (URL.mk "http" "example.com" 80 "/" "") [] make).
  reflexivity.
Defined.

End ExecutorPaths.

(** ** The batch executor for every list of requests *)

Module BatchOrder.
Import Batch.
Section Batch.
Variable run_request : Request.t -> Response.t.

Lemma launch_one (req : Request.t) (rest : list Request.t) :
  launch run_request 1 [] (req :: rest) = ([run_request req], rest).
Proof. cbn [launch length]. cbn. now destruct rest. Qed.

Lemma batch_loop_one (fuel : nat) (responses : list Response.t)
    (rest : list Request.t) (req : Request.t) :
  (length rest + 1 < fuel)%nat ->
  (0 < length responses)%nat ->
  batch_loop run_request fuel 1 responses [] (rest ++ [req])
  = Some (<[(length responses - 1)%nat := run_request req]> responses, []).
Proof.
  revert responses rest; induction fuel as [|fuel IH]; intros responses rest Hf Hr; [lia |].
  destruct rest as [|r rest].
  - cbn [app batch_loop]. rewrite launch_one. cbn [length].
    destruct fuel; [cbn in Hf; lia |]. reflexivity.
  - change ((r :: rest) ++ [req])%list with (r :: (rest ++ [req]))%list.
    cbn [batch_loop]. rewrite launch_one. cbn [length].
    rewrite IH; [| cbn [length] in Hf; lia | rewrite length_insert; lia].
    rewrite length_insert. now rewrite list_insert_insert_eq.
Qed.

(** X15. With a parallelism of one, [batch_request] keeps only the
    response of the last request, in the last slot; every other slot holds
    an empty response. *)
Theorem batch_one_at_a_time (rest : list Request.t) (req : Request.t) :
  batch_request run_request (rest ++ [req]) 1
  = Some (replicate (length rest) Response.empty ++ [run_request req])%list.
Proof.
  unfold batch_request. change (size_of_int 1) with 1.
  rewrite length_app. cbn [length].
  rewrite batch_loop_one; [| lia | rewrite length_replicate; lia].
  unfold drain. cbn [fold_left]. f_equal.
  rewrite length_replicate.
  replace (length rest + 1 - 1)%nat with (length rest) by lia.
  replace (length rest + 1)%nat with (S (length rest)) by lia.
  rewrite replicate_S_end.
  rewrite insert_app_r_alt by (rewrite length_replicate; lia).
  rewrite length_replicate, Nat.sub_diag. reflexivity.
Qed.

Lemma launch_all (max_parallel : Z) (futures : list Response.t)
    (pending : list Request.t) :
  Z.of_nat (length futures + length pending) <= max_parallel ->
  launch run_request max_parallel futures pending
  = ((futures ++ List.map run_request pending)%list, []).
Proof.
  revert futures; induction pending as [|req rest IH]; intros futures Hle; cbn [launch].
  - now rewrite app_nil_r.
  - cbn [length] in Hle.
    destruct (Z.ltb_spec (Z.of_nat (length futures)) max_parallel); [|lia].
    rewrite IH by (rewrite length_app; cbn [length]; lia).
    now rewrite <- app_assoc.
Qed.

Lemma last_cons (A : Type) (l : list A) (x d : A) :
  List.last (x :: l) d = List.last l x.
Proof.
  revert x d; induction l as [|y l IH]; intros x d; [reflexivity |].
  change (List.last (x :: y :: l) d) with (List.last (y :: l) d).
  now rewrite !IH.
Qed.

Lemma drain_last (responses : list Response.t) (i : nat) (r : Response.t)
    (futures : list Response.t) :
  fold_left (fun rs x => <[i := x]> rs) (r :: futures) responses
  = <[i := List.last futures r]> responses.
Proof.
  revert r responses; induction futures as [|x futures IH]; intros r responses.
  - reflexivity.
  - change (fold_left (fun rs x => <[i := x]> rs) (r :: x :: futures) responses)
      with (fold_left (fun rs x => <[i := x]> rs) (x :: futures) (<[i := r]> responses)).
    rewrite IH, list_insert_insert_eq. now rewrite last_cons.
Qed.

Lemma last_map (A B : Type) (f : A -> B) (l : list A) (d : A) :
  List.last (List.map f l) (f d) = f (List.last l d).
Proof.
  revert d; induction l as [|x l IH]; intros d; [reflexivity |].
  cbn [List.map]. rewrite !last_cons. apply IH.
Qed.

(** X16. When the parallelism is at least the number of requests,
    [batch_request] stores the first response in the first slot and the
    last response in the second; every other slot holds an empty
    response. *)
Theorem batch_all_at_once (a b : Request.t) (rest : list Request.t) (max_parallel : Z) :
  Z.of_nat (length rest) + 2 <= size_of_int max_parallel ->
  batch_request run_request (a :: b :: rest) max_parallel
  = Some (run_request a :: run_request (List.last rest b)
            :: replicate (length rest) Response.empty).
Proof.
  intros HP. unfold batch_request.
  set (n := length rest) in *.
  change (length (a :: b :: rest)) with (S (S n)).
  cbn [batch_loop replicate].
  rewrite launch_all by (cbn [length]; fold n; lia).
  cbn [app List.map length]. rewrite length_replicate, length_map. fold n.
  rewrite Nat.sub_diag. cbn [insert list_insert].
  unfold drain. cbn [length]. rewrite length_replicate, length_map. fold n.
  replace (S (S n) - S n)%nat with 1%nat by lia.
  rewrite drain_last. cbn [insert list_insert]. now rewrite last_map.
Qed.

(** Without parallelism the outer loop makes no progress. *)
Lemma batch_loop_stuck (fuel : nat) (responses : list Response.t) (req : Request.t)
    (rest : list Request.t) :
  batch_loop run_request fuel 0 responses [] (req :: rest) = None.
Proof.
  induction fuel as [|fuel IH]; [reflexivity |].
  cbn [batch_loop launch length]. exact IH.
Qed.

(** X17. On a list of requests that is not empty [batch_request] returns,
    with as many responses as requests, exactly when the parallelism, as a
    [size_t], is not zero; when it is zero the outer loop never ends. *)
Theorem batch_needs_parallelism (requests : list Request.t) (max_parallel : Z) :
  requests <> [] ->
  if size_of_int max_parallel =? 0
  then forall fuel responses,
         batch_loop run_request fuel (size_of_int max_parallel) responses [] requests = None
  else exists responses,
         batch_request run_request requests max_parallel = Some responses
         /\ length responses = length requests.
Proof.
  intros Hne. destruct (Z.eqb_spec (size_of_int max_parallel) 0) as [-> | Hp].
  - intros fuel responses. destruct requests as [|req rest]; [contradiction |].
    apply batch_loop_stuck.
  - apply BatchFacts.batch_request_returns.
    pose proof (Z.mod_pos_bound max_parallel (SIZE_MAX + 1) ltac:(unfold SIZE_MAX; lia)).
    unfold size_of_int in *. lia.
Qed.

End Batch.

Lemma batch_all_at_once_witness :
  batch_request (fun req => Response.failed (Request.timeout req))
    [Request.make (URL.mk "http" "a.example" 80 "/" "");
     request_with_retries;
     Request.mk "HEAD" (URL.mk "http" "c.example" 80 "/" "") ∅ [] 5000 false 10 true true
       0 1000 true] 3
  = Some [Response.failed 30000; Response.failed 5000; Response.empty].
Proof.
  apply (batch_all_at_once (fun req => Response.failed (Request.timeout req))
           (Request.make (URL.mk "http" "a.example" 80 "/" "")) request_with_retries
           [Request.mk "HEAD" (URL.mk "http" "c.example" 80 "/" "") ∅ [] 5000 false 10 true
              true 0 1000 true] 3).
  vm_compute. discriminate.
Defined.

Lemma batch_needs_parallelism_witness :
  batch_loop (fun req => Response.failed (Request.timeout req)) 1000 (size_of_int 0)
    [Response.empty] [] [request_with_retries]
  = None.
Proof.
  apply (batch_needs_parallelism (fun req => Response.failed (Request.timeout req))
           [request_with_retries] 0).
  discriminate.
Defined.

End BatchOrder.

(** ** The segmented download as a whole *)

Module DownloadAssembly.
Import Download.

Lemma part_eventually (fetch : Z -> nat -> Request.t -> Response.t) (req : Request.t)
    (i : Z) (bytes : list Byte.byte) :
  eventually_206 fetch req i bytes -> part fetch req i = bytes.
Proof.
  intros (k & Hk & Hbefore & H206 & Hbody). unfold part.
  assert (Hw : worker_loop (fetch i) req 2 0 = fetch i k req).
  { cbn [worker_loop].
    destruct k as [|[|[|k]]]; [| | |lia].
    - now rewrite H206.
    - destruct (Z.eqb_spec (Response.status_code (fetch i 0%nat req)) 206) as [E|_];
        [exfalso; apply (Hbefore 0%nat); [lia | exact E] |].
      now rewrite H206.
    - destruct (Z.eqb_spec (Response.status_code (fetch i 0%nat req)) 206) as [E|_];
        [exfalso; apply (Hbefore 0%nat); [lia | exact E] |].
      destruct (Z.eqb_spec (Response.status_code (fetch i 1%nat req)) 206) as [E|_];
        [exfalso; apply (Hbefore 1%nat); [lia | exact E] |].
      reflexivity. }
  rewrite Hw, H206. exact Hbody.
Qed.

Lemma concat_prefix (data : list Byte.byte) (size : nat) (j : nat) :
  List.concat (List.map (fun i => take size (drop (i * size) data)) (seq 0 j))
  = take (j * size) data.
Proof.
  induction j as [|j IH]; [reflexivity |].
  rewrite seq_S, List.map_app, concat_app, IH. cbn [List.map List.concat Nat.add].
  rewrite app_nil_r, take_take_drop. f_equal. lia.
Qed.

Section Tiling.
Variables (data : list Byte.byte) (content_length num_pipes size : Z).
Hypothesis Hlength : content_length = Z.of_nat (length data).
Hypothesis Hpipes : 2 <= num_pipes.
Hypothesis Hsize : 1 <= size.
Hypothesis Hfit : num_pipes * size <= content_length.

#[local] Abbreviation range :=
  (fun i : nat => served_range data (range_first size (Z.of_nat i))
                    (range_last content_length num_pipes size (Z.of_nat i))).

(** The ranges of the first [k] workers tile the first [k * size] bytes;
    those of all workers tile the resource. *)
Lemma ranges_prefix (k : nat) :
  Z.of_nat k < num_pipes ->
  List.concat (List.map range (seq 0 k)) = take (k * Z.to_nat size) data.
Proof.
  intros Hk.
  rewrite (List.map_ext_in _
             (fun i => take (Z.to_nat size) (drop (i * Z.to_nat size) data))).
  - apply concat_prefix.
  - intros i Hi. apply in_seq in Hi.
    cbv beta. unfold served_range, range_first, range_last.
    replace (Z.of_nat i =? num_pipes - 1) with false by (symmetry; apply Z.eqb_neq; lia).
    f_equal; [|f_equal]; nia.
Qed.

Lemma range_to_end :
  range (Z.to_nat (num_pipes - 1)) = drop (Z.to_nat (num_pipes - 1) * Z.to_nat size) data.
Proof.
  cbv beta. unfold served_range, range_first, range_last.
  replace (Z.of_nat (Z.to_nat (num_pipes - 1))) with (num_pipes - 1) by lia.
  rewrite Z.eqb_refl.
  replace (Z.to_nat ((num_pipes - 1) * size))
    with (Z.to_nat (num_pipes - 1) * Z.to_nat size)%nat by nia.
  apply take_ge. rewrite length_drop. nia.
Qed.

Lemma ranges_all : List.concat (List.map range (seq 0 (Z.to_nat num_pipes))) = data.
Proof.
  replace (Z.to_nat num_pipes) with (S (Z.to_nat (num_pipes - 1))) by lia.
  rewrite seq_S, List.map_app, concat_app. cbn [List.map List.concat Nat.add].
  rewrite app_nil_r, ranges_prefix by lia.
  rewrite range_to_end. apply take_drop.
Qed.

Lemma ranges_suffix (j : nat) :
  Z.of_nat j < num_pipes ->
  List.concat (List.map range (seq (S j) (Z.to_nat num_pipes - S j)))
  = drop (Z.to_nat (range_last content_length num_pipes size (Z.of_nat j) + 1)) data.
Proof.
  intros Hj. unfold range_last.
  destruct (Z.eqb_spec (Z.of_nat j) (num_pipes - 1)) as [Hlast | Hmid].
  - replace (Z.to_nat num_pipes - S j)%nat with O by lia. cbn [seq List.map List.concat].
    rewrite drop_ge; [reflexivity |]. lia.
  - pose proof ranges_all as Hall.
    replace (Z.to_nat num_pipes) with (S j + (Z.to_nat num_pipes - S j))%nat in Hall by lia.
    rewrite seq_app, List.map_app, concat_app in Hall.
    rewrite ranges_prefix in Hall by lia.
    cbn [Nat.add] in Hall.
    replace (Z.to_nat ((Z.of_nat j + 1) * size - 1 + 1)) with (S j * Z.to_nat size)%nat
      by nia.
    apply (app_inv_head (take (S j * Z.to_nat size) data)).
    rewrite take_drop. exact Hall.
Qed.

End Tiling.

Lemma part_failed (fetch : Z -> nat -> Request.t -> Response.t) (req : Request.t) (i : Z) :
  (forall k, (k < 3)%nat -> Response.status_code (fetch i k req) <> 206) ->
  part fetch req i = [].
Proof.
  intros Hno. unfold part. cbn [worker_loop].
  destruct (Z.eqb_spec (Response.status_code (fetch i 0%nat req)) 206) as [E|_];
    [exfalso; apply (Hno 0%nat); [lia | exact E] |].
  destruct (Z.eqb_spec (Response.status_code (fetch i 1%nat req)) 206) as [E|_];
    [exfalso; apply (Hno 1%nat); [lia | exact E] |].
  destruct (Z.eqb_spec (Response.status_code (fetch i 2%nat req)) 206) as [E|_];
    [exfalso; apply (Hno 2%nat); [lia | exact E] | reflexivity].
Qed.

(** X18. When the resource has at least as many bytes as there are pipes and
    every worker gets, among its three tries, a 206 response with the bytes
    of its range, [parallel_download] returns the resource. *)
Theorem download_reassembles (fetch : Z -> nat -> Request.t -> Response.t)
    (url_str : string) (u : URL.t) (data : list Byte.byte) (num_pipes : Z)
    (method : string) (extra_headers : gmap string string) (max_time : Z)
    (no_compress : bool) :
  let content_length := Z.of_nat (length data) in
  let size := content_length / num_pipes in
  2 <= num_pipes ->
  num_pipes <= content_length <= SIZE_MAX ->
  URL.parse url_str = Ret (Some u) ->
  (forall i, 0 <= i < num_pipes ->
     eventually_206 fetch
       (segment_request u method extra_headers max_time no_compress size num_pipes i) i
       (served_range data (range_first size i)
          (range_last content_length num_pipes size i))) ->
  parallel_download fetch url_str content_length num_pipes method extra_headers
    max_time no_compress
  = Ret data.
Proof.
  intros content_length size HN HCL Hparse Hserved.
  assert (Hsize : 1 <= size) by (unfold size; apply Z.div_le_lower_bound; lia).
  assert (Hmul : num_pipes * size <= content_length)
    by (unfold size; apply Z.mul_div_le; lia).
  unfold parallel_download.
  destruct (Z.ltb_spec num_pipes 2) as [?|_]; [lia |].
  destruct (Z.eqb_spec content_length 0) as [?|_]; [lia |].
  cbn [orb]. rewrite Hparse. f_equal. fold size.
  unfold indices. rewrite List.map_map.
  rewrite <- (ranges_all data content_length num_pipes size eq_refl HN Hsize Hmul) at 1.
  f_equal.
  apply List.map_ext_in. intros i Hi. apply in_seq in Hi.
  apply part_eventually. apply Hserved. lia.
Qed.

(** X19. When one worker gets no 206 response in its three tries and every
    other worker gets the bytes of its range, [parallel_download] returns
    the resource without the bytes of the failed range, and reports
    nothing. *)
Theorem failed_segment_is_skipped (fetch : Z -> nat -> Request.t -> Response.t)
    (url_str : string) (u : URL.t) (data : list Byte.byte) (num_pipes j : Z)
    (method : string) (extra_headers : gmap string string) (max_time : Z)
    (no_compress : bool) :
  let content_length := Z.of_nat (length data) in
  let size := content_length / num_pipes in
  let req i := segment_request u method extra_headers max_time no_compress size num_pipes i in
  2 <= num_pipes ->
  num_pipes <= content_length <= SIZE_MAX ->
  URL.parse url_str = Ret (Some u) ->
  0 <= j < num_pipes ->
  (forall k, (k < 3)%nat -> Response.status_code (fetch j k (req j)) <> 206) ->
  (forall i, 0 <= i < num_pipes -> i <> j ->
     eventually_206 fetch (req i) i
       (served_range data (range_first size i)
          (range_last content_length num_pipes size i))) ->
  parallel_download fetch url_str content_length num_pipes method extra_headers
    max_time no_compress
  = Ret (take (Z.to_nat (range_first size j)) data
         ++ drop (Z.to_nat (range_last content_length num_pipes size j + 1)) data)%list.
Proof.
  intros content_length size req HN HCL Hparse Hj Hfail Hserved.
  subst req. cbv beta in Hfail, Hserved.
  assert (Hsize : 1 <= size) by (unfold size; apply Z.div_le_lower_bound; lia).
  assert (Hmul : num_pipes * size <= content_length)
    by (unfold size; apply Z.mul_div_le; lia).
  unfold parallel_download.
  destruct (Z.ltb_spec num_pipes 2) as [?|_]; [lia |].
  destruct (Z.eqb_spec content_length 0) as [?|_]; [lia |].
  cbn [orb]. rewrite Hparse. f_equal. fold size.
  unfold indices. rewrite List.map_map.
  set (jn := Z.to_nat j).
  replace (Z.to_nat num_pipes) with (jn + S (Z.to_nat num_pipes - S jn))%nat by lia.
  rewrite seq_app, List.map_app, concat_app. cbn [Nat.add seq List.map List.concat].
  replace (Z.of_nat jn) with j by lia.
  rewrite (part_failed fetch _ j Hfail). cbn [app].
  f_equal.
  - replace (Z.to_nat (range_first size j)) with (jn * Z.to_nat size)%nat
      by (unfold range_first; nia).
    rewrite <- (ranges_prefix data content_length num_pipes size HN Hsize jn) by lia.
    f_equal.
    apply List.map_ext_in. intros i Hi. apply in_seq in Hi.
    apply part_eventually. apply Hserved; lia.
  - replace (range_last content_length num_pipes size j)
      with (range_last content_length num_pipes size (Z.of_nat jn)) by (f_equal; lia).
    rewrite <- (ranges_suffix data content_length num_pipes size eq_refl HN Hsize Hmul jn)
      by lia.
    f_equal.
    apply List.map_ext_in. intros i Hi. apply in_seq in Hi.
    apply part_eventually. apply Hserved; lia.
Qed.

Lemma download_reassembles_witness :
  parallel_download (serves [Byte.x00; Byte.x01; Byte.x02; Byte.x03; Byte.x04] 2)
    "http://example.com/file" 5 2 "GET" ∅ 30 false
  = Ret [Byte.x00; Byte.x01; Byte.x02; Byte.x03; Byte.x04].
Proof.
  apply (download_reassembles
           (serves [Byte.x00; Byte.x01; Byte.x02; Byte.x03; Byte.x04] 2)
           "http://example.com/file" (URL.mk "http" "example.com" 80 "/file" "")
           [Byte.x00; Byte.x01; Byte.x02; Byte.x03; Byte.x04] 2 "GET" ∅ 30 false).
  - lia.
  - cbn [length]. unfold SIZE_MAX. lia.
  - reflexivity.
  - intros i Hi. exists 0%nat. split; [lia |]. split; [intros j Hj; lia |].
    split; reflexivity.
Defined.

Lemma failed_segment_is_skipped_witness :
  parallel_download
    (fun i k req =>
       if i =? 1 then Response.failed 0
       else serves [Byte.x00; Byte.x01; Byte.x02; Byte.x03; Byte.x04; Byte.x05] 3 i k req)
    "http://example.com/file" 6 3 "GET" ∅ 30 false
  = Ret [Byte.x00; Byte.x01; Byte.x04; Byte.x05].
Proof.
  apply (failed_segment_is_skipped
           (fun i k req =>
              if i =? 1 then Response.failed 0
              else serves [Byte.x00; Byte.x01; Byte.x02; Byte.x03; Byte.x04; Byte.x05] 3 i k req)
           "http://example.com/file" (URL.mk "http" "example.com" 80 "/file" "")
           [Byte.x00; Byte.x01; Byte.x02; Byte.x03; Byte.x04; Byte.x05] 3 1 "GET" ∅ 30 false).
  - lia.
  - cbn [length]. unfold SIZE_MAX. lia.
  - reflexivity.
  - lia.
  - intros k Hk. cbn. discriminate.
  - intros i Hi Hne. exists 0%nat. split; [lia |]. split; [intros j Hj; lia |].
    destruct (Z.eqb_spec i 1) as [?|_]; [contradiction |]. split; reflexivity.
Defined.

End DownloadAssembly.

(** ** The DNS cache: keys, failed resolutions and counters *)

Module DNSCacheEntries.
Import DNSCache.

Lemma key_split (h1 h2 s1 s2 : string) :
  Str.mem ":" s1 = false ->
  Str.mem ":" s2 = false ->
  h1 +:+ ":" +:+ s1 = h2 +:+ ":" +:+ s2 ->
  h1 = h2 /\ s1 = s2.
Proof.
  intros H1 H2. revert h2; induction h1 as [|c h1 IH]; intros [|c' h2];
    rewrite ?StrFacts.app_cons, ?StrFacts.app_nil_l; intros E.
  - injection E as ->. now split.
  - injection E as <- ->. exfalso.
    rewrite StrFacts.mem_app in H1. cbn in H1.
    rewrite orb_true_r in H1. discriminate.
  - injection E as -> <-. exfalso.
    rewrite StrFacts.mem_app in H2. cbn in H2.
    rewrite orb_true_r in H2. discriminate.
  - injection E as -> E. destruct (IH _ E) as [-> ->]. now split.
Qed.

Lemma make_key_inj (host host' : string) (port port' : Z) :
  INT_MIN <= port <= INT_MAX ->
  INT_MIN <= port' <= INT_MAX ->
  make_key host port = make_key host' port' ->
  host = host' /\ port = port'.
Proof.
  intros Hp Hp' E. unfold make_key in E.
  apply key_split in E; try (apply URLFacts.mem_int_to_string; reflexivity).
  destruct E as [-> E]. split; [reflexivity |].
  pose proof (NumFacts.stoi_to_string port Hp) as H1.
  pose proof (NumFacts.stoi_to_string port' Hp') as H2.
  rewrite E in H1. congruence.
Qed.

Lemma resolve_other_key (host : string) (port : Z) (env : sys) (c : t) (key : string) :
  key <> make_key host port ->
  cache_ (resolve host port env c).2 !! key = cache_ c !! key.
Proof.
  intros Hne. unfold resolve.
  destruct (cache_ c !! make_key host port) as [e|] eqn:E.
  - destruct (fresh (now_lookup env) e); [reflexivity |].
    cbn [snd cache_]. destruct (resolved env).
    + now rewrite lookup_delete_ne.
    + rewrite lookup_insert_ne by congruence. now rewrite lookup_delete_ne.
  - cbn [snd cache_]. destruct (resolved env); [reflexivity |].
    now rewrite lookup_insert_ne.
Qed.

(** X20. The cache keys of two different pairs of host and port differ,
    so a [resolve] for one pair leaves the entry of the other as it is. *)
Theorem resolve_keeps_other_entries (host host' : string) (port port' : Z)
    (env : sys) (c : t) :
  INT_MIN <= port <= INT_MAX ->
  INT_MIN <= port' <= INT_MAX ->
  (host, port) <> (host', port') ->
  cache_ (resolve host' port' env c).2 !! make_key host port
  = cache_ c !! make_key host port.
Proof.
  intros Hp Hp' Hne. apply resolve_other_key. intros E.
  apply make_key_inj in E; [|assumption..]. destruct E as [-> ->]. now apply Hne.
Qed.

Lemma resolve_no_empty (host : string) (port : Z) (env : sys) (c : t) :
  no_empty_entry c -> no_empty_entry (resolve host port env c).2.
Proof.
  intros Hinv key e. destruct (decide (key = make_key host port)) as [-> | Hne].
  - unfold resolve. destruct (cache_ c !! make_key host port) as [e0|] eqn:E.
    + destruct (fresh (now_lookup env) e0).
      * cbn [snd cache_]. rewrite E. intros [= <-]. now apply (Hinv _ _ E).
      * cbn [snd cache_]. destruct (resolved env) eqn:Er.
        -- rewrite lookup_delete_eq. discriminate.
        -- rewrite lookup_insert_eq. intros [= <-]. discriminate.
    + cbn [snd cache_]. destruct (resolved env) eqn:Er.
      * rewrite E. discriminate.
      * rewrite lookup_insert_eq. intros [= <-]. discriminate.
  - rewrite resolve_other_key by exact Hne. apply Hinv.
Qed.

(** X21. A resolution that gives no address is counted as a miss and is not
    cached: the next [resolve] for the key asks the system again. No entry
    of the cache ever holds an empty list. *)
Theorem failed_resolution_not_cached (host : string) (port : Z) (env1 env2 : sys) (c : t) :
  no_empty_entry c ->
  (resolve host port env1 c).1 = [] ->
  let c1 := (resolve host port env1 c).2 in
  no_empty_entry c1
  /\ cache_ c1 !! make_key host port = None
  /\ misses_ c1 = incr64 (misses_ c)
  /\ (resolve host port env2 c1).1 = resolved env2
  /\ misses_ (resolve host port env2 c1).2 = incr64 (misses_ c1)
  /\ hits_ (resolve host port env2 c1).2 = hits_ c.
Proof.
  intros Hinv Hempty. cbv zeta.
  split; [now apply resolve_no_empty |].
  assert (H1 : cache_ (resolve host port env1 c).2 !! make_key host port = None
               /\ misses_ (resolve host port env1 c).2 = incr64 (misses_ c)
               /\ hits_ (resolve host port env1 c).2 = hits_ c).
  { revert Hempty. unfold resolve.
    destruct (cache_ c !! make_key host port) as [e0|] eqn:E.
    - destruct (fresh (now_lookup env1) e0).
      + cbn [fst]. intros He. now destruct (Hinv _ _ E).
      + cbn [fst snd cache_ misses_ hits_]. intros ->. now rewrite lookup_delete_eq.
    - cbn [fst snd cache_ misses_ hits_]. intros ->. auto. }
  destruct H1 as (Hk & Hm & Hh). split; [exact Hk |]. split; [exact Hm |].
  revert Hk Hh. generalize (resolve host port env1 c).2. intros c1 Hk Hh.
  unfold resolve. rewrite Hk. cbn [fst snd misses_ hits_].
  repeat split. exact Hh.
Qed.

Lemma to_seconds_mono (a b : Z) : a <= b -> to_seconds a <= to_seconds b.
Proof.
  intros Hab. unfold to_seconds, NANOS_PER_SECOND.
  destruct (Z.le_gt_cases 0 a) as [Ha | Ha].
  - rewrite !Z.quot_div_nonneg by lia. apply Z.div_le_mono; lia.
  - destruct (Z.le_gt_cases 0 b) as [Hb | Hb].
    + pose proof (Z.quot_pos b 1000000000 Hb ltac:(lia)).
      pose proof (Z.quot_opp_l a 1000000000 ltac:(lia)) as Ho.
      pose proof (Z.quot_pos (- a) 1000000000 ltac:(lia) ltac:(lia)). lia.
    + pose proof (Z.quot_opp_l a 1000000000 ltac:(lia)) as Ha'.
      pose proof (Z.quot_opp_l b 1000000000 ltac:(lia)) as Hb'.
      rewrite !Z.quot_div_nonneg in * by lia.
      pose proof (Z.div_le_mono (- b) (- a) 1000000000 ltac:(lia) ltac:(lia)). lia.
Qed.

Lemma fresh_earlier (now now' : Z) (e : CachedAddress) :
  now <= now' -> fresh now' e = true -> fresh now e = true.
Proof.
  unfold fresh. intros Hle H. apply Z.ltb_lt in H. apply Z.ltb_lt.
  pose proof (to_seconds_mono (now - cached_at e) (now' - cached_at e) ltac:(lia)). lia.
Qed.

(** X22. A [cleanup] before a [resolve], made when the clock has not gone
    back in between, changes neither the addresses returned nor the counts
    of hits and misses nor the entry the key ends with. *)
Theorem cleanup_is_transparent (host : string) (port : Z) (env : sys) (now : Z) (c : t) :
  now <= now_lookup env ->
  (resolve host port env (cleanup now c)).1 = (resolve host port env c).1
  /\ hits_ (resolve host port env (cleanup now c)).2 = hits_ (resolve host port env c).2
  /\ misses_ (resolve host port env (cleanup now c)).2 = misses_ (resolve host port env c).2
  /\ cache_ (resolve host port env (cleanup now c)).2 !! make_key host port
     = cache_ (resolve host port env c).2 !! make_key host port.
Proof.
  intros Hle. unfold resolve, cleanup. cbn [cache_ default_ttl_ hits_ misses_].
  destruct (cache_ c !! make_key host port) as [e|] eqn:E.
  - destruct (fresh now e) eqn:Ef.
    + assert (Hk : filter (fun kv => fresh now kv.2 = true) (cache_ c) !! make_key host port
                   = Some e).
      { apply map_lookup_filter_Some. split; [exact E | exact Ef]. }
      rewrite Hk. destruct (fresh (now_lookup env) e).
      * cbn [fst snd hits_ misses_ cache_]. now rewrite Hk, E.
      * cbn [fst snd hits_ misses_ cache_].
        destruct (resolved env); rewrite ?lookup_insert_eq, ?lookup_delete_eq; auto.
    + assert (Hk : filter (fun kv => fresh now kv.2 = true) (cache_ c) !! make_key host port
                   = None).
      { apply map_lookup_filter_None. right. intros e' He'. rewrite E in He'.
        injection He' as <-. cbn [snd]. congruence. }
      rewrite Hk.
      assert (Hs : fresh (now_lookup env) e = false).
      { destruct (fresh (now_lookup env) e) eqn:Ef'; [|reflexivity].
        rewrite (fresh_earlier _ _ _ Hle Ef') in Ef. discriminate. }
      rewrite Hs. cbn [fst snd hits_ misses_ cache_].
      destruct (resolved env); rewrite ?lookup_insert_eq, ?lookup_delete_eq, ?Hk; auto.
  - assert (Hk : filter (fun kv => fresh now kv.2 = true) (cache_ c) !! make_key host port
                 = None).
    { apply map_lookup_filter_None. left. exact E. }
    rewrite Hk. cbn [fst snd hits_ misses_ cache_].
    destruct (resolved env); rewrite ?lookup_insert_eq, ?Hk, ?E; auto.
Qed.

Lemma incr64_small (x : Z) : 0 <= x < SIZE_MAX -> incr64 x = x + 1.
Proof. intros Hx. unfold incr64. apply Z.mod_small. lia. Qed.

Lemma resolve_counts (host : string) (port : Z) (env : sys) (c : t) :
  0 <= hits_ c -> 0 <= misses_ c -> hits_ c + misses_ c < SIZE_MAX ->
  let c' := (resolve host port env c).2 in
  0 <= hits_ c' /\ 0 <= misses_ c' /\ hits_ c' + misses_ c' = hits_ c + misses_ c + 1.
Proof.
  intros Hh Hm Hs. cbv zeta. unfold resolve.
  destruct (cache_ c !! make_key host port) as [e|]; [destruct (fresh _ e) |];
    cbn [snd hits_ misses_]; rewrite incr64_small by lia; lia.
Qed.

Lemma run_counts (ops : list dns_op) (c : t) :
  0 <= hits_ c -> 0 <= misses_ c ->
  hits_ c + misses_ c + Z.of_nat (resolutions ops) <= SIZE_MAX ->
  0 <= hits_ (dns_run ops c) /\ 0 <= misses_ (dns_run ops c)
  /\ hits_ (dns_run ops c) + misses_ (dns_run ops c)
     = hits_ c + misses_ c + Z.of_nat (resolutions ops).
Proof.
  revert c; induction ops as [|o ops IH]; intros c Hh Hm Hs.
  - cbn. lia.
  - cbn [dns_run fold_left]. fold (dns_run ops (dns_step o c)).
    destruct o as [host port env | now |]; unfold resolutions in *;
      cbn [List.filter length dns_step] in *.
    + destruct (resolve_counts host port env c Hh Hm ltac:(lia)) as (H1 & H2 & H3).
      destruct (IH (resolve host port env c).2 H1 H2 ltac:(lia)) as (H4 & H5 & H6). lia.
    + destruct (IH (cleanup now c) Hh Hm Hs) as (H4 & H5 & H6).
      cbn [cleanup hits_ misses_] in *. lia.
    + destruct (IH (clear c) Hh Hm Hs) as (H4 & H5 & H6).
      cbn [clear hits_ misses_] in *. lia.
Qed.

(** X23. Whatever calls are made on a new cache, the hits and the misses add
    up to the number of [resolve] calls. *)
Theorem every_resolve_is_counted (default_ttl : Z) (ops : list dns_op) :
  Z.of_nat (resolutions ops) <= SIZE_MAX ->
  hits_ (dns_run ops (make default_ttl)) + misses_ (dns_run ops (make default_ttl))
  = Z.of_nat (resolutions ops).
Proof.
  intros Hn.
  destruct (run_counts ops (make default_ttl)) as (_ & _ & H); cbn [make hits_ misses_];
    try lia.
  exact H.
Qed.

Lemma resolve_keeps_other_entries_witness :
  let c1 := (resolve "a.example" 80 (mkSys 0 [[Byte.x0a]] 1) (make 300)).2 in
  cache_ (resolve "a.example" 443 (mkSys 2 [[Byte.x0b]] 3) c1).2 !! make_key "a.example" 80
  = cache_ c1 !! make_key "a.example" 80.
Proof.
  apply (resolve_keeps_other_entries "a.example" "a.example" 80 443
           (mkSys 2 [[Byte.x0b]] 3)
           (resolve "a.example" 80 (mkSys 0 [[Byte.x0a]] 1) (make 300)).2).
  - unfold INT_MIN, INT_MAX. lia.
  - unfold INT_MIN, INT_MAX. lia.
  - discriminate.
Defined.

Lemma failed_resolution_not_cached_witness :
  (resolve "a.example" 80 (mkSys 2 [[Byte.x0a]] 3)
     (resolve "a.example" 80 (mkSys 0 [] 1) (make 300)).2).1
  = [[Byte.x0a]].
Proof.
  apply (failed_resolution_not_cached "a.example" 80 (mkSys 0 [] 1)
           (mkSys 2 [[Byte.x0a]] 3) (make 300)).
  - intros key e Hk. cbn in Hk. rewrite lookup_empty in Hk. discriminate.
  - reflexivity.
Defined.

Lemma cleanup_is_transparent_witness :
  let c1 := (resolve "a.example" 80 (mkSys 0 [[Byte.x0a]] 1) (make 300)).2 in
  (resolve "a.example" 80 (mkSys 400000000000 [[Byte.x0b]] 400000000001)
     (cleanup 350000000000 c1)).1
  = (resolve "a.example" 80 (mkSys 400000000000 [[Byte.x0b]] 400000000001) c1).1.
Proof.
  apply (cleanup_is_transparent "a.example" 80
           (mkSys 400000000000 [[Byte.x0b]] 400000000001) 350000000000
           (resolve "a.example" 80 (mkSys 0 [[Byte.x0a]] 1) (make 300)).2).
  cbn. lia.
Defined.

Lemma every_resolve_is_counted_witness :
  let c := dns_run [Resolve "a.example" 80 (mkSys 0 [[Byte.x0a]] 1);
                    Resolve "a.example" 80 (mkSys 2 [] 3);
                    Cleanup 400000000000;
                    Resolve "a.example" 80 (mkSys 400000000001 [] 400000000002);
                    Clear] (make 300) in
  hits_ c + misses_ c = 3.
Proof.
  apply (every_resolve_is_counted 300
           [Resolve "a.example" 80 (mkSys 0 [[Byte.x0a]] 1);
            Resolve "a.example" 80 (mkSys 2 [] 3);
            Cleanup 400000000000;
            Resolve "a.example" 80 (mkSys 400000000001 [] 400000000002);
            Clear]).
  vm_compute. discriminate.
Defined.

End DNSCacheEntries.

(** ** The rate limiter: the rate it enforces *)

Module RateLimiterBudget.
Import RateLimiter.

Section Limiter.
Context {double : Type} `{Double double}.

Lemma refill_loop_length (burst : N) (now : Z) (n : nat) (tokens : list Z) :
  (N.of_nat (length tokens) <= burst)%N ->
  length (refill_loop burst now n tokens)
  = Nat.min (length tokens + n) (N.to_nat burst).
Proof.
  revert tokens; induction n as [|n IH]; intros tokens Hb; cbn [refill_loop].
  - lia.
  - destruct (N.ltb_spec (N.of_nat (length tokens)) burst) as [Hlt | Hge].
    + rewrite IH; rewrite length_app; cbn [length]; lia.
    + lia.
Qed.

Lemma refill_loop_le (burst : N) (now : Z) (n : nat) (tokens : list Z) :
  (length tokens <= length (refill_loop burst now n tokens) <= length tokens + n)%nat.
Proof.
  revert tokens; induction n as [|n IH]; intros tokens; cbn [refill_loop].
  - lia.
  - destruct (N.ltb_spec (N.of_nat (length tokens)) burst) as [Hlt | Hge]; [|lia].
    specialize (IH (tokens ++ [now])%list). rewrite length_app in IH. cbn [length] in IH. lia.
Qed.

Lemma refill_budget (t0 T i : Z) (g : nat) (now : Z) (l : t double) :
  0 < i -> now <= T -> in_budget t0 T i g l ->
  exists l', refill now l = Some l' /\ in_budget t0 T i g l'.
Proof.
  intros Hi Hnow (Hr & Hint & Hb & Hl). unfold refill. rewrite Hr, Hint.
  destruct (Z.eqb_spec i 0) as [?|_]; [lia |].
  destruct (Z.ltb_spec 0 (Z.quot (now - last_refill_ l) i)) as [Hk | Hk].
  - eexists. split; [reflexivity |]. unfold in_budget.
    cbn [rate_ interval_ tokens_ last_refill_]. split; [exact Hr |]. split; [reflexivity |].
    split; [|exact Hnow].
    pose proof (refill_loop_le (burst_ l) now
                  (Z.to_nat (Z.quot (now - last_refill_ l) i)) (tokens_ l)) as Hlen.
    assert (Hpos : 0 <= now - last_refill_ l).
    { destruct (Z.le_gt_cases 0 (now - last_refill_ l)) as [?|Hneg]; [assumption |].
      pose proof (Z.quot_opp_l (now - last_refill_ l) i ltac:(lia)) as Ho.
      pose proof (Z.quot_pos (- (now - last_refill_ l)) i ltac:(lia) ltac:(lia)). lia. }
    rewrite Z.quot_div_nonneg in * by lia.
    pose proof (Z.mul_div_le (now - last_refill_ l) i Hi). nia.
  - exists l. split; [reflexivity |]. unfold in_budget. auto.
Qed.

Lemma pop_budget (t0 T i : Z) (g : nat) (l : t double) :
  0 < i -> tokens_ l <> [] -> in_budget t0 T i g l -> in_budget t0 T i (S g) (pop_front l).
Proof.
  intros Hi Hne (Hr & Hint & Hb & Hl). unfold in_budget, pop_front.
  cbn [rate_ interval_ tokens_ last_refill_]. repeat split; try assumption.
  destruct (tokens_ l) as [|tk tks]; [congruence |]. cbn [tail length] in *.
  replace (S g + length tks)%nat with (g + S (length tks))%nat by lia. exact Hb.
Qed.

Lemma grant_budget (t0 T i : Z) (g : nat) (o : op double) (l : t double) :
  0 < i -> keeps_rate o = true -> Forall (fun t => t <= T) (readings [o]) ->
  in_budget t0 T i g l ->
  exists b l', grant o l = Some (b, l')
               /\ in_budget t0 T i (if b then S g else g) l'.
Proof.
  intros Hi Hk Hts Hin. pose proof Hin as (Hr & _).
  unfold readings in Hts. cbn [flat_map] in Hts. rewrite app_nil_r in Hts.
  destruct o as [now | clock | now | r b now]; [| | |discriminate]; cbn [grant].
  - apply Forall_cons in Hts as [Hnow _].
    destruct (refill_budget t0 T i g now l Hi Hnow Hin) as (l' & -> & Hin').
    exists false, l'. now split.
  - unfold acquire. rewrite Hr. clear Hr.
    revert l Hin; induction clock as [|now clock IH]; intros l Hin; cbn [acquire_loop].
    + exists false, l. now split.
    + apply Forall_cons in Hts as [Hnow Hts].
      destruct (refill_budget t0 T i g now l Hi Hnow Hin) as (l' & -> & Hin').
      destruct (tokens_ l') as [|tk tks] eqn:Et.
      * apply IH; assumption.
      * exists true, (pop_front l'). split; [reflexivity |].
        apply pop_budget; [exact Hi | congruence | exact Hin'].
  - unfold try_acquire. rewrite Hr.
    apply Forall_cons in Hts as [Hnow _].
    destruct (refill_budget t0 T i g now l Hi Hnow Hin) as (l' & -> & Hin').
    destruct (tokens_ l') as [|tk tks] eqn:Et.
    + exists false, l'. now split.
    + exists true, (pop_front l'). split; [reflexivity |].
      apply pop_budget; [exact Hi | congruence | exact Hin'].
Qed.

Lemma granted_budget (t0 T i : Z) (ops : list (op double)) (g : nat) (l : t double) :
  0 < i ->
  Forall (fun o => keeps_rate o = true) ops ->
  Forall (fun t => t <= T) (readings ops) ->
  in_budget t0 T i g l ->
  exists n l', granted ops l = Some (n, l') /\ in_budget t0 T i (g + n) l'.
Proof.
  intros Hi. revert g l; induction ops as [|o ops IH]; intros g l Hk Hts Hin.
  - exists O, l. rewrite Nat.add_0_r. now split.
  - apply Forall_cons in Hk as [Hko Hk].
    unfold readings in Hts. cbn [flat_map] in Hts. fold (readings ops) in Hts.
    apply Forall_app in Hts as [Hto Hts].
    destruct (grant_budget t0 T i g o l Hi Hko) as (b & l' & Hg & Hin');
      [unfold readings; cbn [flat_map]; now rewrite app_nil_r | exact Hin |].
    destruct (IH _ l' Hk Hts Hin') as (n & l'' & Hgs & Hin'').
    cbn [granted]. rewrite Hg, Hgs.
    exists (if b then S n else n), l''. split; [reflexivity |].
    destruct b; [|exact Hin''].
    replace (g + S n)%nat with (S g + n)%nat by lia. exact Hin''.
Qed.

Lemma refill_early (now i : Z) (l : t double) :
  le_zero (rate_ l) = false -> interval_ l = Some i -> 0 < i ->
  now - last_refill_ l < i ->
  refill now l = Some l.
Proof.
  intros Hr Hint Hi Hearly. unfold refill. rewrite Hr, Hint.
  destruct (Z.eqb_spec i 0) as [?|_]; [lia |].
  destruct (Z.ltb_spec 0 (Z.quot (now - last_refill_ l) i)) as [Hk | Hk]; [|reflexivity].
  exfalso. destruct (Z.le_gt_cases 0 (now - last_refill_ l)) as [Hpos | Hneg].
  - rewrite Z.quot_small in Hk by lia. lia.
  - pose proof (Z.quot_opp_l (now - last_refill_ l) i ltac:(lia)) as Ho.
    pose proof (Z.quot_pos (- (now - last_refill_ l)) i ltac:(lia) ltac:(lia)). lia.
Qed.

(** A starved limiter stays starved, whatever the clock reads. *)
Lemma starved_refill (now : Z) (l : t double) :
  starved l -> exists l', refill now l = Some l' /\ starved l'.
Proof.
  intros (Hr & Hb & Ht & i & Hint & Hi). unfold refill. rewrite Hr, Hint.
  destruct (Z.eqb_spec i 0) as [?|_]; [contradiction |].
  destruct (0 <? _).
  - eexists. split; [reflexivity |]. unfold starved.
    cbn [rate_ burst_ tokens_ interval_]. rewrite Hb, Ht.
    split; [exact Hr |]. split; [reflexivity |]. split; [now destruct (Z.to_nat _) |].
    now exists i.
  - exists l. split; [reflexivity |]. unfold starved. eauto 6.
Qed.

Lemma starved_grant (o : op double) (l : t double) :
  keeps_rate o = true -> starved l ->
  exists l', grant o l = Some (false, l') /\ starved l'.
Proof.
  intros Hk Hs. pose proof Hs as (Hr & _).
  destruct o as [now | clock | now | r b now]; [| | |discriminate]; cbn [grant].
  - destruct (starved_refill now l Hs) as (l' & -> & Hs'). now exists l'.
  - unfold acquire. rewrite Hr. clear Hr.
    revert l Hs; induction clock as [|now clock IH]; intros l Hs; cbn [acquire_loop].
    + now exists l.
    + destruct (starved_refill now l Hs) as (l' & -> & Hs').
      pose proof Hs' as (_ & _ & -> & _). now apply IH.
  - unfold try_acquire. rewrite Hr.
    destruct (starved_refill now l Hs) as (l' & -> & Hs').
    pose proof Hs' as (_ & _ & -> & _). now exists l'.
Qed.

Lemma starved_granted (ops : list (op double)) (l : t double) :
  Forall (fun o => keeps_rate o = true) ops -> starved l ->
  exists l', granted ops l = Some (O, l').
Proof.
  intros Hk. revert l; induction Hk as [|o ops Ho _ IH]; intros l Hs.
  - now exists l.
  - destruct (starved_grant o l Ho Hs) as (l' & Hg & Hs').
    destruct (IH l' Hs') as (l'' & Hgs). cbn [granted]. rewrite Hg, Hgs. now exists l''.
Qed.

End Limiter.

(** X25. [acquire] on an empty bucket takes no token at a clock reading
    less than one interval after the last refill, and takes one at the
    first reading at which an interval has passed; the bucket is then
    refilled up to the burst, less the token taken. *)
Theorem acquire_waits_for_interval {double : Type} `{Double double}
    (l : t double) (i t : Z) (before after : list Z) :
  le_zero (rate_ l) = false ->
  interval_ l = Some i ->
  0 < i ->
  tokens_ l = [] ->
  (1 <= burst_ l)%N ->
  Forall (fun t' => t' - last_refill_ l < i) before ->
  i <= t - last_refill_ l ->
  exists l',
    acquire (before ++ t :: after) l = Some (true, l')
    /\ last_refill_ l' = t
    /\ length (tokens_ l')
       = Nat.pred (Nat.min (Z.to_nat ((t - last_refill_ l) / i)) (N.to_nat (burst_ l))).
Proof.
  intros Hr Hint Hi Ht Hb Hbefore Hdue. unfold acquire. rewrite Hr.
  induction Hbefore as [|t' before Ht' _ IH]; cbn [app acquire_loop].
  - unfold refill. rewrite Hr, Hint.
    destruct (Z.eqb_spec i 0) as [?|_]; [lia |].
    rewrite Z.quot_div_nonneg by lia.
    assert (Hk : 1 <= (t - last_refill_ l) / i) by (apply Z.div_le_lower_bound; lia).
    destruct (Z.ltb_spec 0 ((t - last_refill_ l) / i)) as [_|?]; [|lia].
    cbn [tokens_].
    pose proof (refill_loop_length (burst_ l) t (Z.to_nat ((t - last_refill_ l) / i))
                  (tokens_ l)) as Hlen.
    rewrite Ht in *. cbn [length Nat.add] in Hlen. specialize (Hlen ltac:(lia)).
    destruct (refill_loop (burst_ l) t (Z.to_nat ((t - last_refill_ l) / i)) [])
      as [|tk tks] eqn:El.
    + cbn [length] in Hlen. lia.
    + eexists. split; [reflexivity |]. cbn [pop_front last_refill_ tokens_ tail].
      split; [reflexivity |]. cbn [length] in Hlen. lia.
  - rewrite (refill_early t' i l Hr Hint Hi Ht'), Ht. exact IH.
Qed.

(** X26. A limiter with a positive rate that [static_cast<size_t>] truncates
    to zero, and no burst given, has a burst of zero: it never hands out a
    token, so [acquire] waits without end. *)
Theorem low_rate_never_grants {double : Type} `{Double double}
    (r : double) (t0 : Z) (l : t double) (ops : list (op double)) :
  le_zero r = false ->
  gt_zero r = true ->
  nanos_per_request r <> 0 ->
  to_size_t r = 0%N ->
  Forall (fun o => keeps_rate o = true) ops ->
  (exists l', granted ops (make r 0 t0) = Some (O, l'))
  /\ (exists l', granted ops (set_rate r 0 t0 l) = Some (O, l')).
Proof.
  intros Hle Hgt Hi Hz Hk. split; apply starved_granted; try exact Hk;
    unfold starved, make, set_rate; cbn [rate_ burst_ tokens_ interval_];
    rewrite Hgt, Hz; repeat split; eauto.
Qed.

(** X24. A limiter built with a positive rate hands out, up to any time [T]
    that bounds the clock readings it is given, at most
    [(T - t0) / interval] tokens, [t0] being the time it was built: the
    configured rate is never exceeded on average. *)
Theorem rate_is_bounded {double : Type} `{Double double}
    (r : double) (burst : N) (t0 T : Z) (ops : list (op double)) :
  le_zero r = false ->
  gt_zero r = true ->
  0 < nanos_per_request r ->
  Forall (fun o => keeps_rate o = true) ops ->
  t0 <= T ->
  Forall (fun t => t <= T) (readings ops) ->
  exists n l',
    granted ops (make r burst t0) = Some (n, l')
    /\ Z.of_nat n * nanos_per_request r <= T - t0.
Proof.
  intros Hle Hgt Hi Hk HT Hts.
  destruct (granted_budget t0 T (nanos_per_request r) ops O (make r burst t0) Hi Hk Hts)
    as (n & l' & Hg & Hin).
  - unfold in_budget, make. cbn [rate_ interval_ tokens_ last_refill_ length].
    rewrite Hgt. repeat split; try assumption; lia.
  - exists n, l'. split; [exact Hg |].
    destruct Hin as (_ & _ & Hb & Hl). cbn [Nat.add] in Hb. nia.
Qed.

Lemma rate_is_bounded_witness :
  exists n l',
    granted [TryAcquire 500000000; TryAcquire 600000000;
             Acquire [700000000; 1000000000]; Refill 1000000000]
      (make (2 : Z) 0 0) = Some (n, l')
    /\ Z.of_nat n * 500000000 <= 1000000000.
Proof.
  destruct (rate_is_bounded (2 : Z) 0 0 1000000000
              [TryAcquire 500000000; TryAcquire 600000000;
               Acquire [700000000; 1000000000]; Refill 1000000000])
    as (n & l' & Hg & Hb); try reflexivity; try (cbn; lia).
  - repeat constructor.
  - cbn. repeat constructor; lia.
  - exists n, l'. split; [exact Hg | exact Hb].
Defined.

Lemma acquire_waits_for_interval_witness :
  exists l',
    acquire [100; 499999999; 1200000000; 1300000000] (make (2 : Z) 0 0) = Some (true, l')
    /\ last_refill_ l' = 1200000000
    /\ length (tokens_ l') = 1%nat.
Proof.
  destruct (acquire_waits_for_interval (make (2 : Z) 0 0) 500000000 1200000000
              [100; 499999999] [1300000000]) as (l' & E & Hl & Ht);
    try reflexivity; try (cbn; lia).
  - cbn. repeat constructor; lia.
  - exists l'. split; [exact E |]. split; [exact Hl |]. rewrite Ht. reflexivity.
Defined.

Lemma low_rate_never_grants_witness :
  exists l',
    granted [TryAcquire 5000000000; Acquire [6000000000; 7000000000]]
      (make (Qmake 1 2) 0 0) = Some (O, l').
Proof.
  apply (low_rate_never_grants (Qmake 1 2) 0 (make (Qmake 1 2) 0 0)
           [TryAcquire 5000000000; Acquire [6000000000; 7000000000]]);
    try reflexivity.
  - vm_compute. discriminate.
  - repeat constructor.
Defined.

End RateLimiterBudget.

(** ** The command line tool *)

Module MainFacts.
Import Main.

Lemma digits_val_ge (d : Decimal.uint) (acc : Z) : 0 <= acc -> acc <= digits_val d acc.
Proof.
  revert acc; induction d; intros acc Hacc; cbn [digits_val]; try lia;
    (etransitivity; [|apply IHd; lia]); lia.
Qed.

Lemma read_digits_uint (d : Decimal.uint) (acc : Z) :
  0 <= acc -> digits_val d acc <= SIZE_MAX ->
  read_digits (NilEmpty.string_of_uint d) acc = digits_val d acc.
Proof.
  revert acc; induction d; intros acc Hacc Hmax;
    cbn [NilEmpty.string_of_uint read_digits digits_val] in *; try reflexivity;
    match goal with
    | |- read_digits _ (match digit_of ?c with _ => _ end) = digits_val _ ?v =>
        let r := eval vm_compute in (digit_of c) in
        change (digit_of c) with r; cbv iota;
        pose proof (digits_val_ge d v ltac:(lia));
        rewrite DownloadFacts.wrap64_small by lia; apply IHd; lia
    end.
Qed.

(** X27. The digit loop reads the decimal text of every [size_t] back to
    its value. *)
Theorem content_length_reads_back (n : Z) :
  0 <= n <= SIZE_MAX -> content_length_of (Download.size_to_string n) = n.
Proof.
  intros Hn. unfold content_length_of, Download.size_to_string.
  destruct n as [|p|p]; [reflexivity | | lia].
  cbn [Z.to_N N.to_uint]. unfold NilZero.string_of_uint.
  pose proof (NumFacts.digits_val_to_uint p) as Hv.
  assert (Hnn := DecimalPos.Unsigned.to_uint_nonnil p).
  destruct (Pos.to_uint p) eqn:E; try congruence; rewrite <- E in *;
    rewrite read_digits_uint by lia; exact Hv.
Qed.

Lemma read_digits_app (a b : string) (acc : Z) :
  read_digits (a +:+ b) acc = read_digits b (read_digits a acc).
Proof.
  revert acc; induction a as [|c a IH]; intros acc;
    rewrite ?StrFacts.app_nil_l, ?StrFacts.app_cons; cbn [read_digits]; [reflexivity |].
  apply IH.
Qed.

Lemma read_digits_junk (junk : string) (acc : Z) :
  no_digit junk = true -> read_digits junk acc = acc.
Proof.
  induction junk as [|c junk IH]; cbn [no_digit read_digits]; [reflexivity |].
  destruct (digit_of c); [discriminate | exact IH].
Qed.

(** X28. The digit loop passes over every character that is not a digit
    and goes on: the digits after it are appended to the digits before
    it. *)
Theorem content_length_skips_other_characters (a junk b : string) :
  no_digit junk = true ->
  content_length_of (a +:+ junk +:+ b) = content_length_of (a +:+ b).
Proof.
  intros Hj. unfold content_length_of.
  rewrite !read_digits_app. now rewrite (read_digits_junk junk _ Hj).
Qed.

Lemma find_first_not_of_blank (ws rest : string) :
  all_blank ws = true ->
  match rest with
  | EmptyString => True
  | String c _ => Str.mem c blanks = false
  end ->
  erase_front (ws +:+ rest) (find_first_not_of (ws +:+ rest) blanks) = rest.
Proof.
  intros Hws Hrest. induction ws as [|c ws IH];
    rewrite ?StrFacts.app_nil_l, ?StrFacts.app_cons.
  - destruct rest as [|c rest]; [reflexivity |]. cbn [find_first_not_of].
    rewrite Hrest. reflexivity.
  - cbn [all_blank] in Hws. apply andb_true_iff in Hws as [Hc Hws].
    cbn [find_first_not_of]. rewrite Hc. specialize (IH Hws).
    destruct (find_first_not_of (ws +:+ rest) blanks); exact IH.
Qed.

(** X29. The header option is split at its first colon: the text before
    it is the name, the text after it, without leading spaces and tabs, is
    the value. *)
Theorem header_option_splits (key ws value : string) (headers : gmap string string) :
  Str.mem ":" key = false ->
  all_blank ws = true ->
  match value with
  | EmptyString => True
  | String c _ => Str.mem c blanks = false
  end ->
  header_option (key +:+ ":" +:+ ws +:+ value) headers = <[key := value]> headers.
Proof.
  intros Hk Hws Hv. unfold header_option, Str.find_char.
  rewrite StrFacts.find_0.
  rewrite (StrFacts.find_at_char_app ":" key (":" +:+ ws +:+ value)) by exact Hk.
  rewrite StrFacts.app_cons, StrFacts.app_nil_l, StrFacts.find_at_char_cons.
  cbn [Ascii.eqb Bool.eqb option_map]. rewrite Nat.add_0_r.
  unfold Str.substr, Str.substr_from. rewrite StrFacts.drop_0.
  rewrite StrFacts.take_app_length.
  rewrite <- (StrFacts.drop_drop 1 (String.length key)), StrFacts.drop_app_length.
  cbn [Str.drop]. now rewrite find_first_not_of_blank.
Qed.

Lemma content_length_reads_back_witness :
  content_length_of (Download.size_to_string 1048576) = 1048576.
Proof. apply (content_length_reads_back 1048576). unfold SIZE_MAX. lia. Defined.

Lemma content_length_skips_other_characters_witness :
  content_length_of ("12" +:+ ", " +:+ "34") = content_length_of ("12" +:+ "34").
Proof. apply (content_length_skips_other_characters "12" ", " "34"). reflexivity. Defined.

Lemma header_option_splits_witness :
  header_option ("Accept" +:+ ":" +:+ " " +:+ "text/html") ∅
  = <["Accept" := "text/html"]> ∅.
Proof.
  apply (header_option_splits "Accept" " " "text/html" ∅); reflexivity.
Defined.

End MainFacts.

(** ** The shape of parsed URLs *)

Module URLShape.
Import Str StrFacts.

Lemma after_scheme_default_port (sch r : string) (u : URL.t) :
  mem ":" r = false ->
  after_scheme sch r = Ret (Some u) ->
  URL.port u = if String.eqb sch "https" then 443 else 80.
Proof.
  intros Hm. unfold after_scheme.
  set (host_end := match min_pos _ _ with None => String.length r | Some e => e end).
  assert (Hh : find_at ":" (take host_end r) = None).
  { apply find_at_char_absent, mem_take, Hm. }
  rewrite Hh. cbn [obind fst snd]. intros [= <-]. reflexivity.
Qed.

(** X30. Every URL that [URL::parse] returns has a host without [':'],
    ['/'] and ['?'], a port that is an [int] and a path that starts with
    ['/']; its scheme is the text before the first ["://"] in lower case
    ([find_at] returns the first occurrence), and when no colon follows the
    separator its port is 443 for https and 80 for every other scheme. *)
Theorem parse_result_shape (s : string) (u : URL.t) :
  URL.parse s = Ret (Some u) ->
  parsed_shape u
  /\ exists a b,
       s = a +:+ "://" +:+ b
       /\ find_at "://" s = Some (String.length a)
       /\ URL.scheme u = map tolower a
       /\ (mem ":" b = false ->
           URL.port u = if String.eqb (URL.scheme u) "https" then 443 else 80).
Proof.
  intros Hp. split; [now apply (URLFacts.parse_shape s) |].
  destruct (find_at "://" s) as [n|] eqn:En.
  - exists (take n s), (drop (n + 3) s). split; [now apply URLFacts.find_at_split in En |].
    split.
    { pose proof (find_at_le _ _ _ En) as Hle. cbn [String.length] in Hle.
      rewrite length_take. f_equal. lia. }
    rewrite (URLFacts.parse_split _ _ En) in Hp.
    destruct (URLFacts.after_scheme_shape _ _ _ Hp) as [_ Hs].
    split; [exact Hs |]. intros Hm. rewrite Hs.
    now apply (after_scheme_default_port _ (drop (n + 3) s)).
  - unfold URL.parse in Hp. rewrite find_0, En in Hp. discriminate.
Qed.

Lemma parse_result_shape_witness :
  parsed_shape (URL.mk "ftp" "host" 80 "/x" "").
Proof.
  exact (proj1 (parse_result_shape "FTP://host/x" (URL.mk "ftp" "host" 80 "/x" "") eq_refl)).
Defined.

End URLShape.
